(** * SHAKE-PRNG: a SHAKE based deterministic random bit generator

    A shallow embedding of [shake.go] (encoding helpers, SHAKE and cSHAKE
    contexts) and [prng.go] (the [ShakePRNG] engine), with the properties of
    the engine stated against the embedding.

    Conventions.
    - A Go [byte] is a [Z] in [[0, 256)]; every place where Go truncates to
      eight bits is written [to_byte].
    - A Go [int] is a 64-bit signed integer, a [Z] with [wrap_int] written
      where the program increments a counter; a [uint64] is a [Z] reduced by
      [to_uint64].
    - A slice is a [list byte]; lengths are converted with [len].
    - A Go panic (nil interface call, division by zero, slice out of range,
      negative [make]) is the outcome [Fault]. *)

From Stdlib Require Import String.
From Stdlib Require Import ZArith List Lia Bool.
Import ListNotations.
Open Scope Z_scope.

(** ** Outcomes

    [Fault] is a Go panic; [Val x] is a normal return. *)

Inductive fault (A : Type) : Type :=
| Fault : fault A
| Val : A -> fault A.
Arguments Fault {A}.
Arguments Val {A} _.

Definition bind {A B : Type} (m : fault A) (k : A -> fault B) : fault B :=
  match m with
  | Fault => Fault
  | Val x => k x
  end.

Notation "x <- m ;; k" := (bind m (fun x => k))
  (at level 61, m at next level, right associativity).
Notation "' p <- m ;; k" := (bind m (fun p => k))
  (at level 61, p pattern, m at next level, right associativity).

(** ** Machine integers and bytes *)

Definition byte := Z.

Definition to_byte (x : Z) : byte := x mod 256.

Definition to_uint64 (x : Z) : Z := x mod 2 ^ 64.

(** Two's complement reduction of a mathematical integer to a Go [int]. *)
Definition wrap_int (x : Z) : Z := (x + 2 ^ 63) mod 2 ^ 64 - 2 ^ 63.

Definition is_byte (x : Z) : Prop := 0 <= x < 256.

Definition len {A : Type} (l : list A) : Z := Z.of_nat (length l).

(** [make([]byte, n)] for a non-negative [n]. *)
Definition zeros (n : Z) : list byte := repeat 0 (Z.to_nat n).

(** Go's builtin [copy(dst, src)]: the first [min(len dst, len src)] bytes of
    [dst] are overwritten, the length of [dst] is kept. *)
Definition copy (dst src : list byte) : list byte :=
  firstn (length dst) src ++ skipn (length src) dst.

(** [b[i] = x] on a slice, for an index in range. *)
Fixpoint set_nth (b : list byte) (i : nat) (x : byte) : list byte :=
  match b, i with
  | [], _ => []
  | _ :: t, O => x :: t
  | h :: t, S j => h :: set_nth t j x
  end.

(** [bits.RotateLeft8(x, k)]: [s := uint(k) & 7; x<<s | x>>(8-s)] on a
    [uint8]. A negative [k] rotates right; the mask keeps [k mod 8]. *)
Definition RotateLeft8 (x : byte) (k : Z) : byte :=
  let s := k mod 8 in
  Z.lor (to_byte (Z.shiftl x s)) (Z.shiftr x (8 - s)).

(** ** Encoding helpers of shake.go *)

(** [binary.BigEndian.PutUint64]: eight bytes, most significant first. *)
Definition PutUint64_be (v : Z) : list byte :=
  [ to_byte (Z.shiftr v 56); to_byte (Z.shiftr v 48);
    to_byte (Z.shiftr v 40); to_byte (Z.shiftr v 32);
    to_byte (Z.shiftr v 24); to_byte (Z.shiftr v 16);
    to_byte (Z.shiftr v 8);  to_byte v ].

(** The trimming loop of [leftEncode]:
    [for i < 8 && b[i] == 0 { i++ }]. *)
Fixpoint leftEncode_loop (fuel : nat) (b : list byte) (i : Z) : Z :=
  match fuel with
  | O => i
  | S f =>
      if (i <? 8) && (nth (Z.to_nat i) b 0 =? 0)
      then leftEncode_loop f b (i + 1)
      else i
  end.

Definition leftEncode (value : Z) : list byte :=
  let b := 0 :: PutUint64_be value in
  let i := leftEncode_loop 8 b 1 in
  let b := set_nth b (Z.to_nat (i - 1)) (to_byte (9 - i)) in
  skipn (Z.to_nat (i - 1)) b.

(** Reading a big-endian byte string back as a number. *)
Definition be_decode (l : list byte) : Z :=
  fold_left (fun acc x => acc * 256 + x) l 0.

(** The reader of a left-encoded integer: one length byte, then that many
    value bytes, most significant first. *)
Definition leftDecode (l : list byte) : option Z :=
  match l with
  | [] => None
  | n :: vals => if len vals =? n then Some (be_decode vals) else None
  end.

(** [bytepad]: [len(buf) % w] panics for [w = 0], and [make] panics for a
    negative length (a negative [w]). *)
Definition bytepad (input : list byte) (w : Z) : fault (list byte) :=
  let buf := leftEncode (to_uint64 w) ++ input in
  if w =? 0 then Fault else
  let padlen := w - Z.rem (len buf) w in
  if padlen <? 0 then Fault else
  Val (buf ++ zeros padlen).

(** ** The hash capability of shake.go

    [ShakeHash] is the interface the engine is written against: [io.Writer],
    [io.Reader], [Clone] and [Reset]. [H] is the type of hash contexts, [E]
    the type of the errors an implementation may return. [Write] is
    documented to panic when input is written after output has been read, so
    both [Write] and [Read] may fault. [Read h n] is a read into a buffer of
    [n] bytes; it yields the bytes placed in the buffer. *)

Class ShakeHash (H E : Type) : Type := {
  Write : H -> list byte -> fault (H * option E);
  Read : H -> Z -> fault (H * list byte * option E);
  Clone : H -> H;
  Reset : H -> H
}.

(** The two constructors of shake.go the engine calls. *)
Class ShakeNew (H : Type) : Type := {
  NewShake128 : H;
  NewShake256 : H
}.

(** Consts for configuring the initial SHA-3 state. *)
Definition dsbyteShake : byte := 0x1f.
Definition dsbyteCShake : byte := 0x04.
Definition rate128 : Z := 168.
Definition rate256 : Z := 136.

(** ** Errors of prng.go

    [ErrDRBGReseed] is the sentinel; [HashError e] is an error returned by
    the hash; [Errorf msg args] is [fmt.Errorf("%s", msg)], a plain message
    formatted from [args]; [Wrapf msg args err] is
    [fmt.Errorf("%s: %w", msg, err)], which wraps [err]. *)

Inductive error (E : Type) : Type :=
| ErrDRBGReseed : error E
| HashError : E -> error E
| Errorf : String.string -> list Z -> error E
| Wrapf : String.string -> list Z -> error E -> error E.
Arguments ErrDRBGReseed {E}.
Arguments HashError {E} _.
Arguments Errorf {E} _ _.
Arguments Wrapf {E} _ _ _.

Definition WrapTraceableErrorf {E : Type} (err : option (error E))
  (format : String.string) (args : list Z) : error E :=
  match err with
  | Some e => Wrapf format args e
  | None => Errorf format args
  end.

(** [errors.Is(err, ErrDRBGReseed)]: the sentinel is looked up along the
    chain of wrapped errors. *)
Fixpoint IsErrDRBGReseed {E : Type} (err : error E) : bool :=
  match err with
  | ErrDRBGReseed => true
  | HashError _ => false
  | Errorf _ _ => false
  | Wrapf _ _ e => IsErrDRBGReseed e
  end.

(** A validation error is a plain message: it wraps nothing. *)
Definition IsValidationError {E : Type} (err : error E) : bool :=
  match err with
  | Errorf _ _ => true
  | _ => false
  end.

(** ** Constants of prng.go *)

Definition MaxInputLength : Z := Z.shiftl 1 32.
Definition ReseedInterval : Z := Z.shiftl 1 48.
Definition MaxBytesPerRequest : Z := Z.shiftl 1 16.
Definition RecommendedKMAC128KeyTagSize : Z := 32.
Definition RecommendedKMAC256KeyTagSize : Z := 64.
Definition nClear : Z := 25.

(** ** Early return

    A stage of a method either returns from the method ([Return r]) or hands
    its locals to the next stage ([Next a]). *)

Inductive step (R A : Type) : Type :=
| Return : R -> step R A
| Next : A -> step R A.
Arguments Return {R A} _.
Arguments Next {R A} _.

Definition andThen {R A B : Type} (m : fault (step R A))
  (k : A -> fault (step R B)) : fault (step R B) :=
  match m with
  | Fault => Fault
  | Val (Return r) => Val (Return r)
  | Val (Next a) => k a
  end.

Definition finish {R : Type} (m : fault (step R R)) : fault R :=
  match m with
  | Fault => Fault
  | Val (Return r) => Val r
  | Val (Next r) => Val r
  end.

(** ** The engine of prng.go *)

(** [ShakePRNG]: [c] is an interface value, [None] when it is [nil]. *)
Record ShakePRNG (H : Type) : Type := mkShakePRNG {
  c : option H;
  rate : Z;
  seedLen : Z;
  counter : Z;
  nw : Z
}.
Arguments mkShakePRNG {H} _ _ _ _ _.
Arguments c {H} _.
Arguments rate {H} _.
Arguments seedLen {H} _.
Arguments counter {H} _.
Arguments nw {H} _.

Definition set_c {H : Type} (s : ShakePRNG H) (h : option H) : ShakePRNG H :=
  mkShakePRNG h (rate s) (seedLen s) (counter s) (nw s).

Definition set_counter {H : Type} (s : ShakePRNG H) (n : Z) : ShakePRNG H :=
  mkShakePRNG (c s) (rate s) (seedLen s) n (nw s).

Definition set_nw {H : Type} (s : ShakePRNG H) (n : Z) : ShakePRNG H :=
  mkShakePRNG (c s) (rate s) (seedLen s) (counter s) n.

(** [buf[lo:hi]] panics unless [0 <= lo <= hi <= len(buf)] (the buffers of
    this program have their capacity equal to their length). *)
Definition slice (buf : list byte) (lo hi : Z) : fault (list byte) :=
  if (0 <=? lo) && (lo <=? hi) && (hi <=? len buf)
  then Val (firstn (Z.to_nat (hi - lo)) (skipn (Z.to_nat lo) buf))
  else Fault.

(** [gen10x01Pad] generates the 10*01 padding for [n] bytes. *)
Definition gen10x01Pad (n : Z) : list byte :=
  if n <=? 0 then [] else
  let buf := zeros n in
  let buf := set_nth buf 0 0x1f in
  set_nth buf (Z.to_nat (n - 1)) (Z.lxor (nth (Z.to_nat (n - 1)) buf 0) 0x80).

(** [getStartFrom]: the XOR of all bytes of [buf], plus [byte(s.nw+1)],
    rotated by [s.nw] (the other way when [s.nw & 0xa55a != 0]). *)
Definition getStartFrom {H : Type} (s : ShakePRNG H) (buf : list byte) : byte :=
  let sum := fold_left (fun sum x => Z.lxor sum x) buf 0 in
  let sum := to_byte (sum + to_byte (wrap_int (nw s + 1))) in
  let r := nw s in
  let r := if negb (Z.land r 0xa55a =? 0) then wrap_int (- r) else r in
  RotateLeft8 sum r.

(** The inner loop of [createMask] at position [i]: [j] runs over
    [1 .. l-1]. *)
Definition createMask_step (l : nat) (tmp : list byte) (i : nat)
  (sum : byte) (j : nat) : byte :=
  let idx := ((i + j) mod l)%nat in
  let r := Z.land (Z.of_nat j) 0x07 in
  if r =? 0 then Z.lxor sum (Z.lxor (nth idx tmp 0) 0xff)
  else
    let r := if negb (Z.land (Z.of_nat j) 0x0a =? 0) then - r else r in
    Z.lxor sum (RotateLeft8 (nth idx tmp 0) r).

(** [createMask] rewrites [b] in place; position [i] is read before it is
    written and the other positions are read from the copy [tmp], so every
    new byte is a function of the old contents. *)
Definition createMask (b : list byte) : list byte :=
  let l := length b in
  match b with
  | [] => b
  | b0 :: rest =>
      let notAllSame := existsb (fun x => negb (x =? b0)) rest in
      let tmp :=
        map (fun i =>
               if notAllSame then nth i b 0
               else to_byte (nth i b 0 + to_byte (Z.of_nat i + 1)))
            (seq 0 l) in
      map (fun i => fold_left (createMask_step l tmp i) (seq 1 (l - 1)) (nth i b 0))
          (seq 0 l)
  end.

Section Engine.

Context {H E : Type} `{HashOps : ShakeHash H E}.

(** [NeedReseed] indicates if the DRBG needs to be reseeded. *)
Definition NeedReseed (s : ShakePRNG H) : bool := counter s >? ReseedInterval.

(** [Destroy]: [s.c.Reset()] on a nil interface panics. *)
Definition Destroy (s : ShakePRNG H) : fault (ShakePRNG H) :=
  match c s with
  | None => Fault
  | Some _ => Val (mkShakePRNG None 0 0 0 0)
  end.

(** [writeWithPad] writes [start] zero bytes and [p] into [h], then zero
    bytes up to a multiple of [s.rate], and counts the call in [s.nw]. [h] is
    the interface value the caller passes ([s.c] or the clone); the context
    it designates after the call is returned next to the engine. *)
Definition writeWithPad (s : ShakePRNG H) (h : option H) (p : list byte)
  (start : byte) : fault (ShakePRNG H * option H * option (error E)) :=
  if len p =? 0 then Val (s, h, None) else
  let offset := start in
  let buf := zeros (offset + len p) in
  let buf := firstn (Z.to_nat offset) buf ++ copy (skipn (Z.to_nat offset) buf) p in
  match h with
  | None => Fault
  | Some h0 =>
      '(h1, e) <- Write h0 buf ;;
      match e with
      | Some e1 =>
          Val (s, Some (Reset h1),
               Some (WrapTraceableErrorf (Some (HashError e1))
                       "failed to write pre-pad + data into DRBG hash" []))
      | None =>
          if rate s =? 0 then Fault else
          let nPad := rate s - Z.rem (len buf) (rate s) in
          if nPad <? 0 then Fault else
          '(h2, e) <- Write h1 (zeros nPad) ;;
          match e with
          | Some e2 =>
              Val (s, Some (Reset h2),
                   Some (WrapTraceableErrorf (Some (HashError e2))
                           "failed to write post-pad into DRBG hash" []))
          | None => Val (set_nw s (wrap_int (nw s + 1)), Some h2, None)
          end
      end
  end.

(** The result of [Generate]: the engine, the contents of the caller's
    buffer [out] and the error. *)
Definition GenerateResult : Type := (ShakePRNG H * list byte * option (error E))%type.

(** [s.Destroy(); return WrapTraceableErrorf(err, ...)]. *)
Definition destroyAndReturn {A : Type} (s : ShakePRNG H) (out : list byte)
  (e : error E) (format : string) : fault (step GenerateResult A) :=
  s' <- Destroy s ;;
  Val (Return (s', out, Some (WrapTraceableErrorf (Some e) format []))).

(** [Generate], the checks before anything is written. *)
Definition Generate_validate (s : ShakePRNG H) (out additionalIn : list byte)
  : fault (step GenerateResult unit) :=
  if NeedReseed s then
    Val (Return (s, out,
           Some (WrapTraceableErrorf (Some ErrDRBGReseed)
                   "exceeding reseed limit: reseed before generating PRNG" [])))
  else
  let lo := len out in
  let li := len additionalIn in
  if lo >? MaxInputLength then
    Val (Return (s, out,
           Some (WrapTraceableErrorf None
                   "output length (%d) too long: needs at most %d bytes"
                   [lo; MaxInputLength])))
  else if lo =? 0 then
    Val (Return (s, out, Some (WrapTraceableErrorf None "empty output specified" [])))
  else if li >? MaxInputLength then
    Val (Return (s, out,
           Some (WrapTraceableErrorf None
                   "additional input length (%d) too long: needs at most %d bytes"
                   [li; MaxInputLength])))
  else Val (Next tt).

(** [Generate], from the write of [additionalIn] to [copy(out, buf)]: the
    locals handed on are the engine, the clone [dup], the scratch buffer
    [buf] and the contents of [out]. *)
Definition Generate_squeeze (s : ShakePRNG H) (out additionalIn : list byte)
  : fault (step GenerateResult (ShakePRNG H * H * list byte * list byte)) :=
  let lo := len out in
  '(s, h, e) <- writeWithPad s (c s) additionalIn (getStartFrom s additionalIn) ;;
  let s := set_c s h in
  match e with
  | Some e1 =>
      destroyAndReturn s out e1 "failed to write additional input into DRBG hash"
  | None =>
      match c s with
      | None => Fault
      | Some h0 =>
          let dup := Clone h0 in
          if rate s =? 0 then Fault else
          let n := (Z.quot lo (rate s) + 1) * rate s - 1 in
          if n <? 0 then Fault else
          let buf := zeros n in
          '(h1, data, e) <- Read h0 n ;;
          let buf := copy buf data in
          let s := set_c s (Some h1) in
          match e with
          | Some e2 =>
              destroyAndReturn s out (HashError e2)
                "failed to generate PRNG from DRBG hash"
          | None => Val (Next (s, dup, buf, copy out buf))
          end
      end
  end.

(** The loop [for ; nq > 0; nq-- { dup.Write(cBuf) }]; it yields the clone,
    the value of [nq] when the loop is left and the error of the write that
    left it early. *)
Fixpoint Generate_replay_loop (fuel : nat) (dup : H) (cBuf : list byte) (nq : Z)
  : fault (H * Z * option E) :=
  match fuel with
  | O => Val (dup, nq, None)
  | S f =>
      if nq >? 0 then
        '(dup1, e) <- Write dup cBuf ;;
        match e with
        | Some e1 => Val (dup1, nq, Some e1)
        | None => Generate_replay_loop f dup1 cBuf (nq - 1)
        end
      else Val (dup, nq, None)
  end.

(** [Generate], the simulated read on the clone: the 10*01 pad, then one
    block of zeros per [s.rate] bytes read. The locals handed on are the
    clone and [nq]. *)
Definition Generate_replay (s : ShakePRNG H) (dup : H) (buf out : list byte)
  : fault (step GenerateResult (H * Z)) :=
  '(dup, e) <- Write dup (gen10x01Pad (rate s)) ;;
  match e with
  | Some e1 =>
      destroyAndReturn s out (HashError e1) "failed to write 10*01 pad into DRBG hash"
  | None =>
      let nr := len buf in
      if rate s =? 0 then Fault else
      let nq := Z.quot nr (rate s) in
      if rate s <? 0 then Fault else
      let cBuf := zeros (rate s) in
      '(dup, nq, e) <- Generate_replay_loop (Z.to_nat nq) dup cBuf nq ;;
      match e with
      | Some e2 =>
          destroyAndReturn s out (HashError e2) "failed to write 0 pad into DRBG hash"
      | None => Val (Next (dup, nq))
      end
  end.

(** [Generate], the choice of the bytes to remix: [start], [offset] and
    [b := buf[offset : offset+nClear]]. *)
Definition Generate_window (s : ShakePRNG H) (buf : list byte) (nq : Z)
  : fault (Z * Z * list byte) :=
  if rate s - nClear - 1 =? 0 then Fault else
  let start := Z.rem (getStartFrom s buf) (rate s - nClear - 1) in
  let offset := nq * rate s + start in
  b <- slice buf offset (offset + nClear) ;;
  Val (start, offset, b).

(** [Generate], the write of the mask into the clone and the exchange of the
    contexts. *)
Definition Generate_remix (s : ShakePRNG H) (dup : H) (out : list byte)
  (start : Z) (b : list byte) : fault (step GenerateResult GenerateResult) :=
  let b := createMask b in
  '(s, d, e) <- writeWithPad s (Some dup) b (to_byte start) ;;
  match e with
  | Some e1 => destroyAndReturn s out e1 "failed to write masks into DRBG hash"
  | None =>
      match c s with
      | None => Fault
      | Some _ =>
          let s := set_c s d in
          let s := set_counter s (wrap_int (counter s + 1)) in
          Val (Next (s, out, None))
      end
  end.

(** [Generate] fills [out] with pseudo random bytes. *)
Definition Generate (s : ShakePRNG H) (out additionalIn : list byte)
  : fault GenerateResult :=
  finish
    (andThen (Generate_validate s out additionalIn) (fun _ =>
     andThen (Generate_squeeze s out additionalIn) (fun '(s, dup, buf, out) =>
     andThen (Generate_replay s dup buf out) (fun '(dup, nq) =>
     '(start, offset, b) <- Generate_window s buf nq ;;
     Generate_remix s dup out start b)))).

(** [Reseed] reseeds the DRBG with [seed]. *)
Definition Reseed (s : ShakePRNG H) (seed : list byte)
  : fault (ShakePRNG H * option (error E)) :=
  let minLen := Z.quot (seedLen s) 2 in
  let l := len seed in
  if l <? minLen then
    Val (s, Some (WrapTraceableErrorf None
                    "seed length (%d) too short: needs at least %d bytes"
                    [l; minLen]))
  else if l >? MaxInputLength then
    Val (s, Some (WrapTraceableErrorf None
                    "seed length (%d) too long: needs at most %d bytes"
                    [l; MaxInputLength]))
  else
    '(s, h, e) <- writeWithPad s (c s) seed (getStartFrom s seed) ;;
    let s := set_c s h in
    match e with
    | Some e1 =>
        s' <- Destroy s ;;
        Val (s', Some (WrapTraceableErrorf (Some e1)
                         "failed to write seed into DRBG hash" []))
    | None => Val (set_counter s 0, None)
    end.

(** [Reset] resets the states of the DRBG and starts it with [seed]. *)
Definition PRNG_Reset (s : ShakePRNG H) (seed : list byte)
  : fault (ShakePRNG H * option (error E)) :=
  match c s with
  | None => Fault
  | Some h =>
      let s := set_c s (Some (Reset h)) in
      let s := set_nw s 0 in
      Reseed s seed
  end.

(** [NewShakeDRBG] returns a new DRBG with [seed], or [nil] and an error. *)
Definition NewShakeDRBG `{HashNew : ShakeNew H} (bits : Z) (seed : list byte)
  : fault (option (ShakePRNG H) * option (error E)) :=
  let drbg : ShakePRNG H := mkShakePRNG None 0 0 0 0 in
  let init (drbg : ShakePRNG H) :=
    '(drbg, e) <- PRNG_Reset drbg seed ;;
    match e with
    | Some e1 =>
        Val (None, Some (WrapTraceableErrorf (Some e1)
                           "failed to initialize the SHAKE%d DRBG" [bits]))
    | None => Val (Some drbg, None)
    end in
  if bits =? 128 then
    init (mkShakePRNG (Some NewShake128) rate128 RecommendedKMAC128KeyTagSize
            (counter drbg) (nw drbg))
  else if bits =? 256 then
    init (mkShakePRNG (Some NewShake256) rate256 RecommendedKMAC256KeyTagSize
            (counter drbg) (nw drbg))
  else
    Val (None, Some (WrapTraceableErrorf None
                       "unsupported size (%d) for SHAKE DRBG" [bits])).

End Engine.

(** ** The sponge of shake.go

    [xorIn], [copyOut], [NewShake128], [NewShake256], [newCShake] and the
    methods of [cshakeState] are in shake.go. The type [state] they work on,
    its methods and the permutation are not; they are modelled below. *)

Module Sponge.

(** [binary.LittleEndian.Uint64]: the first eight bytes, least significant
    first. *)
Definition Uint64_le (b : list byte) : Z :=
  fold_right (fun x acc => x + 256 * acc) 0 (firstn 8 b).

(** [binary.LittleEndian.PutUint64]. *)
Definition PutUint64_le (v : Z) : list byte :=
  map (fun k => to_byte (Z.shiftr v (8 * Z.of_nat k))) (seq 0 8).

Fixpoint xorIn_loop (n : nat) (a : list Z) (buf : list byte) : list Z :=
  match n, a with
  | S m, x :: a' => Z.lxor x (Uint64_le buf) :: xorIn_loop m a' (skipn 8 buf)
  | _, _ => a
  end.

(** [xorIn] xors [len(buf)/8] little-endian words of [buf] into the lanes;
    a word beyond the 25 lanes is an index out of range. *)
Definition xorIn (a : list Z) (buf : list byte) : fault (list Z) :=
  let n := Z.quot (len buf) 8 in
  if n >? 25 then Fault else Val (xorIn_loop (Z.to_nat n) a buf).

Fixpoint copyOut_loop (fuel : nat) (a : list Z) (b : list byte) : fault (list byte) :=
  match fuel with
  | O => Val b
  | S f =>
      if 8 <=? len b then
        match a with
        | [] => Fault
        | x :: a' =>
            rest <- copyOut_loop f a' (skipn 8 b) ;;
            Val (PutUint64_le x ++ rest)
        end
      else Val b
  end.

(** [copyOut] writes the lanes into [b], eight bytes at a time, while eight
    bytes are left; it yields the new contents of [b]. *)
Definition copyOut (a : list Z) (b : list byte) : fault (list byte) :=
  copyOut_loop (length b) a b.

(** Modelled from the spec: the permutation [keccakF1600] is not under src/;
    the spec names it the standardized 1600-bit permutation of FIPS 202,
    which is what follows: 24 rounds of theta, rho, pi, chi and iota on 25
    lanes of 64 bits, lane [(x, y)] at index [x + 5*y]. *)
Definition rotl64 (x n : Z) : Z :=
  Z.lor (to_uint64 (Z.shiftl x n)) (Z.shiftr x (64 - n)).

Definition lane (a : list Z) (i : nat) : Z := nth i a 0.

Definition keccak_rotc : list Z :=
  [ 0; 1; 62; 28; 27;
    36; 44; 6; 55; 20;
    3; 10; 43; 25; 39;
    41; 45; 15; 21; 8;
    18; 2; 61; 56; 14 ].

Definition keccak_rc : list Z :=
  [ 0x0000000000000001; 0x0000000000008082; 0x800000000000808A;
    0x8000000080008000; 0x000000000000808B; 0x0000000080000001;
    0x8000000080008081; 0x8000000000008009; 0x000000000000008A;
    0x0000000000000088; 0x0000000080008009; 0x000000008000000A;
    0x000000008000808B; 0x800000000000008B; 0x8000000000008089;
    0x8000000000008003; 0x8000000000008002; 0x8000000000000080;
    0x000000000000800A; 0x800000008000000A; 0x8000000080008081;
    0x8000000000008080; 0x0000000080000001; 0x8000000080008008 ].

Definition keccak_theta (a : list Z) : list Z :=
  let C := map (fun x =>
                  fold_left Z.lxor
                    (map (fun y => lane a (x + 5 * y)) (seq 0 5)) 0)
               (seq 0 5) in
  let D := map (fun x =>
                  Z.lxor (lane C ((x + 4) mod 5))
                         (rotl64 (lane C ((x + 1) mod 5)) 1))
               (seq 0 5) in
  map (fun i => Z.lxor (lane a i) (lane D (i mod 5))) (seq 0 25).

Definition keccak_rho_pi (a : list Z) : list Z :=
  map (fun i =>
         let X := (i mod 5)%nat in
         let Y := (i / 5)%nat in
         let src := ((X + 3 * Y) mod 5 + 5 * X)%nat in
         rotl64 (lane a src) (nth src keccak_rotc 0))
      (seq 0 25).

Definition keccak_chi (a : list Z) : list Z :=
  map (fun i =>
         let x := (i mod 5)%nat in
         let y := (i / 5)%nat in
         Z.lxor (lane a i)
           (Z.land (Z.lxor (lane a ((x + 1) mod 5 + 5 * y)) (2 ^ 64 - 1))
                   (lane a ((x + 2) mod 5 + 5 * y))))
      (seq 0 25).

Definition keccak_iota (rc : Z) (a : list Z) : list Z :=
  match a with
  | [] => []
  | x :: t => Z.lxor x rc :: t
  end.

Definition keccak_round (a : list Z) (rc : Z) : list Z :=
  keccak_iota rc (keccak_chi (keccak_rho_pi (keccak_theta a))).

Definition keccakF1600 (a : list Z) : list Z :=
  fold_left keccak_round keccak_rc a.

Inductive spongeDirection : Type :=
| spongeAbsorbing
| spongeSqueezing.

(** Modelled from the spec: the type [state] is not under src/. Per the spec
    (Sponge State) it holds the lane array, the rate, the domain-separator
    byte, the cursor and the direction. [a] is the lane array read by
    [xorIn] and [copyOut]; [buf] carries the cursor: the input bytes not yet
    xored into the lanes while absorbing, the output bytes of the current
    block not yet read while squeezing. *)
Record state : Type := mkState {
  a : list Z;
  buf : list byte;
  rate : Z;
  dsbyte : byte;
  direction : spongeDirection
}.

(** [&state{rate: r, dsbyte: d}]: the other fields have their zero value. *)
Definition newState (r : Z) (d : byte) : state :=
  mkState (repeat 0 25) [] r d spongeAbsorbing.

(** Modelled from the spec: [permute], the step both directions share:
    apply the permutation to the lanes. *)
Definition permute (lanes : list Z) : list Z := keccakF1600 lanes.

(** The absorb loop: while a full block of [r] bytes is there, xor it into
    the lanes and permute. *)
Fixpoint absorb (fuel : nat) (r : Z) (lanes : list Z) (data : list byte)
  : fault (list Z * list byte) :=
  match fuel with
  | O => Val (lanes, data)
  | S f =>
      if r <=? len data then
        lanes1 <- xorIn lanes (firstn (Z.to_nat r) data) ;;
        absorb f r (permute lanes1) (skipn (Z.to_nat r) data)
      else Val (lanes, data)
  end.

(** Modelled from the spec: [Write] (absorb) is not under src/. It xors the
    data into the lanes, eight bytes at a time, permuting whenever a full
    block of [rate] bytes has accumulated; the interface documents that it
    panics when input is written after output has been read. It returns no
    error. A rate that is not positive is a fault. *)
Definition state_Write (d : state) (p : list byte)
  : fault (state * option Empty_set) :=
  match direction d with
  | spongeSqueezing => Fault
  | spongeAbsorbing =>
      if rate d <=? 0 then Fault else
      let data := buf d ++ p in
      '(lanes, rest) <- absorb (length data) (rate d) (a d) data ;;
      Val (mkState lanes rest (rate d) (dsbyte d) spongeAbsorbing, None)
  end.

(** Modelled from the spec: the finalization on the first read: xor in the
    domain-separator byte and the 10*01 padding up to the rate, permute once
    and copy the first block of output out. *)
Definition padAndPermute (d : state) : fault state :=
  if rate d <=? 0 then Fault else
  let block := buf d ++ [dsbyte d] in
  let block := block ++ zeros (rate d - len block) in
  let last := Z.to_nat (rate d - 1) in
  let block := set_nth block last (Z.lxor (nth last block 0) 0x80) in
  lanes <- xorIn (a d) block ;;
  let lanes := permute lanes in
  out <- copyOut lanes (zeros (rate d)) ;;
  Val (mkState lanes out (rate d) (dsbyte d) spongeSqueezing).

(** The squeeze loop: copy what is left of the current block, and permute
    and copy a new block out once the current one is used up. *)
Fixpoint squeeze (fuel : nat) (r : Z) (lanes : list Z) (cur : list byte) (n : Z)
  : fault (list Z * list byte * list byte) :=
  match fuel with
  | O => Val (lanes, cur, [])
  | S f =>
      if n <=? 0 then Val (lanes, cur, []) else
      let k := Z.to_nat (Z.min n (len cur)) in
      let out := firstn k cur in
      let cur := skipn k cur in
      '(lanes, cur) <-
        (if len cur =? 0 then
           let lanes := permute lanes in
           blk <- copyOut lanes (zeros r) ;;
           Val (lanes, blk)
         else Val (lanes, cur)) ;;
      '(lanes, cur, rest) <- squeeze f r lanes cur (n - Z.of_nat k) ;;
      Val (lanes, cur, out ++ rest)
  end.

(** Modelled from the spec: [Read] (squeeze) is not under src/. On the first
    call it finalizes; then it copies lane bytes out per block of [rate]
    bytes. It returns no error. *)
Definition state_Read (d : state) (n : Z)
  : fault (state * list byte * option Empty_set) :=
  d <- match direction d with
       | spongeAbsorbing => padAndPermute d
       | spongeSqueezing => Val d
       end ;;
  '(lanes, cur, out) <- squeeze (Z.to_nat n) (rate d) (a d) (buf d) n ;;
  Val (mkState lanes cur (rate d) (dsbyte d) spongeSqueezing, out, None).

(** Modelled from the spec: [Reset] zeroes the lane array, the cursor and
    the direction. *)
Definition state_Reset (d : state) : state :=
  mkState (repeat 0 25) [] (rate d) (dsbyte d) spongeAbsorbing.

(** Modelled from the spec: [clone] returns an independent copy; a value of
    the embedding is its own copy. *)
Definition clone (d : state) : state := d.

(** [NewShake128] and [NewShake256] of shake.go. *)
Definition NewShake128 : state := newState rate128 dsbyteShake.
Definition NewShake256 : state := newState rate256 dsbyteShake.

(** The cSHAKE specific context: the sponge and the encoded [N] and [S]. *)
Record cshakeState : Type := mkCshakeState {
  cs_state : state;
  initBlock : list byte
}.

(** [newCShake]: the result of [c.Write] is dropped, so an error of the
    write would go unnoticed; a panic does not. *)
Definition newCShake (N S : list byte) (r : Z) (d : byte) : fault cshakeState :=
  let st := newState r d in
  let ib := [] in
  let ib := ib ++ leftEncode (to_uint64 (len N * 8)) in
  let ib := ib ++ N in
  let ib := ib ++ leftEncode (to_uint64 (len S * 8)) in
  let ib := ib ++ S in
  pad <- bytepad ib (rate st) ;;
  '(st, _) <- state_Write st pad ;;
  Val (mkCshakeState st ib).

(** [Write] and [Read] of a [cshakeState] are those of the embedded
    [*state]. *)
Definition cshake_Write (cs : cshakeState) (p : list byte)
  : fault (cshakeState * option Empty_set) :=
  '(st, e) <- state_Write (cs_state cs) p ;;
  Val (mkCshakeState st (initBlock cs), e).

Definition cshake_Read (cs : cshakeState) (n : Z)
  : fault (cshakeState * list byte * option Empty_set) :=
  '(st, out, e) <- state_Read (cs_state cs) n ;;
  Val (mkCshakeState st (initBlock cs), out, e).

(** [Reset] resets the hash to its initial state. *)
Definition cshake_Reset (cs : cshakeState) : fault cshakeState :=
  let st := state_Reset (cs_state cs) in
  pad <- bytepad (initBlock cs) (rate st) ;;
  '(st, _) <- state_Write st pad ;;
  Val (mkCshakeState st (initBlock cs)).

(** [Clone] returns a copy of a cSHAKE context within its current state. *)
Definition cshake_Clone (cs : cshakeState) : cshakeState :=
  let b := copy (zeros (len (initBlock cs))) (initBlock cs) in
  mkCshakeState (clone (cs_state cs)) b.

End Sponge.

(** The sponge [state] provides the capability the engine needs. *)
#[export] Instance state_ShakeHash : ShakeHash Sponge.state Empty_set := {
  Write := Sponge.state_Write;
  Read := Sponge.state_Read;
  Clone := Sponge.clone;
  Reset := Sponge.state_Reset
}.

#[export] Instance state_ShakeNew : ShakeNew Sponge.state := {
  NewShake128 := Sponge.NewShake128;
  NewShake256 := Sponge.NewShake256
}.

(** ** Running a context through a sequence of operations *)

Inductive hashOp : Type :=
| OpWrite (p : list byte)
| OpRead (n : Z).

(** One operation on a cSHAKE context: the context after it and what a read
    put into its buffer of [n] bytes. *)
Definition cshake_op (cs : Sponge.cshakeState) (op : hashOp)
  : fault (Sponge.cshakeState * list byte) :=
  match op with
  | OpWrite p =>
      '(cs1, _) <- Sponge.cshake_Write cs p ;;
      Val (cs1, [])
  | OpRead n =>
      '(cs1, out, _) <- Sponge.cshake_Read cs n ;;
      Val (cs1, copy (zeros n) out)
  end.

(** The same on a plain SHAKE context. *)
Definition shake_op (d : Sponge.state) (op : hashOp)
  : fault (Sponge.state * list byte) :=
  match op with
  | OpWrite p =>
      '(d1, _) <- Sponge.state_Write d p ;;
      Val (d1, [])
  | OpRead n =>
      '(d1, out, _) <- Sponge.state_Read d n ;;
      Val (d1, copy (zeros n) out)
  end.

(** The outputs of the reads of a sequence of absorb and squeeze operations,
    or [Fault] when one of the operations panics. *)
Fixpoint runOps {X : Type} (op1 : X -> hashOp -> fault (X * list byte))
  (x : X) (ops : list hashOp) : fault (list (list byte)) :=
  match ops with
  | [] => Val []
  | op :: rest =>
      '(x1, out) <- op1 x op ;;
      outs <- runOps op1 x1 rest ;;
      Val (match op with
           | OpWrite _ => outs
           | OpRead _ => out :: outs
           end)
  end.

(** C2 as worded, for a cSHAKE context built with the domain byte [d]: at
    both rates, whatever the operations, the context built from empty [N]
    and [S] gives the outputs of a plain SHAKE context of that rate. *)
Definition cshake_empty_is_shake (d : byte) : Prop :=
  forall r, r = rate128 \/ r = rate256 ->
  forall ops,
  exists cs,
    Sponge.newCShake [] [] r d = Val cs /\
    runOps cshake_op cs ops = runOps shake_op (Sponge.newState r dsbyteShake) ops.

(** The block [newCShake] absorbs for empty [N] and [S] at a rate [r] from
    7 to 255: [bytepad] of [01 00 01 00], that is [01 r 01 00 01 00] and
    zeros up to [r] bytes. *)
Definition emptyFrame (r : Z) : list byte :=
  [1; r; 1; 0; 1; 0] ++ zeros (r - 6).

(** ** Sequences of calls *)

Section Sequences.

Context {H E : Type} `{HashOps : ShakeHash H E}.

(** Successive writes into a context, stopping at the first error. *)
Fixpoint WriteAll (h : H) (chunks : list (list byte)) : fault (H * option E) :=
  match chunks with
  | [] => Val (h, None)
  | p :: rest =>
      '(h1, e) <- Write h p ;;
      match e with
      | Some e1 => Val (h1, Some e1)
      | None => WriteAll h1 rest
      end
  end.

(** Successive [Generate] calls on one engine: each request is the caller's
    buffer [out] with the contents it has before the call and the
    additional input; each response is the contents of the buffer after the
    call and the error. *)
Fixpoint GenerateMany (s : ShakePRNG H) (reqs : list (list byte * list byte))
  : fault (list (list byte * option (error E))) :=
  match reqs with
  | [] => Val []
  | (out, additionalIn) :: rest =>
      '(s1, out1, e) <- Generate s out additionalIn ;;
      resps <- GenerateMany s1 rest ;;
      Val ((out1, e) :: resps)
  end.

End Sequences.

(** Two requests agree when the buffers have the same length and the
    additional inputs are equal. *)
Definition sameRequest (r1 r2 : list byte * list byte) : Prop :=
  length (fst r1) = length (fst r2) /\ snd r1 = snd r2.

(** Two responses agree when the errors are equal and, for a call that
    succeeded, the output bytes are equal. *)
Definition sameResponse {E : Type} (r1 r2 : list byte * option (error E)) : Prop :=
  snd r1 = snd r2 /\ (snd r1 = None -> fst r1 = fst r2).

(** The length of the scratch buffer as the specification words it:
    [(ceil(lo / r) + 1) * r - 1]. *)
Definition spec_scratchLen (lo r : Z) : Z :=
  ((lo + r - 1) / r + 1) * r - 1.

(** The length of the scratch buffer as [Generate] computes it:
    [((lo/s.rate)+1)*s.rate - 1], with Go's integer division. *)
Definition scratchLen (lo r : Z) : Z := (Z.quot lo r + 1) * r - 1.

(** [&ShakePRNG] after [Destroy]: no context and every scalar field zero. *)
Definition destroyed {H : Type} : ShakePRNG H := mkShakePRNG None 0 0 0 0.

(** ** The entry point of main.go *)

(** [[]byte(s)] for a string of ASCII characters. *)
Definition bytes_of_string (s : string) : list byte :=
  map (fun ch => Z.of_N (Ascii.N_of_ascii ch)) (list_ascii_of_string s).

Definition main_seed : list byte :=
  bytes_of_string "test this out! you need to have enough inputs in the seed!".

Definition main_additionalIn : list byte := bytes_of_string "test me!".

(** [buf := make([]byte, 150)]. *)
Definition main_buf : list byte := zeros 150.

(** The requests of the first two [Generate] calls of main.go, on a buffer
    of zeros and on a buffer of [0xff] bytes. *)
Definition main_requests : list (list byte * list byte) :=
  [(zeros 150, main_additionalIn); (zeros 150, main_additionalIn)].

Definition main_requests_ff : list (list byte * list byte) :=
  [(repeat 255 150, main_additionalIn); (repeat 255 150, main_additionalIn)].

(** An engine of strength 256 on a fresh sponge, with the given counters. *)
Definition engine256 (counter nw : Z) : ShakePRNG Sponge.state :=
  mkShakePRNG (Some Sponge.NewShake256) rate256 RecommendedKMAC256KeyTagSize
    counter nw.

(** [NewShakeDRBG(256, seed)] on the sponge of shake.go. *)
Definition main_drbg : fault (option (ShakePRNG Sponge.state) * option (error Empty_set)) :=
  NewShakeDRBG 256 main_seed.

(** ** Comparing two calls *)

Section Agreement.

Context {H E : Type}.

(** Two results of [Generate] agree when both calls fault, or both return
    the same engine and the same error and, when there is no error, the
    same output. *)
Definition agree (r1 r2 : fault (@GenerateResult H E)) : Prop :=
  match r1, r2 with
  | Fault, Fault => True
  | Val (s1, o1, e1), Val (s2, o2, e2) =>
      s1 = s2 /\ e1 = e2 /\ (e1 = None -> o1 = o2)
  | _, _ => False
  end.

(** A stage that uses [out] only to return it with an error. *)
Definition stage_agree {A : Type}
  (m1 m2 : fault (step (@GenerateResult H E) A)) (o1 o2 : list byte) : Prop :=
  (m1 = Fault /\ m2 = Fault) \/
  (exists s' e, m1 = Val (Return (s', o1, Some e)) /\
                m2 = Val (Return (s', o2, Some e))) \/
  (exists a, m1 = Val (Next a) /\ m2 = Val (Next a)).

End Agreement.

(** ** Checks on runs

    Boolean readings of an outcome, to be evaluated on a run. *)

(** The call returned without an error. *)
Definition returnsOk {A E : Type} (m : fault (A * option E)) : bool :=
  match m with
  | Val (_, None) => true
  | _ => false
  end.

(** The stage handed its locals on. *)
Definition isNext {R A : Type} (m : fault (step R A)) : bool :=
  match m with
  | Val (Next _) => true
  | _ => false
  end.

(** The call did not fault. *)
Definition isVal {A : Type} (m : fault A) : bool :=
  match m with
  | Val _ => true
  | Fault => false
  end.

(** [NewShakeDRBG] returned an engine on which [k] holds. *)
Definition withEngine {H E : Type}
  (m : fault (option (ShakePRNG H) * option (error E)))
  (k : ShakePRNG H -> bool) : bool :=
  match m with
  | Val (Some s, None) => k s
  | _ => false
  end.

Fixpoint list_eqb {A : Type} (eqb : A -> A -> bool) (a b : list A) : bool :=
  match a, b with
  | [], [] => true
  | x :: a', y :: b' => eqb x y && list_eqb eqb a' b'
  | _, _ => false
  end.

(** Equality of two lists of outputs. *)
Definition sameOutputs (x y : fault (list (list byte))) : bool :=
  match x, y with
  | Fault, Fault => true
  | Val a, Val b => list_eqb (list_eqb Z.eqb) a b
  | _, _ => false
  end.

(** The lanes and the cursor after the block of [emptyFrame r] has been
    absorbed into a fresh sponge of rate [r]. *)
Definition frameLanes (r : Z) : fault (list Z * list byte) :=
  Sponge.absorb (length ([] ++ emptyFrame r)) r (repeat 0 25) ([] ++ emptyFrame r).

(** ** Well-formed sponges and engines *)

(** A sponge that can absorb: it has not been read, its rate is that of a
    1600-bit state, it has its 25 lanes and its cursor is within the
    block. *)
Definition absorbing (d : Sponge.state) : Prop :=
  Sponge.direction d = Sponge.spongeAbsorbing /\
  0 < Sponge.rate d <= 200 /\
  length (Sponge.a d) = 25%nat /\
  len (Sponge.buf d) < Sponge.rate d.

(** An engine on the sponge of shake.go that has not been destroyed: its
    context can absorb and has the rate of the engine. *)
Definition live (s : ShakePRNG Sponge.state) : Prop :=
  26 < rate s /\
  exists d, c s = Some d /\ absorbing d /\ Sponge.rate d = rate s.

(** The number of times [Sponge.absorb] applies the permutation: once per
    turn of its loop. *)
Fixpoint absorbCalls (fuel : nat) (r : Z) (data : list byte) : nat :=
  match fuel with
  | O => O
  | S f =>
      if r <=? len data
      then S (absorbCalls f r (skipn (Z.to_nat r) data))
      else O
  end.

(** The number of times a [Write] of [p] into the sponge [d] applies the
    permutation. *)
Definition permuteCalls (d : Sponge.state) (p : list byte) : nat :=
  absorbCalls (length (Sponge.buf d ++ p)) (Sponge.rate d) (Sponge.buf d ++ p).

(** ** The context after a run *)

(** The context a sequence of absorb and squeeze operations leaves, or
    [Fault] when one of the operations panics. *)
Fixpoint runState {X : Type} (op1 : X -> hashOp -> fault (X * list byte))
  (x : X) (ops : list hashOp) : fault X :=
  match ops with
  | [] => Val x
  | op :: rest =>
      '(x1, _) <- op1 x op ;;
      runState op1 x1 rest
  end.

(** ** Calls on an engine *)

(** A call of one of the three methods that work on a created engine. *)
Inductive call : Type :=
| CallGenerate (out additionalIn : list byte)
| CallReseed (seed : list byte)
| CallReset (seed : list byte).

Section Calls.

Context {H E : Type} `{HashOps : ShakeHash H E}.

(** One call: the engine after it and the error it returned. *)
Definition doCall (s : ShakePRNG H) (cl : call)
  : fault (ShakePRNG H * option (error E)) :=
  match cl with
  | CallGenerate out additionalIn =>
      '(s1, _, e) <- Generate s out additionalIn ;;
      Val (s1, e)
  | CallReseed seed => Reseed s seed
  | CallReset seed => PRNG_Reset s seed
  end.

(** Successive calls on one engine, whatever they return: the engine after
    the last call and the errors in order. *)
Fixpoint runCalls (s : ShakePRNG H) (calls : list call)
  : fault (ShakePRNG H * list (option (error E))) :=
  match calls with
  | [] => Val (s, [])
  | cl :: rest =>
      '(s1, e) <- doCall s cl ;;
      '(s2, errs) <- runCalls s1 rest ;;
      Val (s2, e :: errs)
  end.

End Calls.

(** A sponge at a block boundary: it can absorb, its cursor is at the start
    of a block and its domain byte is that of SHAKE. *)
Definition atBoundary (d : Sponge.state) : Prop :=
  absorbing d /\ Sponge.buf d = [] /\ Sponge.dsbyte d = dsbyteShake.

(** An engine on the sponge whose context is at a block boundary. *)
Definition aligned (s : ShakePRNG Sponge.state) : Prop :=
  26 < rate s /\
  exists d, c s = Some d /\ atBoundary d /\ Sponge.rate d = rate s.

(** An error [Generate], [Reseed] and [Reset] return before they touch the
    hash: a validation error or the request to reseed. *)
Definition IsEarlyError {E : Type} (err : error E) : bool :=
  IsValidationError err || IsErrDRBGReseed err.

(** ** The program of main.go *)

(** The lines [main] prints itself. *)
Inductive printed : Type :=
| CreateFailed (err : error Empty_set)
| GenerateFailed (err : error Empty_set)
| PRNG (i : Z) (buf : list byte).

(** The loop [for i := 0; i < 3; i++] of [main], with [n] turns left; [buf]
    is the one buffer every call fills. *)
Fixpoint main_loop (n : nat) (i : Z) (drbg : ShakePRNG Sponge.state)
  (buf : list byte) : fault (list printed) :=
  match n with
  | O => Val []
  | S m =>
      '(drbg, buf, e) <- Generate drbg buf main_additionalIn ;;
      match e with
      | Some e1 => Val [GenerateFailed e1]
      | None =>
          rest <- main_loop m (i + 1) drbg buf ;;
          Val (PRNG i buf :: rest)
      end
  end.

Definition main : fault (list printed) :=
  '(drbg, e) <- NewShakeDRBG 256 main_seed ;;
  match e with
  | Some e1 => Val [CreateFailed e1]
  | None =>
      match drbg with
      | None => Fault
      | Some drbg => main_loop 3 0 drbg main_buf
      end
  end.

(** * Properties *)

(** ** Bytes and buffers *)

Lemma len_nonneg {A : Type} (l : list A) : 0 <= len l.
Proof. unfold len; lia. Qed.

Lemma len_app {A : Type} (l1 l2 : list A) : len (l1 ++ l2) = len l1 + len l2.
Proof. unfold len; rewrite length_app; lia. Qed.

Lemma to_byte_range (x : Z) : is_byte (to_byte x).
Proof. unfold is_byte, to_byte; apply Z.mod_pos_bound; lia. Qed.

Lemma to_byte_id (x : Z) : is_byte x -> to_byte x = x.
Proof. unfold is_byte, to_byte; intros; apply Z.mod_small; lia. Qed.

(** ** leftEncode *)

(** One digit of the base 256 expansion of [v]. *)
Lemma shiftr_digit (v k : Z) :
  0 <= k ->
  Z.shiftr v k = 256 * Z.shiftr v (k + 8) + to_byte (Z.shiftr v k).
Proof.
  intros Hk. unfold to_byte.
  rewrite !Z.shiftr_div_pow2 by lia.
  rewrite Z.pow_add_r by lia.
  rewrite <- Z.div_div by lia.
  change (2 ^ 8) with 256.
  apply Z.div_mod; lia.
Qed.

Lemma leftEncode_zero : leftEncode 0 = [1; 0].
Proof. reflexivity. Qed.

Ltac leftEncode_leaf :=
  match goal with
  | |- context [skipn ?n ?l] =>
      let r := eval lazy in (skipn n l) in change (skipn n l) with r
  end;
  do 2 eexists;
  split; [reflexivity |];
  split; [reflexivity |];
  split; [lia |];
  split; [repeat constructor; unfold is_byte; lia |];
  split; [unfold be_decode; cbn [fold_left]; lia |];
  split; [lazy - [Z.lt Z.le]; lia | first [left; reflexivity | right; lazy - [Z.lt Z.le]; lia]].

(** The shape of [leftEncode v]: the count [n] of value bytes, the value
    bytes, and the bounds that make [n] the least count. *)
Lemma leftEncode_shape (v : Z) :
  0 <= v < 2 ^ 64 ->
  exists n vals,
    leftEncode v = n :: vals /\ len vals = n /\ 1 <= n <= 8 /\
    Forall is_byte vals /\ be_decode vals = v /\
    v < 256 ^ n /\ (n = 1 \/ 256 ^ (n - 1) <= v).
Proof.
  intros Hv.
  pose proof (shiftr_digit v 0 ltac:(lia)) as D0.
  pose proof (shiftr_digit v 8 ltac:(lia)) as D1.
  pose proof (shiftr_digit v 16 ltac:(lia)) as D2.
  pose proof (shiftr_digit v 24 ltac:(lia)) as D3.
  pose proof (shiftr_digit v 32 ltac:(lia)) as D4.
  pose proof (shiftr_digit v 40 ltac:(lia)) as D5.
  pose proof (shiftr_digit v 48 ltac:(lia)) as D6.
  pose proof (shiftr_digit v 56 ltac:(lia)) as D7.
  cbn [Z.add Pos.add Pos.succ Pos.add_carry] in *.
  assert (D8 : Z.shiftr v 64 = 0).
  { rewrite Z.shiftr_div_pow2 by lia. apply Z.div_small; lia. }
  rewrite Z.shiftr_0_r in D0.
  pose proof (to_byte_range v) as R0.
  pose proof (to_byte_range (Z.shiftr v 8)) as R1.
  pose proof (to_byte_range (Z.shiftr v 16)) as R2.
  pose proof (to_byte_range (Z.shiftr v 24)) as R3.
  pose proof (to_byte_range (Z.shiftr v 32)) as R4.
  pose proof (to_byte_range (Z.shiftr v 40)) as R5.
  pose proof (to_byte_range (Z.shiftr v 48)) as R6.
  pose proof (to_byte_range (Z.shiftr v 56)) as R7.
  unfold is_byte in R0, R1, R2, R3, R4, R5, R6, R7.
  unfold leftEncode, PutUint64_be.
  set (b0 := to_byte v) in *.
  set (b1 := to_byte (Z.shiftr v 8)) in *.
  set (b2 := to_byte (Z.shiftr v 16)) in *.
  set (b3 := to_byte (Z.shiftr v 24)) in *.
  set (b4 := to_byte (Z.shiftr v 32)) in *.
  set (b5 := to_byte (Z.shiftr v 40)) in *.
  set (b6 := to_byte (Z.shiftr v 48)) in *.
  set (b7 := to_byte (Z.shiftr v 56)) in *.
  clearbody b0 b1 b2 b3 b4 b5 b6 b7.
  set (d1 := Z.shiftr v 8) in *.
  set (d2 := Z.shiftr v 16) in *.
  set (d3 := Z.shiftr v 24) in *.
  set (d4 := Z.shiftr v 32) in *.
  set (d5 := Z.shiftr v 40) in *.
  set (d6 := Z.shiftr v 48) in *.
  set (d7 := Z.shiftr v 56) in *.
  set (d8 := Z.shiftr v 64) in *.
  clearbody d1 d2 d3 d4 d5 d6 d7 d8.
  replace (leftEncode_loop 8 [0; b7; b6; b5; b4; b3; b2; b1; b0] 1)
    with (if b7 =? 0 then if b6 =? 0 then if b5 =? 0 then if b4 =? 0 then
          if b3 =? 0 then if b2 =? 0 then if b1 =? 0 then 8
          else 7 else 6 else 5 else 4 else 3 else 2 else 1)
    by reflexivity.
  destruct (b7 =? 0) eqn:E7; [apply Z.eqb_eq in E7 | apply Z.eqb_neq in E7; leftEncode_leaf].
  destruct (b6 =? 0) eqn:E6; [apply Z.eqb_eq in E6 | apply Z.eqb_neq in E6; leftEncode_leaf].
  destruct (b5 =? 0) eqn:E5; [apply Z.eqb_eq in E5 | apply Z.eqb_neq in E5; leftEncode_leaf].
  destruct (b4 =? 0) eqn:E4; [apply Z.eqb_eq in E4 | apply Z.eqb_neq in E4; leftEncode_leaf].
  destruct (b3 =? 0) eqn:E3; [apply Z.eqb_eq in E3 | apply Z.eqb_neq in E3; leftEncode_leaf].
  destruct (b2 =? 0) eqn:E2; [apply Z.eqb_eq in E2 | apply Z.eqb_neq in E2; leftEncode_leaf].
  destruct (b1 =? 0) eqn:E1; [apply Z.eqb_eq in E1 | apply Z.eqb_neq in E1; leftEncode_leaf].
  leftEncode_leaf.
Qed.

(** The loop of [leftEncode] has left by itself within eight steps: more
    fuel gives the same index. *)
Lemma leftEncode_loop_fuel (f : nat) (b : list byte) (i : Z) :
  (Z.to_nat (8 - i) <= f)%nat ->
  leftEncode_loop f b i = leftEncode_loop (Z.to_nat (8 - i)) b i.
Proof.
  revert i. induction f as [|f IH]; intros i Hf.
  - replace (Z.to_nat (8 - i)) with 0%nat by lia. reflexivity.
  - destruct (Z.to_nat (8 - i)) as [|k] eqn:Ek.
    + cbn [leftEncode_loop].
      replace (i <? 8) with false by (symmetry; apply Z.ltb_ge; lia).
      reflexivity.
    + cbn [leftEncode_loop].
      destruct ((i <? 8) && (nth (Z.to_nat i) b 0 =? 0)); [|reflexivity].
      rewrite IH by lia.
      replace (Z.to_nat (8 - (i + 1))) with k by lia.
      reflexivity.
Qed.

(** C9. [leftEncode 0] is [[0x01; 0x00]]; for [v] below [2^64],
    [leftEncode v] is one length byte [n] followed by exactly [n] value
    bytes, at most nine bytes in all; reading the length byte and then the
    value bytes most significant first gives [v] back; and [n] is the least
    count of bytes that can hold [v]. *)
Theorem leftEncode_minimal_roundtrip (v : Z) (Hv : 0 <= v < 2 ^ 64) :
  leftEncode 0 = [1; 0] /\
  exists n vals,
    leftEncode v = n :: vals /\
    len vals = n /\
    1 <= n <= 8 /\
    len (leftEncode v) <= 9 /\
    Forall is_byte (leftEncode v) /\
    be_decode vals = v /\
    leftDecode (leftEncode v) = Some v /\
    v < 256 ^ n /\
    (forall m, 1 <= m -> v < 256 ^ m -> n <= m).
Proof.
  split; [exact leftEncode_zero |].
  destruct (leftEncode_shape v Hv)
    as (n & vals & Henc & Hlen & Hn & Hbytes & Hdec & Hub & Hlb).
  exists n, vals. rewrite Henc.
  repeat split; try lia; try assumption.
  - unfold len in *. cbn [length]. lia.
  - constructor; [unfold is_byte; lia | assumption].
  - unfold leftDecode. rewrite Hlen, Z.eqb_refl, Hdec. reflexivity.
  - intros m Hm Hvm.
    destruct Hlb as [-> | Hlb]; [lia |].
    destruct (Z_lt_le_dec m n) as [Hlt | Hge]; [exfalso | exact Hge].
    assert (256 ^ m <= 256 ^ (n - 1)) by (apply Z.pow_le_mono_r; lia).
    lia.
Qed.

Lemma leftEncode_minimal_roundtrip_witness :
  0 <= 0x1234 < 2 ^ 64 /\
  leftEncode 0x1234 = [2; 0x12; 0x34] /\
  leftDecode (leftEncode 0x1234) = Some 0x1234.
Proof.
  assert (Hv : 0 <= 0x1234 < 2 ^ 64) by (split; [lia | reflexivity]).
  split; [exact Hv |].
  split; [reflexivity |].
  destruct (leftEncode_minimal_roundtrip 0x1234 Hv)
    as (_ & n & vals & _ & _ & _ & _ & _ & _ & Hdec & _).
  exact Hdec.
Defined.

(** ** Buffers *)

Lemma len_zeros (n : Z) : 0 <= n -> len (zeros n) = n.
Proof. intros Hn. unfold len, zeros. rewrite repeat_length. lia. Qed.

Lemma zeros_app (m n : Z) : 0 <= m -> 0 <= n -> zeros (m + n) = zeros m ++ zeros n.
Proof.
  intros Hm Hn. unfold zeros.
  rewrite Z2Nat.inj_add by lia. apply repeat_app.
Qed.

Lemma copy_length (dst src : list byte) : length (copy dst src) = length dst.
Proof.
  unfold copy. rewrite length_app, length_firstn, length_skipn. lia.
Qed.

Lemma len_copy (dst src : list byte) : len (copy dst src) = len dst.
Proof. unfold len. now rewrite copy_length. Qed.

(** A copy from a source at least as long as the destination keeps nothing
    of the destination but its length. *)
Lemma copy_covered (dst src : list byte) :
  (length dst <= length src)%nat -> copy dst src = firstn (length dst) src.
Proof.
  intros Hle. unfold copy.
  rewrite skipn_all2 by exact Hle. apply app_nil_r.
Qed.

Lemma copy_exact (dst src : list byte) :
  length dst = length src -> copy dst src = src.
Proof.
  intros Heq. rewrite copy_covered by lia.
  rewrite Heq. apply firstn_all.
Qed.

(** The buffer [writeWithPad] builds: [offset] zero bytes, then [p]. *)
Lemma prepad_buffer (offset : Z) (p : list byte) :
  0 <= offset ->
  let buf := zeros (offset + len p) in
  firstn (Z.to_nat offset) buf ++ copy (skipn (Z.to_nat offset) buf) p
  = zeros offset ++ p.
Proof.
  intros Ho buf. subst buf.
  rewrite zeros_app by (auto using len_nonneg).
  replace (Z.to_nat offset) with (length (zeros offset))
    by (unfold zeros; apply repeat_length).
  rewrite firstn_app, firstn_all, Nat.sub_diag, firstn_O, app_nil_r.
  rewrite skipn_app, skipn_all, Nat.sub_diag, skipn_O.
  cbn [app]. rewrite copy_exact; [reflexivity |].
  unfold zeros, len. rewrite repeat_length. lia.
Qed.

(** ** The sponge never faults while it absorbs *)

Lemma xorIn_loop_length (n : nat) (lanes : list Z) (b : list byte) :
  length (Sponge.xorIn_loop n lanes b) = length lanes.
Proof.
  revert lanes b. induction n as [| n IH]; intros lanes b; [reflexivity |].
  destruct lanes as [| x lanes]; [reflexivity |].
  cbn. rewrite IH. reflexivity.
Qed.

Lemma xorIn_ok (lanes : list Z) (b : list byte) :
  len b <= 200 ->
  exists lanes',
    Sponge.xorIn lanes b = Val lanes' /\ length lanes' = length lanes.
Proof.
  intros Hb. unfold Sponge.xorIn.
  assert (Hq : (Z.quot (len b) 8 >? 25) = false).
  { rewrite Z.gtb_ltb. apply Z.ltb_ge.
    pose proof (len_nonneg b).
    rewrite Z.quot_div_nonneg by lia.
    apply Z.div_le_upper_bound; lia. }
  rewrite Hq. eexists. split; [reflexivity | apply xorIn_loop_length].
Qed.

Lemma keccak_round_length (lanes : list Z) (rc : Z) :
  length (Sponge.keccak_round lanes rc) = 25%nat.
Proof.
  unfold Sponge.keccak_round, Sponge.keccak_iota, Sponge.keccak_chi.
  reflexivity.
Qed.

Lemma keccakF1600_length (lanes : list Z) :
  length lanes = 25%nat -> length (Sponge.keccakF1600 lanes) = 25%nat.
Proof.
  unfold Sponge.keccakF1600.
  generalize Sponge.keccak_rc. intros rcs. revert lanes.
  induction rcs as [| rc rcs IH]; intros lanes Hl; [exact Hl |].
  cbn [fold_left]. apply IH. apply keccak_round_length.
Qed.

Lemma absorb_ok (fuel : nat) (r : Z) (lanes : list Z) (data : list byte) :
  0 < r <= 200 -> length lanes = 25%nat ->
  (length data <= fuel)%nat ->
  exists lanes' rest,
    Sponge.absorb fuel r lanes data = Val (lanes', rest) /\
    length lanes' = 25%nat /\ len rest < r.
Proof.
  intros Hr. revert lanes data.
  induction fuel as [| fuel IH]; intros lanes data Hl Hf.
  - cbn. exists lanes, data. repeat split; auto.
    destruct data; [unfold len; cbn; lia | cbn in Hf; lia].
  - cbn [Sponge.absorb].
    destruct (r <=? len data) eqn:Hle.
    + apply Z.leb_le in Hle.
      assert (Hfirst : len (firstn (Z.to_nat r) data) <= 200).
      { unfold len. rewrite length_firstn. lia. }
      destruct (xorIn_ok lanes _ Hfirst) as (lanes1 & -> & Hl1).
      cbn [bind]. apply IH.
      * unfold Sponge.permute. apply keccakF1600_length. congruence.
      * rewrite length_skipn. unfold len in Hle. lia.
    + apply Z.leb_gt in Hle. exists lanes, data. auto.
Qed.

Lemma state_Write_ok (d : Sponge.state) (p : list byte) :
  absorbing d ->
  exists d',
    Sponge.state_Write d p = Val (d', None) /\
    absorbing d' /\ Sponge.rate d' = Sponge.rate d /\
    Sponge.dsbyte d' = Sponge.dsbyte d.
Proof.
  intros (Hdir & Hr & Hl & Hb). unfold Sponge.state_Write. rewrite Hdir.
  replace (Sponge.rate d <=? 0) with false by (symmetry; apply Z.leb_gt; lia).
  destruct (absorb_ok (length (Sponge.buf d ++ p)) (Sponge.rate d) (Sponge.a d)
              (Sponge.buf d ++ p) Hr Hl (le_n _)) as (lanes & rest & -> & Hl' & Hrest).
  cbn [bind]. eexists. split; [reflexivity |].
  unfold absorbing. cbn. auto.
Qed.

Lemma newState_absorbing (r : Z) (d : byte) :
  0 < r <= 200 -> absorbing (Sponge.newState r d).
Proof.
  intros Hr. unfold absorbing. cbn. repeat split; try lia; reflexivity.
Qed.

Lemma state_Reset_absorbing (d : Sponge.state) :
  0 < Sponge.rate d <= 200 -> absorbing (Sponge.state_Reset d).
Proof.
  intros Hr. unfold absorbing. cbn. repeat split; try lia; reflexivity.
Qed.

(** ** The sponge never faults while it is read *)

Lemma set_nth_length (b : list byte) (i : nat) (x : byte) :
  length (set_nth b i x) = length b.
Proof.
  revert i. induction b as [| y b IH]; intros i; [reflexivity |].
  destruct i; cbn; [reflexivity | rewrite IH; reflexivity].
Qed.

Lemma copyOut_loop_ok (fuel : nat) (lanes : list Z) (b : list byte) :
  len b <= 8 * Z.of_nat (length lanes) ->
  exists out, Sponge.copyOut_loop fuel lanes b = Val out.
Proof.
  revert lanes b. induction fuel as [| fuel IH]; intros lanes b Hb.
  - eexists. reflexivity.
  - cbn [Sponge.copyOut_loop].
    destruct (8 <=? len b) eqn:H8; [| eexists; reflexivity].
    apply Z.leb_le in H8.
    destruct lanes as [| x lanes]; [cbn in Hb; lia |].
    destruct (IH lanes (skipn 8 b)) as (rest & ->).
    + unfold len in *. rewrite length_skipn. cbn [length] in Hb. lia.
    + cbn [bind]. eexists. reflexivity.
Qed.

Lemma copyOut_ok (lanes : list Z) (r : Z) :
  length lanes = 25%nat -> r <= 200 ->
  exists out, Sponge.copyOut lanes (zeros r) = Val out.
Proof.
  intros Hl Hr. apply copyOut_loop_ok. rewrite Hl.
  unfold len, zeros. rewrite repeat_length. lia.
Qed.

Lemma squeeze_ok (fuel : nat) (r : Z) (lanes : list Z) (cur : list byte) (n : Z) :
  r <= 200 -> length lanes = 25%nat ->
  exists lanes' cur' out,
    Sponge.squeeze fuel r lanes cur n = Val (lanes', cur', out).
Proof.
  intros Hr. revert lanes cur n.
  induction fuel as [| fuel IH]; intros lanes cur n Hl.
  - do 3 eexists. reflexivity.
  - cbn [Sponge.squeeze].
    destruct (n <=? 0); [do 3 eexists; reflexivity |].
    cbv zeta.
    destruct (len (skipn _ cur) =? 0).
    + destruct (copyOut_ok (Sponge.permute lanes) r) as (blk & ->); [| exact Hr |].
      { unfold Sponge.permute. apply keccakF1600_length. exact Hl. }
      cbn [bind].
      destruct (IH (Sponge.permute lanes) blk
                  (n - Z.of_nat (Z.to_nat (Z.min n (len cur)))))
        as (lanes' & cur' & out & ->).
      { unfold Sponge.permute. apply keccakF1600_length. exact Hl. }
      cbn [bind]. do 3 eexists. reflexivity.
    + cbn [bind].
      destruct (IH lanes (skipn (Z.to_nat (Z.min n (len cur))) cur)
                  (n - Z.of_nat (Z.to_nat (Z.min n (len cur))))) 
        as (lanes' & cur' & out & ->); [exact Hl |].
      cbn [bind]. do 3 eexists. reflexivity.
Qed.

Lemma state_Read_ok (d : Sponge.state) (n : Z) :
  absorbing d ->
  exists d' out, Sponge.state_Read d n = Val (d', out, None).
Proof.
  intros (Hdir & Hr & Hl & Hb). unfold Sponge.state_Read. rewrite Hdir.
  unfold Sponge.padAndPermute.
  replace (Sponge.rate d <=? 0) with false by (symmetry; apply Z.leb_gt; lia).
  cbv zeta.
  match goal with
  | |- context [Sponge.xorIn (Sponge.a d) ?blk] =>
      destruct (xorIn_ok (Sponge.a d) blk) as (lanes1 & -> & Hl1)
  end.
  { unfold len. rewrite set_nth_length, !length_app. cbn [length].
    unfold zeros. rewrite repeat_length. unfold len in *. lia. }
  cbn [bind].
  destruct (copyOut_ok (Sponge.permute lanes1) (Sponge.rate d)) as (blk & ->);
    [| lia |].
  { unfold Sponge.permute. apply keccakF1600_length. congruence. }
  cbn [bind Sponge.rate Sponge.a Sponge.buf].
  destruct (squeeze_ok (Z.to_nat n) (Sponge.rate d) (Sponge.permute lanes1) blk n)
    as (lanes' & cur' & out & ->); [lia | |].
  { unfold Sponge.permute. apply keccakF1600_length. congruence. }
  cbn [bind]. do 2 eexists. reflexivity.
Qed.

(** ** The permutations of a write *)

Lemma absorbCalls_count (fuel : nat) (r : Z) (data : list byte) :
  0 < r -> (length data <= fuel)%nat ->
  Z.of_nat (absorbCalls fuel r data) = len data / r.
Proof.
  intros Hr. revert data. induction fuel as [| fuel IH]; intros data Hf.
  - destruct data; [| cbn in Hf; lia].
    change (len (@nil byte)) with 0. rewrite Z.div_0_l by lia. reflexivity.
  - cbn [absorbCalls]. destruct (r <=? len data) eqn:Hle.
    + apply Z.leb_le in Hle.
      rewrite Nat2Z.inj_succ, IH by (rewrite length_skipn; unfold len in Hle; lia).
      assert (Hsk : len (skipn (Z.to_nat r) data) = len data - r).
      { unfold len in *. rewrite length_skipn. lia. }
      rewrite Hsk.
      replace (len data) with (len data - r + 1 * r) at 2 by lia.
      rewrite Z.div_add by lia. lia.
    + apply Z.leb_gt in Hle. pose proof (len_nonneg data).
      cbn. symmetry. apply Z.div_small. lia.
Qed.

Lemma absorb_rest (fuel : nat) (r : Z) (lanes lanes' : list Z) (data rest : list byte) :
  0 < r -> (length data <= fuel)%nat ->
  Sponge.absorb fuel r lanes data = Val (lanes', rest) ->
  len rest = len data mod r.
Proof.
  intros Hr. revert lanes data. induction fuel as [| fuel IH]; intros lanes data Hf.
  - destruct data; [| cbn in Hf; lia]. cbn [Sponge.absorb]. intros [= _ <-].
    change (len (@nil byte)) with 0. rewrite Zmod_0_l. reflexivity.
  - cbn [Sponge.absorb]. destruct (r <=? len data) eqn:Hle.
    + apply Z.leb_le in Hle.
      destruct (Sponge.xorIn _ _) as [| lanes1]; cbn [bind]; [intros [= ] |].
      intros Hrec. apply IH in Hrec;
        [| rewrite length_skipn; unfold len in Hle; lia].
      rewrite Hrec.
      assert (Hsk : len (skipn (Z.to_nat r) data) = len data - r).
      { unfold len in *. rewrite length_skipn. lia. }
      rewrite Hsk.
      replace (len data) with (len data - r + 1 * r) at 2 by lia.
      rewrite Z.mod_add by lia. reflexivity.
    + apply Z.leb_gt in Hle. pose proof (len_nonneg data).
      intros [= _ <-]. symmetry. apply Z.mod_small. lia.
Qed.

(** Two writes in a row apply the permutation once per block of the whole:
    the cursor carries over. *)
Lemma permuteCalls_two_writes (d d1 : Sponge.state) (p q : list byte) :
  absorbing d ->
  Sponge.state_Write d p = Val (d1, None) ->
  Z.of_nat (permuteCalls d p + permuteCalls d1 q)
  = (len (Sponge.buf d) + len p + len q) / Sponge.rate d.
Proof.
  intros (Hdir & Hr & Hl & Hb) Hw.
  unfold Sponge.state_Write in Hw. rewrite Hdir in Hw.
  replace (Sponge.rate d <=? 0) with false in Hw
    by (symmetry; apply Z.leb_gt; lia).
  cbv zeta in Hw.
  destruct (Sponge.absorb _ _ _ _) as [| [lanes rest]] eqn:Hab;
    cbn [bind] in Hw; [discriminate Hw |].
  injection Hw as <-.
  apply absorb_rest in Hab; [| lia | apply le_n].
  unfold permuteCalls. cbn [Sponge.buf Sponge.rate].
  rewrite Nat2Z.inj_add, !absorbCalls_count by (lia || apply le_n).
  rewrite !len_app in *. rewrite Hab.
  set (r := Sponge.rate d) in *.
  set (n := len (Sponge.buf d) + len p) in *.
  pose proof (Z.div_mod n r ltac:(lia)) as Hdm.
  replace (n + len q) with (n mod r + len q + (n / r) * r) by lia.
  rewrite Z.div_add by lia. lia.
Qed.

(** ** The pre-padded absorb *)

Section WriteWithPadFacts.

Context {H E : Type} `{HashOps : ShakeHash H E}.

(** The number of zero bytes written after the data. *)
Lemma postpad_bounds (r n : Z) :
  0 < r -> 0 <= n ->
  let nPad := r - Z.rem n r in
  0 < nPad <= r /\ (n + nPad) mod r = 0 /\ 0 < n + nPad.
Proof.
  intros Hr Hn nPad. subst nPad.
  rewrite Z.rem_mod_nonneg by lia.
  pose proof (Z.mod_pos_bound n r Hr) as Hm.
  split; [lia |]. split; [| lia].
  replace (n + (r - n mod r)) with (n - n mod r + 1 * r) by lia.
  rewrite Z.mod_add by lia.
  rewrite (Z.div_mod n r) at 1 by lia.
  replace (r * (n / r) + n mod r - n mod r) with ((n / r) * r) by lia.
  apply Z.mod_mul; lia.
Qed.

Lemma writeWithPad_empty (s : ShakePRNG H) (h : option H) (start : byte) :
  writeWithPad s h [] start = Val (s, h, None).
Proof. reflexivity. Qed.

(** [writeWithPad] on data that is not empty, as two writes. *)
Lemma writeWithPad_unfold (s : ShakePRNG H) (h0 : H) (p : list byte) (start : byte) :
  p <> [] -> 0 <= start -> 0 < rate s ->
  let data := zeros start ++ p in
  let nPad := rate s - len data mod rate s in
  writeWithPad s (Some h0) p start =
    ('(h1, e) <- Write h0 data ;;
     match e with
     | Some e1 =>
         Val (s, Some (Reset h1),
              Some (Wrapf "failed to write pre-pad + data into DRBG hash" []
                      (HashError e1)))
     | None =>
         '(h2, e) <- Write h1 (zeros nPad) ;;
         match e with
         | Some e2 =>
             Val (s, Some (Reset h2),
                  Some (Wrapf "failed to write post-pad into DRBG hash" []
                          (HashError e2)))
         | None => Val (set_nw s (wrap_int (nw s + 1)), Some h2, None)
         end
     end).
Proof.
  intros Hp Hs Hr data nPad. unfold writeWithPad.
  assert (Hlen : (len p =? 0) = false).
  { apply Z.eqb_neq. destruct p; [congruence | unfold len; cbn; lia]. }
  rewrite Hlen.
  rewrite (prepad_buffer start p Hs). fold data.
  destruct (Write h0 data) as [| [h1 [e1 |]]]; cbn [bind]; try reflexivity.
  assert (Hr0 : (rate s =? 0) = false) by (apply Z.eqb_neq; lia).
  rewrite Hr0.
  assert (Hd : 0 <= len data) by apply len_nonneg.
  rewrite Z.rem_mod_nonneg by lia. fold nPad.
  assert (Hn : (nPad <? 0) = false).
  { apply Z.ltb_ge. subst nPad.
    pose proof (Z.mod_pos_bound (len data) (rate s) Hr). lia. }
  rewrite Hn. reflexivity.
Qed.

(** Whatever the context and the data, an error of [writeWithPad] wraps an
    error of the hash and leaves the engine as it was. *)
Lemma writeWithPad_error (s s' : ShakePRNG H) (h h' : option H)
  (p : list byte) (start : byte) (e : error E) :
  writeWithPad s h p start = Val (s', h', Some e) ->
  s' = s /\ exists msg args e0, e = Wrapf msg args (HashError e0).
Proof.
  unfold writeWithPad.
  destruct (len p =? 0); [intros [= ]|].
  destruct h as [h0|]; [| intros [= ]].
  destruct (Write h0 _) as [| [h1 [e1 |]]]; cbn [bind]; try (intros [= ]; fail).
  - intros [= <- <- <-]. split; [reflexivity | eauto].
  - destruct (rate s =? 0); [intros [= ] |].
    destruct (_ <? 0); [intros [= ] |].
    destruct (Write h1 _) as [| [h2 [e2 |]]]; cbn [bind]; try (intros [= ]; fail).
    intros [= <- <- <-]. split; [reflexivity | eauto].
Qed.

(** A successful [writeWithPad] keeps every field but [nw] and the context
    it was given is there afterwards. *)
Lemma writeWithPad_success (s s' : ShakePRNG H) (h h' : option H)
  (p : list byte) (start : byte) :
  writeWithPad s h p start = Val (s', h', None) ->
  (p = [] /\ s' = s /\ h' = h) \/
  (p <> [] /\ s' = set_nw s (wrap_int (nw s + 1)) /\ 0 <> rate s /\
   exists h0 h2, h = Some h0 /\ h' = Some h2).
Proof.
  unfold writeWithPad.
  destruct (len p =? 0) eqn:Hlen.
  - intros [= <- <-]. left. apply Z.eqb_eq in Hlen.
    destruct p; [auto | unfold len in Hlen; cbn in Hlen; lia].
  - assert (Hp : p <> []) by (intros ->; discriminate Hlen).
    destruct h as [h0|]; [| intros [= ]].
    destruct (Write h0 _) as [| [h1 [e1 |]]]; cbn [bind]; try (intros [= ]; fail).
    destruct (rate s =? 0) eqn:Hr; [intros [= ] |].
    destruct (_ <? 0); [intros [= ] |].
    destruct (Write h1 _) as [| [h2 [e2 |]]]; cbn [bind]; try (intros [= ]; fail).
    intros [= <- <-]. right. apply Z.eqb_neq in Hr.
    repeat split; auto. eauto.
Qed.

End WriteWithPadFacts.
Section WriteWithPadClaim.

Context {H E : Type} `{HashOps : ShakeHash H E}.

(** C6. For data [p] that is not empty and an offset [o], [writeWithPad]
    writes [o] zero bytes followed by [p], then [nPad] zero bytes, where
    [nPad] brings the total to the next multiple of the rate: the total is
    a positive multiple of the rate. It succeeds exactly when these two
    writes succeed, and then [nw] has grown by one; when a write fails the
    engine, [nw] included, is as before. For empty data it writes nothing
    and leaves the engine and the context as they are. On the sponge of
    shake.go, with the rate of the engine, the two writes go through and
    apply the permutation at least once. *)
Theorem writeWithPad_absorbs (s : ShakePRNG H) (h0 : H) (p : list byte) (o : byte)
  (Hp : p <> []) (Ho : is_byte o) (Hr : 0 < rate s) :
  let data := zeros o ++ p in
  let nPad := rate s - len data mod rate s in
  len data = o + len p /\
  0 < nPad <= rate s /\
  (exists k, 1 <= k /\ len data + nPad = k * rate s) /\
  (forall s' h',
      writeWithPad s (Some h0) p o = Val (s', h', None) <->
      exists h2,
        WriteAll h0 [data; zeros nPad] = Val (h2, None) /\
        h' = Some h2 /\ s' = set_nw s (wrap_int (nw s + 1))) /\
  (forall s' h',
      writeWithPad s (Some h0) p o = Val (s', h', None) ->
      nw s < 2 ^ 63 - 1 -> - 2 ^ 63 <= nw s ->
      nw s' = nw s + 1) /\
  (forall s' h' e,
      writeWithPad s (Some h0) p o = Val (s', h', Some e) ->
      s' = s /\ nw s' = nw s) /\
  (forall h, writeWithPad s h [] o = Val (s, h, None)) /\
  (forall d : Sponge.state,
      absorbing d -> Sponge.rate d = rate s ->
      exists d1 d2,
        Sponge.state_Write d data = Val (d1, None) /\
        Sponge.state_Write d1 (zeros nPad) = Val (d2, None) /\
        (1 <= permuteCalls d data + permuteCalls d1 (zeros nPad))%nat).
Proof.
  intros data nPad.
  assert (Ho' : 0 <= o) by (unfold is_byte in Ho; lia).
  assert (Hdata : len data = o + len p).
  { subst data. rewrite len_app, len_zeros by lia. reflexivity. }
  assert (Hd : 0 <= len data) by apply len_nonneg.
  destruct (postpad_bounds (rate s) (len data) Hr Hd) as (Hpad & Hmul & Hpos).
  rewrite Z.rem_mod_nonneg in Hpad, Hmul, Hpos by lia.
  fold nPad in Hpad, Hmul, Hpos.
  pose proof (writeWithPad_unfold s h0 p o Hp Ho' Hr) as Hw.
  cbv zeta in Hw. fold data nPad in Hw.
  assert (Hsucc : forall s' h',
             writeWithPad s (Some h0) p o = Val (s', h', None) <->
             exists h2,
               WriteAll h0 [data; zeros nPad] = Val (h2, None) /\
               h' = Some h2 /\ s' = set_nw s (wrap_int (nw s + 1))).
  { intros s' h'. rewrite Hw. cbn [WriteAll].
    destruct (Write h0 data) as [| [h1 [e1 |]]]; cbn [bind].
    - split; [intros [= ] | intros (h2 & [= ] & _)].
    - split; [intros [= ] | intros (h2 & [= ] & _)].
    - destruct (Write h1 (zeros nPad)) as [| [h2 [e2 |]]]; cbn [bind].
      + split; [intros [= ] | intros (h2 & [= ] & _)].
      + split; [intros [= ] | intros (h3 & [= ] & _)].
      + split.
        * intros [= <- <-]. exists h2. auto.
        * intros (h3 & [= <-] & -> & ->). reflexivity. }
  split; [exact Hdata |].
  split; [lia |].
  split.
  { exists (len data / rate s + 1).
    pose proof (Z.div_pos (len data) (rate s) Hd Hr).
    pose proof (Z.div_mod (len data) (rate s) ltac:(lia)).
    split; [lia |]. subst nPad. lia. }
  split; [exact Hsucc |].
  split.
  { intros s' h' Hs' Hhi Hlo. apply Hsucc in Hs' as (h2 & _ & _ & ->).
    cbn [set_nw nw]. unfold wrap_int.
    rewrite Z.mod_small by lia. lia. }
  split.
  { intros s' h' e He. apply writeWithPad_error in He as [-> _]. auto. }
  split; [intros h; reflexivity |].
  intros d Habs Hrd.
  destruct (state_Write_ok d data Habs) as (d1 & Hw1 & Hd1 & _).
  destruct (state_Write_ok d1 (zeros nPad) Hd1) as (d2 & Hw2 & _).
  exists d1, d2. split; [exact Hw1 |]. split; [exact Hw2 |].
  pose proof (permuteCalls_two_writes d d1 data (zeros nPad) Habs Hw1) as Hcount.
  rewrite len_zeros, Hrd in Hcount by lia.
  pose proof (len_nonneg (Sponge.buf d)) as Hcur.
  pose proof (Z.div_mod (len data) (rate s) ltac:(lia)) as Hdm.
  replace (len (Sponge.buf d) + len data + nPad)
    with (len (Sponge.buf d) + (len data / rate s + 1) * rate s) in Hcount
    by (subst nPad; lia).
  rewrite Z.div_add in Hcount by lia.
  pose proof (Z.div_pos (len (Sponge.buf d)) (rate s) Hcur Hr).
  pose proof (Z.div_pos (len data) (rate s) Hd Hr).
  lia.
Qed.

End WriteWithPadClaim.

(** ** Generate: the checks *)

Section GenerateFacts.

Context {H E : Type} `{HashOps : ShakeHash H E}.

Lemma NeedReseed_spec (s : ShakePRNG H) :
  NeedReseed s = true <-> counter s > 2 ^ 48.
Proof.
  unfold NeedReseed, ReseedInterval.
  change (Z.shiftl 1 48) with (2 ^ 48).
  rewrite Z.gtb_ltb, Z.ltb_lt. lia.
Qed.

(** What [Generate_validate] returns, case by case. *)
Lemma Generate_validate_cases (s : ShakePRNG H) (out additionalIn : list byte) :
  (counter s > 2 ^ 48 /\
   exists msg,
     Generate_validate (E:=E) s out additionalIn
     = Val (Return (s, out, Some (Wrapf msg [] ErrDRBGReseed)))) \/
  (counter s <= 2 ^ 48 /\
   (len out > 2 ^ 32 \/ len out = 0 \/ len additionalIn > 2 ^ 32) /\
   exists msg args,
     Generate_validate (E:=E) s out additionalIn
     = Val (Return (s, out, Some (Errorf msg args)))) \/
  (counter s <= 2 ^ 48 /\ 1 <= len out <= 2 ^ 32 /\ len additionalIn <= 2 ^ 32 /\
   Generate_validate (E:=E) s out additionalIn = Val (Next tt)).
Proof.
  unfold Generate_validate.
  destruct (NeedReseed s) eqn:Hn.
  - left. apply NeedReseed_spec in Hn. split; [exact Hn | eexists; reflexivity].
  - right.
    assert (Hc : counter s <= 2 ^ 48).
    { destruct (Z_gt_le_dec (counter s) (2 ^ 48)) as [Hgt | Hle]; [| exact Hle].
      apply NeedReseed_spec in Hgt. congruence. }
    unfold MaxInputLength. change (Z.shiftl 1 32) with (2 ^ 32).
    pose proof (len_nonneg out) as Ho.
    destruct (len out >? 2 ^ 32) eqn:H1.
    { left. rewrite Z.gtb_ltb, Z.ltb_lt in H1.
      split; [exact Hc |]. split; [lia | do 2 eexists; reflexivity]. }
    rewrite Z.gtb_ltb, Z.ltb_ge in H1.
    destruct (len out =? 0) eqn:H2.
    { left. apply Z.eqb_eq in H2.
      split; [exact Hc |]. split; [lia | do 2 eexists; reflexivity]. }
    apply Z.eqb_neq in H2.
    destruct (len additionalIn >? 2 ^ 32) eqn:H3.
    { left. rewrite Z.gtb_ltb, Z.ltb_lt in H3.
      split; [exact Hc |]. split; [lia | do 2 eexists; reflexivity]. }
    rewrite Z.gtb_ltb, Z.ltb_ge in H3.
    right. repeat split; try lia.
Qed.

Lemma destroyAndReturn_inv {A : Type} (s : ShakePRNG H) (out : list byte)
  (e : error E) (format : string) (r : step GenerateResult A) :
  destroyAndReturn s out e format = Val r ->
  c s <> None /\ r = Return (destroyed, out, Some (Wrapf format [] e)).
Proof.
  unfold destroyAndReturn, Destroy.
  destruct (c s); cbn [bind]; [| intros [= ]].
  intros [= <-]. split; [discriminate | reflexivity].
Qed.

(** The stages of [Generate] behind a result. *)
Lemma Generate_inv (s : ShakePRNG H) (out additionalIn : list byte)
  (r : GenerateResult) :
  Generate s out additionalIn = Val r ->
  Generate_validate s out additionalIn = Val (Return r) \/
  (Generate_validate (E:=E) s out additionalIn = Val (Next tt) /\
   (Generate_squeeze s out additionalIn = Val (Return r) \/
    exists s1 dup buf out1,
      Generate_squeeze s out additionalIn = Val (Next (s1, dup, buf, out1)) /\
      (Generate_replay s1 dup buf out1 = Val (Return r) \/
       exists dup2 nq start offset b,
         Generate_replay s1 dup buf out1 = Val (Next (dup2, nq)) /\
         Generate_window s1 buf nq = Val (start, offset, b) /\
         (Generate_remix s1 dup2 out1 start b = Val (Return r) \/
          Generate_remix s1 dup2 out1 start b = Val (Next r))))).
Proof.
  unfold Generate.
  destruct (Generate_validate s out additionalIn) as [| [r0 | []]];
    cbn [andThen finish]; [intros [= ] | intros [= ->]; left; reflexivity |].
  intros Hrun. right. split; [reflexivity |].
  destruct (Generate_squeeze s out additionalIn) as [| [r0 | [[[s1 dup] buf] out1]]];
    cbn [andThen finish] in Hrun;
    [discriminate Hrun | injection Hrun as ->; left; reflexivity |].
  right. exists s1, dup, buf, out1. split; [reflexivity |].
  destruct (Generate_replay s1 dup buf out1) as [| [r0 | [dup2 nq]]];
    cbn [andThen finish] in Hrun;
    [discriminate Hrun | injection Hrun as ->; left; reflexivity |].
  right.
  destruct (Generate_window s1 buf nq) as [| [[start offset] b]] eqn:Hwin;
    cbn [bind finish] in Hrun; [discriminate Hrun |].
  exists dup2, nq, start, offset, b.
  split; [reflexivity |]. split; [exact Hwin |].
  destruct (Generate_remix s1 dup2 out1 start b) as [| [r0 | r0]];
    cbn [finish] in Hrun; [discriminate Hrun | |];
    injection Hrun as ->; auto.
Qed.

(** What [Generate_squeeze] hands on. *)
Lemma Generate_squeeze_next (s s1 : ShakePRNG H) (out additionalIn : list byte)
  (dup : H) (buf out1 : list byte) :
  Generate_squeeze s out additionalIn = Val (Next (s1, dup, buf, out1)) ->
  rate s1 = rate s /\ seedLen s1 = seedLen s /\ counter s1 = counter s /\
  ((additionalIn = [] /\ nw s1 = nw s) \/
   (additionalIn <> [] /\ nw s1 = wrap_int (nw s + 1))) /\
  rate s <> 0 /\
  0 <= scratchLen (len out) (rate s) /\
  len buf = scratchLen (len out) (rate s) /\
  out1 = copy out buf /\
  exists h0 h1 data,
    Read h0 (scratchLen (len out) (rate s)) = Val (h1, data, None) /\
    buf = copy (zeros (scratchLen (len out) (rate s))) data /\
    dup = Clone h0 /\ c s1 = Some h1.
Proof.
  unfold Generate_squeeze.
  destruct (writeWithPad s (c s) additionalIn (getStartFrom s additionalIn))
    as [| [[s0 h] [e |]]] eqn:Hw; cbn [bind]; [intros [= ] | |].
  { intros Hd. apply destroyAndReturn_inv in Hd as [_ [= ]]. }
  assert (Hs0 : rate s0 = rate s /\ seedLen s0 = seedLen s /\
                counter s0 = counter s /\
                ((additionalIn = [] /\ nw s0 = nw s) \/
                 (additionalIn <> [] /\ nw s0 = wrap_int (nw s + 1)))).
  { apply writeWithPad_success in Hw
      as [(-> & -> & _) | (Hne & -> & _)]; cbn; auto 10. }
  destruct Hs0 as (Hr & Hsl & Hc & Hnw).
  cbn [c set_c rate].
  destruct h as [h0 |]; [| intros [= ]].
  rewrite Hr.
  destruct (rate s =? 0) eqn:Hr0; [intros [= ] |].
  apply Z.eqb_neq in Hr0.
  fold (scratchLen (len out) (rate s)).
  destruct (scratchLen (len out) (rate s) <? 0) eqn:Hn; [intros [= ] |].
  apply Z.ltb_ge in Hn.
  destruct (Read h0 _) as [| [[h1 data] [e |]]] eqn:Hread; cbn [bind];
    [intros [= ] | |].
  { intros Hd. apply destroyAndReturn_inv in Hd as [_ [= ]]. }
  intros [= <- <- <- <-]. cbn [rate seedLen counter nw set_c c].
  repeat (split; [assumption || reflexivity |]).
  split; [rewrite len_copy; apply len_zeros; exact Hn |].
  split; [reflexivity |].
  exists h0, h1, data. auto.
Qed.

(** An early return of [Generate_squeeze] destroys the engine and wraps an
    error of the hash, once or twice. *)
Lemma Generate_squeeze_return (s : ShakePRNG H) (out additionalIn : list byte)
  (r : GenerateResult) :
  Generate_squeeze s out additionalIn = Val (Return r) ->
  exists msg e0,
    r = (destroyed, out, Some (Wrapf msg [] e0)) /\ IsErrDRBGReseed e0 = false.
Proof.
  unfold Generate_squeeze.
  destruct (writeWithPad s (c s) additionalIn (getStartFrom s additionalIn))
    as [| [[s0 h] [e |]]] eqn:Hw; cbn [bind]; [intros [= ] | |].
  { intros Hd. apply destroyAndReturn_inv in Hd as [_ [= ->]].
    apply writeWithPad_error in Hw as (_ & msg & args & e0 & ->).
    eauto. }
  cbn [c set_c rate].
  destruct h as [h0 |]; [| intros [= ]].
  destruct (rate s0 =? 0); [intros [= ] |].
  destruct (_ <? 0); [intros [= ] |].
  destruct (Read h0 _) as [| [[h1 data] [e |]]]; cbn [bind];
    [intros [= ] | | intros [= ]].
  intros Hd. apply destroyAndReturn_inv in Hd as [_ [= ->]]. eauto.
Qed.

End GenerateFacts.
(** ** Bytes of the offset derivation *)

Lemma lor_byte (x y : Z) : is_byte x -> is_byte y -> is_byte (Z.lor x y).
Proof.
  unfold is_byte. intros Hx Hy.
  assert (Hn : 0 <= Z.lor x y) by (apply Z.lor_nonneg; lia).
  split; [exact Hn |].
  destruct (Z.eq_dec (Z.lor x y) 0) as [-> | Hnz]; [lia |].
  change 256 with (2 ^ 8).
  apply Z.log2_lt_pow2; [lia |].
  rewrite Z.log2_lor by lia.
  apply Z.max_lub_lt.
  - destruct (Z.eq_dec x 0) as [-> | Hx0]; [cbn; lia |].
    apply Z.log2_lt_pow2; [lia |]. change (2 ^ 8) with 256. lia.
  - destruct (Z.eq_dec y 0) as [-> | Hy0]; [cbn; lia |].
    apply Z.log2_lt_pow2; [lia |]. change (2 ^ 8) with 256. lia.
Qed.

Lemma RotateLeft8_byte (x k : Z) : is_byte x -> is_byte (RotateLeft8 x k).
Proof.
  intros Hx. unfold RotateLeft8.
  apply lor_byte; [apply to_byte_range |].
  pose proof (Z.mod_pos_bound k 8 ltac:(lia)) as Hs.
  unfold is_byte in *.
  rewrite Z.shiftr_div_pow2 by lia.
  assert (Hp : 0 < 2 ^ (8 - k mod 8)) by (apply Z.pow_pos_nonneg; lia).
  split; [apply Z.div_pos; lia |].
  apply Z.div_lt_upper_bound; [exact Hp |]. nia.
Qed.

Lemma getStartFrom_byte {H : Type} (s : ShakePRNG H) (buf : list byte) :
  is_byte (getStartFrom s buf).
Proof.
  unfold getStartFrom. apply RotateLeft8_byte, to_byte_range.
Qed.

Lemma createMask_length (b : list byte) : length (createMask b) = length b.
Proof.
  unfold createMask. destruct b as [| b0 rest]; [reflexivity |].
  rewrite length_map, length_seq. reflexivity.
Qed.

(** ** Generate: the replay and the remix *)

Section GenerateStages.

Context {H E : Type} `{HashOps : ShakeHash H E}.

(** The replay loop, started with [nq] steps of fuel, is left with
    [nq = 0] unless a write fails. *)
Lemma Generate_replay_loop_done (fuel : nat) (dup dup' : H) (cBuf : list byte)
  (nq nq' : Z) :
  fuel = Z.to_nat nq -> 0 <= nq ->
  Generate_replay_loop fuel dup cBuf nq = Val (dup', nq', None) ->
  nq' = 0.
Proof.
  revert dup nq. induction fuel as [| f IH]; intros dup nq Hf Hnq.
  - cbn. intros [= _ <-]. lia.
  - cbn [Generate_replay_loop].
    destruct (nq >? 0) eqn:Hpos; [| intros [= _ <-]; lia].
    destruct (Write dup cBuf) as [| [dup1 [e1 |]]]; cbn [bind];
      [intros [= ] | intros [= ] |].
    apply IH; lia.
Qed.

(** The number of writes the replay loop makes when none fails. *)
Lemma Generate_replay_loop_writes (fuel : nat) (dup dup' : H) (cBuf : list byte)
  (nq nq' : Z) :
  fuel = Z.to_nat nq ->
  Generate_replay_loop fuel dup cBuf nq = Val (dup', nq', None) ->
  WriteAll dup (repeat cBuf fuel) = Val (dup', None).
Proof.
  revert dup nq. induction fuel as [| f IH]; intros dup nq Hf.
  - cbn. intros [= <- _]. reflexivity.
  - cbn [Generate_replay_loop repeat WriteAll].
    destruct (nq >? 0) eqn:Hpos; [| lia].
    destruct (Write dup cBuf) as [| [dup1 [e1 |]]]; cbn [bind];
      [intros [= ] | intros [= ] |].
    apply IH; lia.
Qed.

Lemma Generate_replay_next (s : ShakePRNG H) (dup dup2 : H) (buf out : list byte)
  (nq : Z) :
  Generate_replay s dup buf out = Val (Next (dup2, nq)) ->
  0 < rate s /\ nq = 0.
Proof.
  unfold Generate_replay.
  destruct (Write dup _) as [| [dup1 [e1 |]]]; cbn [bind]; [intros [= ] | |].
  { intros Hd. apply destroyAndReturn_inv in Hd as [_ [= ]]. }
  destruct (rate s =? 0) eqn:Hr0; [intros [= ] |].
  destruct (rate s <? 0) eqn:Hr1; [intros [= ] |].
  apply Z.eqb_neq in Hr0. apply Z.ltb_ge in Hr1.
  destruct (Generate_replay_loop _ dup1 _ _) as [| [[dup3 nq3] [e3 |]]] eqn:Hloop;
    cbn [bind]; [intros [= ] | |].
  { intros Hd. apply destroyAndReturn_inv in Hd as [_ [= ]]. }
  intros [= <- <-]. split; [lia |].
  eapply Generate_replay_loop_done; [reflexivity | | exact Hloop].
  apply Z.quot_pos; [apply len_nonneg | lia].
Qed.

Lemma Generate_replay_return (s : ShakePRNG H) (dup : H) (buf out : list byte)
  (r : GenerateResult) :
  Generate_replay s dup buf out = Val (Return r) ->
  exists msg e0,
    r = (destroyed, out, Some (Wrapf msg [] e0)) /\ IsErrDRBGReseed e0 = false.
Proof.
  unfold Generate_replay.
  destruct (Write dup _) as [| [dup1 [e1 |]]]; cbn [bind]; [intros [= ] | |].
  { intros Hd. apply destroyAndReturn_inv in Hd as [_ [= ->]]. eauto. }
  destruct (rate s =? 0); [intros [= ] |].
  destruct (rate s <? 0); [intros [= ] |].
  destruct (Generate_replay_loop _ dup1 _ _) as [| [[dup3 nq3] [e3 |]]];
    cbn [bind]; [intros [= ] | | intros [= ]].
  intros Hd. apply destroyAndReturn_inv in Hd as [_ [= ->]]. eauto.
Qed.

(** The window, for a rate above 26 and once [nq] is zero: it starts at
    most at [rate - 27] and the slice is within a buffer of at least
    [rate - 1] bytes. *)
Lemma Generate_window_ok (s : ShakePRNG H) (buf : list byte) :
  26 < rate s -> rate s - 1 <= len buf ->
  exists start b,
    Generate_window s buf 0 = Val (start, start, b) /\
    start = getStartFrom s buf mod (rate s - 26) /\
    0 <= start <= rate s - 27 /\ start <= 255 /\
    start + nClear <= rate s - 1 /\
    b = firstn 25 (skipn (Z.to_nat start) buf) /\
    len b = nClear.
Proof.
  intros Hr Hbuf. unfold Generate_window, nClear.
  assert (Hz : (rate s - 25 - 1 =? 0) = false) by (apply Z.eqb_neq; lia).
  rewrite Hz.
  pose proof (getStartFrom_byte s buf) as Hg. unfold is_byte in Hg.
  rewrite Z.rem_mod_nonneg by lia.
  replace (rate s - 25 - 1) with (rate s - 26) by lia.
  set (start := getStartFrom s buf mod (rate s - 26)).
  assert (Hs : 0 <= start < rate s - 26) by (apply Z.mod_pos_bound; lia).
  assert (Hs255 : start <= getStartFrom s buf) by (apply Z.mod_le; lia).
  cbn [Z.mul]. rewrite Z.add_0_l.
  unfold slice.
  assert (Hin : ((0 <=? start) && (start <=? start + 25)
                 && (start + 25 <=? len buf)) = true).
  { rewrite !andb_true_iff, !Z.leb_le. lia. }
  rewrite Hin. cbn [bind].
  replace (Z.to_nat (start + 25 - start)) with 25%nat by lia.
  eexists _, _. split; [reflexivity |].
  repeat split; try lia.
  unfold len in *. rewrite length_firstn, length_skipn. lia.
Qed.

(** [Generate_window] in general: what a successful slice tells. *)
Lemma Generate_window_inv (s : ShakePRNG H) (buf : list byte) (nq start offset : Z)
  (b : list byte) :
  Generate_window s buf nq = Val (start, offset, b) ->
  offset = nq * rate s + start /\ 0 <= offset /\ offset + nClear <= len buf /\
  len b = nClear.
Proof.
  unfold Generate_window, slice.
  destruct (_ =? 0); [intros [= ] |].
  destruct (_ && _) eqn:Hin; cbn [bind]; [| intros [= ]].
  rewrite !andb_true_iff, !Z.leb_le in Hin.
  intros [= <- <- <-]. unfold nClear in *.
  repeat split; try lia.
  unfold len in *. rewrite length_firstn, length_skipn. lia.
Qed.

(** The last stage on a window of 25 bytes. *)
Lemma Generate_remix_inv (s : ShakePRNG H) (dup : H) (out b : list byte)
  (start : Z) (r : step GenerateResult GenerateResult) :
  len b = nClear ->
  Generate_remix s dup out start b = Val r ->
  (exists msg msg' args e0,
      r = Return (destroyed, out,
                  Some (Wrapf msg [] (Wrapf msg' args (HashError e0))))) \/
  (exists d,
      r = Next (mkShakePRNG (Some d) (rate s) (seedLen s)
                  (wrap_int (counter s + 1)) (wrap_int (nw s + 1)),
                out, None)).
Proof.
  intros Hb. unfold Generate_remix.
  destruct (writeWithPad s (Some dup) (createMask b) (to_byte start))
    as [| [[s0 d] [e |]]] eqn:Hw; cbn [bind]; [intros [= ] | |].
  - intros Hd. apply destroyAndReturn_inv in Hd as [_ ->].
    apply writeWithPad_error in Hw as (_ & msg & args & e0 & ->).
    left. eauto.
  - apply writeWithPad_success in Hw
      as [(Hnil & _) | (_ & -> & _ & h0 & h2 & _ & ->)].
    + exfalso. apply (f_equal (@length byte)) in Hnil.
      rewrite createMask_length in Hnil.
      unfold len, nClear in Hb. cbn in Hnil. lia.
    + cbn [c set_nw].
      destruct (c s); [| intros [= ]].
      intros [= <-]. right. exists h2. reflexivity.
Qed.

End GenerateStages.

(** ** Generate: the claims *)

Section GenerateClaims.

Context {H E : Type} `{HashOps : ShakeHash H E}.

(** The errors [Generate] returns after its checks have passed do not wrap
    [ErrDRBGReseed]. *)
Lemma Generate_late_error (s s' : ShakePRNG H) (out additionalIn out' : list byte)
  (e : error E) :
  Generate_validate (E:=E) s out additionalIn = Val (Next tt) ->
  Generate s out additionalIn = Val (s', out', Some e) ->
  IsErrDRBGReseed e = false /\ s' = destroyed.
Proof.
  intros Hv Hrun.
  apply Generate_inv in Hrun
    as [Hr | (_ & [Hr | (s1 & dup & buf & out1 & Hsq &
           [Hr | (dup2 & nq & start & offset & b & Hrp & Hwin & Hr)])])].
  - congruence.
  - apply Generate_squeeze_return in Hr as (msg & e0 & [= -> _ ->] & He).
    auto.
  - apply Generate_replay_return in Hr as (msg & e0 & [= -> _ ->] & He).
    auto.
  - apply Generate_window_inv in Hwin as (_ & _ & _ & Hb).
    destruct Hr as [Hr | Hr];
      apply (Generate_remix_inv _ _ _ _ _ _ Hb) in Hr
        as [(msg & msg' & args & e0 & [= ]) | (d & [= ])]; subst.
    + auto.
Qed.

(** C5. [NeedReseed] is a function of the engine alone and is true exactly
    when [counter > 2^48]. In that case [Generate] returns an error that
    wraps [ErrDRBGReseed] and leaves the engine and the buffer [out] as they
    were; and whenever [Generate] returns an error that wraps
    [ErrDRBGReseed], the counter is above [2^48] and neither the engine nor
    the buffer has changed. *)
Theorem Generate_reseed_required (s : ShakePRNG H) (out additionalIn : list byte) :
  (NeedReseed s = true <-> counter s > 2 ^ 48) /\
  (counter s > 2 ^ 48 ->
   exists e,
     Generate s out additionalIn = Val (s, out, Some e) /\
     IsErrDRBGReseed e = true) /\
  (forall s' out' (e : error E),
      Generate s out additionalIn = Val (s', out', Some e) ->
      IsErrDRBGReseed e = true ->
      counter s > 2 ^ 48 /\ s' = s /\ out' = out).
Proof.
  split; [apply NeedReseed_spec |].
  destruct (Generate_validate_cases (E:=E) s out additionalIn)
    as [(Hc & msg & Hv) | [(Hc & _ & msg & args & Hv) | (Hc & _ & _ & Hv)]].
  - split.
    + intros _. exists (Wrapf msg [] ErrDRBGReseed).
      unfold Generate. rewrite Hv. auto.
    + intros s' out' e. unfold Generate. rewrite Hv. cbn [andThen finish].
      intros [= <- <- <-] _. auto.
  - split; [lia |].
    intros s' out' e. unfold Generate. rewrite Hv. cbn [andThen finish].
    intros [= <- <- <-]. cbn. discriminate.
  - split; [lia |].
    intros s' out' e Hrun He.
    apply (Generate_late_error _ _ _ _ _ _ Hv) in Hrun as [Hno _].
    congruence.
Qed.

End GenerateClaims.

(** ** Generate: the scratch buffer *)

(** The two wordings of the length of the scratch buffer: the ceiling
    agrees with the floor of the program only when the rate divides the
    length of the output. *)
Lemma spec_scratchLen_vs_code (lo r : Z) :
  0 <= lo -> 0 < r ->
  scratchLen lo r = (lo / r + 1) * r - 1 /\
  (lo mod r = 0 -> spec_scratchLen lo r = scratchLen lo r) /\
  (lo mod r <> 0 -> spec_scratchLen lo r = scratchLen lo r + r).
Proof.
  intros Hlo Hr. unfold spec_scratchLen, scratchLen.
  rewrite Z.quot_div_nonneg by lia.
  split; [reflexivity |].
  pose proof (Z.div_mod lo r ltac:(lia)) as Hdm.
  pose proof (Z.mod_pos_bound lo r Hr) as Hm.
  split; intros Hz.
  - replace (lo + r - 1) with (r - 1 + (lo / r) * r) by lia.
    rewrite Z.div_add by lia.
    rewrite (Z.div_small (r - 1) r) by lia. lia.
  - replace (lo + r - 1) with (lo mod r - 1 + (lo / r + 1) * r) by lia.
    rewrite Z.div_add by lia.
    rewrite (Z.div_small (lo mod r - 1) r) by lia. lia.
Qed.

Lemma scratchLen_covers (lo r : Z) :
  0 <= lo -> 0 < r -> lo <= scratchLen lo r /\ r - 1 <= scratchLen lo r.
Proof.
  intros Hlo Hr.
  destruct (spec_scratchLen_vs_code lo r Hlo Hr) as (-> & _).
  pose proof (Z.div_mod lo r ltac:(lia)) as Hdm.
  pose proof (Z.mod_pos_bound lo r Hr) as Hm.
  pose proof (Z.div_pos lo r Hlo Hr) as Hq.
  split; nia.
Qed.

Section ScratchBuffer.

Context {H E : Type} `{HashOps : ShakeHash H E}.

(** Once the scratch buffer has been copied to [out], [Generate] does not
    write to [out] again. *)
Lemma Generate_out_after_squeeze (s s1 s' : ShakePRNG H)
  (out additionalIn buf out1 out' : list byte) (dup : H) (e : option (error E)) :
  Generate_validate (E:=E) s out additionalIn = Val (Next tt) ->
  Generate_squeeze s out additionalIn = Val (Next (s1, dup, buf, out1)) ->
  Generate s out additionalIn = Val (s', out', e) ->
  out' = out1.
Proof.
  intros Hv Hsq Hrun.
  apply Generate_inv in Hrun
    as [Hr | (_ & [Hr | (s2 & dup' & buf' & out2 & Hsq' &
           [Hr | (dup2 & nq & start & offset & b & Hrp & Hwin & Hr)])])];
    try congruence.
  - rewrite Hsq in Hsq'. injection Hsq' as <- <- <- <-.
    apply Generate_replay_return in Hr as (msg & e0 & [= _ -> _] & _).
    reflexivity.
  - rewrite Hsq in Hsq'. injection Hsq' as <- <- <- <-.
    apply Generate_window_inv in Hwin as (_ & _ & _ & Hb).
    destruct Hr as [Hr | Hr];
      apply (Generate_remix_inv _ _ _ _ _ _ Hb) in Hr
        as [(msg & msg' & args & e0 & [= ]) | (d & [= ])]; subst; reflexivity.
Qed.

(** C1 as the program has it. In a [Generate] call on an engine with a
    positive rate that passes the checks and reaches the read, the scratch
    buffer is what a read of [(floor(lo/r) + 1) * r - 1] bytes from the
    original context has filled, it has exactly that length, which is at
    least [lo], and the caller's buffer receives its first [lo] bytes and
    is not written again. That length is the one the specification words
    with a ceiling only when [r] divides [lo]; otherwise it is [r] bytes
    less. *)
Theorem Generate_scratch_buffer (s s1 : ShakePRNG H)
  (out additionalIn buf out1 : list byte) (dup : H)
  (Hr : 0 < rate s)
  (Hv : Generate_validate (E:=E) s out additionalIn = Val (Next tt))
  (Hsq : Generate_squeeze s out additionalIn = Val (Next (s1, dup, buf, out1))) :
  let lo := len out in
  let r := rate s in
  len buf = (lo / r + 1) * r - 1 /\
  lo <= len buf /\
  out1 = firstn (length out) buf /\
  (exists h0 h1 data,
      Read h0 ((lo / r + 1) * r - 1) = Val (h1, data, None) /\
      buf = copy (zeros ((lo / r + 1) * r - 1)) data /\
      dup = Clone h0) /\
  (forall s' out' e,
      Generate s out additionalIn = Val (s', out', e) -> out' = out1) /\
  (lo mod r = 0 -> len buf = spec_scratchLen lo r) /\
  (lo mod r <> 0 -> len buf = spec_scratchLen lo r - r).
Proof.
  intros lo r.
  pose proof (len_nonneg out) as Hlo. fold lo in Hlo.
  destruct (spec_scratchLen_vs_code lo r Hlo Hr) as (Hcode & Hdiv & Hndiv).
  destruct (scratchLen_covers lo r Hlo Hr) as (Hcov & _).
  pose proof (Generate_squeeze_next _ _ _ _ _ _ _ Hsq)
    as (_ & _ & _ & _ & _ & _ & Hlen & Hout & h0 & h1 & data & Hread & Hbuf & Hdup & _).
  fold lo r in Hlen, Hread, Hbuf.
  rewrite Hcode in Hlen, Hread, Hbuf.
  split; [exact Hlen |].
  split; [lia |].
  split.
  { rewrite Hout. apply copy_covered. unfold lo, len in *. lia. }
  split; [exists h0, h1, data; auto |].
  split.
  { intros s' out' e Hrun. eapply Generate_out_after_squeeze; eauto. }
  split; intros Hm; [rewrite Hdiv by exact Hm | rewrite Hndiv by exact Hm]; lia.
Qed.

End ScratchBuffer.

(** ** Generate: the window of the remix *)

Section RemixWindow.

Context {H E : Type} `{HashOps : ShakeHash H E}.

(** C10. In a [Generate] call that passes the checks on an engine whose
    rate is above 26 (136 and 168 are), once the read and the replay have
    gone through: the loop has counted [nq] down to zero, so the window
    starts at [offset = start] with [0 <= start <= rate - 27]; its 25 bytes
    end before byte [rate - 1], within the scratch buffer, so the slice
    does not fault. Every successful [Generate] goes this way. *)
Theorem Generate_window_in_bounds (s : ShakePRNG H) (out additionalIn : list byte)
  (Hr : 26 < rate s)
  (Hv : Generate_validate (E:=E) s out additionalIn = Val (Next tt)) :
  1 <= len out <= 2 ^ 32 /\
  (forall s1 dup buf out1 dup2 nq,
      Generate_squeeze s out additionalIn = Val (Next (s1, dup, buf, out1)) ->
      Generate_replay s1 dup buf out1 = Val (Next (dup2, nq)) ->
      nq = 0 /\
      exists start b,
        Generate_window s1 buf nq = Val (start, start, b) /\
        0 <= start <= rate s - 27 /\
        start + nClear <= rate s - 1 /\
        rate s - 1 <= len buf /\
        b = firstn 25 (skipn (Z.to_nat start) buf) /\
        len b = nClear) /\
  (forall s' out',
      Generate s out additionalIn = Val (s', out', None) ->
      exists s1 dup buf out1 dup2 start b,
        Generate_squeeze s out additionalIn = Val (Next (s1, dup, buf, out1)) /\
        Generate_replay s1 dup buf out1 = Val (Next (dup2, 0)) /\
        Generate_window s1 buf 0 = Val (start, start, b)).
Proof.
  assert (Hlo : 1 <= len out <= 2 ^ 32).
  { destruct (Generate_validate_cases (E:=E) s out additionalIn)
      as [(_ & msg & Hv') | [(_ & _ & msg & args & Hv') | (_ & Hlo & _)]];
      [congruence | congruence | exact Hlo]. }
  assert (Hstage : forall s1 dup buf out1 dup2 nq,
             Generate_squeeze s out additionalIn = Val (Next (s1, dup, buf, out1)) ->
             Generate_replay s1 dup buf out1 = Val (Next (dup2, nq)) ->
             nq = 0 /\
             exists start b,
               Generate_window s1 buf nq = Val (start, start, b) /\
               0 <= start <= rate s - 27 /\
               start + nClear <= rate s - 1 /\
               rate s - 1 <= len buf /\
               b = firstn 25 (skipn (Z.to_nat start) buf) /\
               len b = nClear).
  { intros s1 dup buf out1 dup2 nq Hsq Hrp.
    apply Generate_squeeze_next in Hsq
      as (Hrate & _ & _ & _ & _ & _ & Hlen & _).
    apply Generate_replay_next in Hrp as (_ & ->).
    split; [reflexivity |].
    destruct (scratchLen_covers (len out) (rate s) ltac:(lia) ltac:(lia))
      as (_ & Hcov).
    rewrite <- Hlen in Hcov.
    destruct (Generate_window_ok s1 buf)
      as (start & b & Hwin & _ & Hs & _ & He & Hfn & Hb); [lia | lia |].
    exists start, b. rewrite Hrate in *.
    split; [exact Hwin |].
    repeat (split; [lia |]).
    split; [exact Hfn | exact Hb]. }
  split; [exact Hlo |]. split; [exact Hstage |].
  intros s' out' Hrun.
  apply Generate_inv in Hrun
    as [Hret | (_ & [Hret | (s1 & dup & buf & out1 & Hsq &
           [Hret | (dup2 & nq & start & offset & b & Hrp & Hwin & _)])])].
  - congruence.
  - apply Generate_squeeze_return in Hret as (msg & e0 & [= ] & _).
  - apply Generate_replay_return in Hret as (msg & e0 & [= ] & _).
  - destruct (Hstage _ _ _ _ _ _ Hsq Hrp) as (-> & start' & b' & Hwin' & _).
    exists s1, dup, buf, out1, dup2, start', b'. auto.
Qed.

End RemixWindow.

(** ** Reseed, Reset and Destroy *)

Section ReseedFacts.

Context {H E : Type} `{HashOps : ShakeHash H E}.

(** [Reseed], case by case on the length of the seed. *)
Lemma Reseed_cases (s : ShakePRNG H) (seed : list byte) :
  ((len seed < Z.quot (seedLen s) 2 \/ 2 ^ 32 < len seed) /\
   exists msg args, Reseed (E:=E) s seed = Val (s, Some (Errorf msg args))) \/
  (Z.quot (seedLen s) 2 <= len seed <= 2 ^ 32 /\
   Reseed s seed =
     ('(s0, h, e) <- writeWithPad s (c s) seed (getStartFrom s seed) ;;
      match e with
      | Some e1 =>
          s' <- Destroy (set_c s0 h) ;;
          Val (s', Some (Wrapf "failed to write seed into DRBG hash" [] e1))
      | None => Val (set_counter (set_c s0 h) 0, None)
      end)).
Proof.
  unfold Reseed, MaxInputLength. change (Z.shiftl 1 32) with (2 ^ 32).
  destruct (len seed <? Z.quot (seedLen s) 2) eqn:H1.
  { left. apply Z.ltb_lt in H1. split; [lia | do 2 eexists; reflexivity]. }
  apply Z.ltb_ge in H1.
  destruct (len seed >? 2 ^ 32) eqn:H2.
  { left. rewrite Z.gtb_ltb, Z.ltb_lt in H2.
    split; [lia | do 2 eexists; reflexivity]. }
  rewrite Z.gtb_ltb, Z.ltb_ge in H2.
  right. split; [lia |].
  destruct (writeWithPad _ _ _ _) as [| [[s0 h] [e |]]]; reflexivity.
Qed.

(** A successful [Reseed]: the seed was in range, the counter is zero, and
    [nw] has grown by one unless the seed was empty. *)
Lemma Reseed_success (s s' : ShakePRNG H) (seed : list byte) :
  Reseed (E:=E) s seed = Val (s', None) ->
  Z.quot (seedLen s) 2 <= len seed <= 2 ^ 32 /\
  counter s' = 0 /\ rate s' = rate s /\ seedLen s' = seedLen s /\
  ((seed = [] /\ nw s' = nw s /\ c s' = c s) \/
   (seed <> [] /\ nw s' = wrap_int (nw s + 1) /\ exists h, c s' = Some h)).
Proof.
  destruct (Reseed_cases s seed) as [(_ & msg & args & ->) | (Hrange & ->)];
    [intros [= ] |].
  destruct (writeWithPad _ _ _ _) as [| [[s0 h] [e |]]] eqn:Hw; cbn [bind];
    [intros [= ] | |].
  { destruct (Destroy _); cbn [bind]; intros [= ]. }
  intros [= <-]. split; [exact Hrange |].
  apply writeWithPad_success in Hw
    as [(-> & -> & ->) | (Hne & -> & _ & h0 & h2 & _ & ->)]; cbn.
  - repeat split. left. destruct s; auto.
  - repeat split. right. eauto.
Qed.

(** A failed [Reseed] on a seed in range destroys the engine; its error is
    no validation error. *)
Lemma Reseed_late_error (s s' : ShakePRNG H) (seed : list byte) (e : error E) :
  Z.quot (seedLen s) 2 <= len seed <= 2 ^ 32 ->
  Reseed s seed = Val (s', Some e) ->
  s' = destroyed /\ IsValidationError e = false.
Proof.
  intros Hrange.
  destruct (Reseed_cases s seed) as [(Hout & _) | (_ & ->)]; [lia |].
  destruct (writeWithPad _ _ _ _) as [| [[s0 h] [e1 |]]]; cbn [bind];
    [intros [= ] | | intros [= ]].
  unfold Destroy. destruct (c _); cbn [bind]; [| intros [= ]].
  intros [= <- <-]. auto.
Qed.

(** The length checks of [Reseed], whatever the hash. *)
Lemma Reseed_checks (s : ShakePRNG H) (seed : list byte) :
  (forall s', Reseed (E:=E) s seed = Val (s', None) ->
              Z.quot (seedLen s) 2 <= len seed <= 2 ^ 32 /\ counter s' = 0) /\
  (len seed < Z.quot (seedLen s) 2 \/ 2 ^ 32 < len seed ->
   exists e : error E,
     Reseed s seed = Val (s, Some e) /\ IsValidationError e = true) /\
  (seedLen s = 64 -> len seed = 31 ->
   exists e : error E,
     Reseed s seed = Val (s, Some e) /\ IsValidationError e = true) /\
  (seedLen s = 64 -> len seed = 32 ->
   forall s' (e : error E),
     Reseed s seed = Val (s', Some e) ->
     IsValidationError e = false /\
     exists msg msg' args e0,
       e = Wrapf msg [] (Wrapf msg' args (HashError e0))).
Proof.
  assert (Hout : len seed < Z.quot (seedLen s) 2 \/ 2 ^ 32 < len seed ->
                 exists e : error E,
                   Reseed s seed = Val (s, Some e) /\ IsValidationError e = true).
  { intros Hlen.
    destruct (Reseed_cases s seed) as [(_ & msg & args & Hre) | (Hrange & _)];
      [| lia].
    rewrite Hre. eexists. split; reflexivity. }
  split.
  { intros s' Hs. apply Reseed_success in Hs. tauto. }
  split; [exact Hout |].
  split.
  { intros Hsl Hl. apply Hout. left. rewrite Hsl, Hl. reflexivity. }
  intros Hsl Hl s' e Hre.
  assert (Hrange : Z.quot (seedLen s) 2 <= len seed <= 2 ^ 32).
  { rewrite Hsl, Hl. split; [reflexivity | discriminate]. }
  split; [eapply Reseed_late_error; eauto |].
  destruct (Reseed_cases s seed) as [(Hbad & _) | (_ & Heq)]; [lia |].
  rewrite Heq in Hre.
  destruct (writeWithPad _ _ _ _) as [| [[s0 h] [e1 |]]] eqn:Hw; cbn [bind] in Hre;
    [discriminate Hre | | discriminate Hre].
  apply writeWithPad_error in Hw as (_ & msg' & args & e0 & ->).
  destruct (Destroy _); cbn [bind] in Hre; [discriminate Hre |].
  injection Hre as _ <-. eauto.
Qed.

End ReseedFacts.

(** ** The engine on the sponge *)

Lemma writeWithPad_sponge (s : ShakePRNG Sponge.state) (d : Sponge.state)
  (p : list byte) (start : byte) :
  0 < rate s -> 0 <= start -> absorbing d ->
  exists s' d',
    writeWithPad (E:=Empty_set) s (Some d) p start = Val (s', Some d', None) /\
    absorbing d' /\ Sponge.rate d' = Sponge.rate d /\
    rate s' = rate s /\ seedLen s' = seedLen s /\ counter s' = counter s /\
    c s' = c s.
Proof.
  intros Hr Hs Hd.
  destruct p as [| x p].
  { exists s, d. rewrite writeWithPad_empty.
    split; [reflexivity | split; [exact Hd | auto]]. }
  rewrite (writeWithPad_unfold (E:=Empty_set) s d (x :: p) start) by (auto; discriminate).
  cbn [Write state_ShakeHash].
  destruct (state_Write_ok d (zeros start ++ x :: p) Hd) as (d1 & -> & Hd1 & Hr1 & _).
  cbn [bind].
  destruct (state_Write_ok d1
              (zeros (rate s - len (zeros start ++ x :: p) mod rate s)) Hd1)
    as (d2 & -> & Hd2 & Hr2 & _).
  cbn [bind]. exists (set_nw s (wrap_int (nw s + 1))), d2.
  split; [reflexivity | split; [exact Hd2 | split; [congruence | cbn; auto]]].
Qed.

(** On a live engine [Reseed] accepts every seed of [seedLen/2] to [2^32]
    bytes. *)
Lemma Reseed_sponge (s : ShakePRNG Sponge.state) (seed : list byte) :
  live s ->
  Z.quot (seedLen s) 2 <= len seed <= 2 ^ 32 ->
  exists s',
    Reseed (E:=Empty_set) s seed = Val (s', None) /\
    live s' /\ counter s' = 0 /\ seedLen s' = seedLen s /\ rate s' = rate s.
Proof.
  intros (Hr & d & Hc & Hd & Hrd) Hrange.
  destruct (Reseed_cases (E:=Empty_set) s seed) as [(Hbad & _) | (_ & ->)]; [lia |].
  rewrite Hc.
  pose proof (getStartFrom_byte s seed) as Hst. unfold is_byte in Hst.
  destruct (writeWithPad_sponge s d seed (getStartFrom s seed))
    as (s0 & d' & -> & Hd' & Hrd' & Hr0 & Hsl0 & Hc0 & _); [lia | lia | exact Hd |].
  cbn [bind]. eexists. split; [reflexivity |].
  unfold live. cbn.
  split; [split; [lia | exists d'; split; [reflexivity | split; [exact Hd' | cbn; congruence]]] |]. auto.
Qed.

(** [NewShakeDRBG] on the sponge returns a live engine for both strengths
    and every seed its [Reseed] accepts. *)
Lemma NewShakeDRBG_sponge (bits : Z) (seed : list byte) :
  (bits = 128 /\ 16 <= len seed <= 2 ^ 32) \/
  (bits = 256 /\ 32 <= len seed <= 2 ^ 32) ->
  exists s,
    NewShakeDRBG (E:=Empty_set) bits seed = Val (Some s, None) /\ live s.
Proof.
  intros Hb. unfold NewShakeDRBG.
  assert (Hinit : forall s0 : ShakePRNG Sponge.state,
             live s0 -> Z.quot (seedLen s0) 2 <= len seed <= 2 ^ 32 ->
             exists s,
               ('(drbg, e) <- PRNG_Reset (E:=Empty_set) s0 seed ;;
                match e with
                | Some e1 =>
                    Val (None, Some (WrapTraceableErrorf (Some e1)
                                       "failed to initialize the SHAKE%d DRBG" [bits]))
                | None => Val (Some drbg, None)
                end) = Val (Some s, None) /\ live s).
  { intros s0 (Hr & d & Hc & Hd & Hrd) Hrange. unfold PRNG_Reset. rewrite Hc.
    destruct (Reseed_sponge (set_nw (set_c s0 (Some (Reset d))) 0) seed)
      as (s & -> & Hlive & _).
    - unfold live. cbn. split; [exact Hr |].
      eexists. split; [reflexivity |]. split; [| exact Hrd].
      apply state_Reset_absorbing. destruct Hd as (_ & Hrd' & _). exact Hrd'.
    - exact Hrange.
    - cbn [bind]. eauto. }
  destruct Hb as [(-> & Hlen) | (-> & Hlen)]; cbn [Z.eqb Pos.eqb].
  - apply Hinit.
    + unfold live. cbn. split; [reflexivity |].
      eexists. split; [reflexivity |]. split; [| reflexivity].
      apply newState_absorbing. unfold rate128. lia.
    + cbn. exact Hlen.
  - apply Hinit.
    + unfold live. cbn. split; [reflexivity |].
      eexists. split; [reflexivity |]. split; [| reflexivity].
      apply newState_absorbing. unfold rate256. lia.
    + cbn. exact Hlen.
Qed.

(** ** Generate on the sponge *)

Lemma Generate_replay_loop_sponge (fuel : nat) (dup : Sponge.state)
  (cBuf : list byte) (nq : Z) :
  absorbing dup ->
  exists dup' nq',
    Generate_replay_loop fuel dup cBuf nq = Val (dup', nq', None) /\
    absorbing dup' /\ Sponge.rate dup' = Sponge.rate dup.
Proof.
  revert dup nq. induction fuel as [| fuel IH]; intros dup nq Hd.
  - exists dup, nq. split; [reflexivity | split; [exact Hd | reflexivity]].
  - cbn [Generate_replay_loop].
    destruct (nq >? 0);
      [| exists dup, nq; split; [reflexivity | split; [exact Hd | reflexivity]]].
    cbn [Write state_ShakeHash].
    destruct (state_Write_ok dup cBuf Hd) as (dup1 & -> & Hd1 & Hr1 & _).
    cbn [bind].
    destruct (IH dup1 (nq - 1) Hd1) as (dup' & nq' & -> & Hd' & Hr').
    exists dup', nq'. split; [reflexivity | split; [exact Hd' | congruence]].
Qed.

(** On a live engine [Generate] succeeds on every buffer of 1 to [2^32]
    bytes and every additional input of at most [2^32] bytes, as long as
    no reseed is due; the engine is live afterwards. *)
Lemma Generate_sponge (s : ShakePRNG Sponge.state) (out additionalIn : list byte) :
  live s -> counter s <= 2 ^ 48 ->
  1 <= len out <= 2 ^ 32 -> len additionalIn <= 2 ^ 32 ->
  exists s' out',
    Generate (E:=Empty_set) s out additionalIn = Val (s', out', None) /\
    live s' /\ rate s' = rate s /\ seedLen s' = seedLen s.
Proof.
  intros (Hr & d & Hc & Hd & Hrd) Hcnt Hlo Hli. unfold Generate.
  destruct (Generate_validate_cases (E:=Empty_set) s out additionalIn)
    as [(Hgt & _) | [(_ & Hbad & _) | (_ & _ & _ & ->)]]; [lia | lia |].
  cbn [andThen].
  (* the write of the additional input and the read *)
  pose proof (getStartFrom_byte s additionalIn) as Hst. unfold is_byte in Hst.
  unfold Generate_squeeze. rewrite Hc.
  destruct (writeWithPad_sponge s d additionalIn (getStartFrom s additionalIn))
    as (s0 & d0 & -> & Hd0 & Hrd0 & Hr0 & Hsl0 & Hc0 & _); [lia | lia | exact Hd |].
  cbn [bind c set_c rate]. rewrite Hr0.
  replace (rate s =? 0) with false by (symmetry; apply Z.eqb_neq; lia).
  fold (scratchLen (len out) (rate s)).
  destruct (scratchLen_covers (len out) (rate s)) as (Hcov & Hcov1); [lia | lia |].
  replace (scratchLen (len out) (rate s) <? 0) with false
    by (symmetry; apply Z.ltb_ge; lia).
  cbn [Read Clone state_ShakeHash].
  destruct (state_Read_ok d0 (scratchLen (len out) (rate s)) Hd0) as (h1 & data & ->).
  cbn [bind andThen]. unfold Sponge.clone.
  set (buf := copy (zeros (scratchLen (len out) (rate s))) data).
  assert (Hbuf : len buf = scratchLen (len out) (rate s)).
  { unfold buf. rewrite len_copy. apply len_zeros. lia. }
  set (s1 := set_c (set_c s0 (Some d0)) (Some h1)).
  assert (Hs1 : rate s1 = rate s /\ seedLen s1 = seedLen s /\ c s1 = Some h1)
    by (unfold s1; cbn; auto).
  destruct Hs1 as (Hr1 & Hsl1 & Hc1).
  (* the replay *)
  unfold Generate_replay. rewrite Hr1.
  cbn [Write state_ShakeHash].
  destruct (state_Write_ok d0 (gen10x01Pad (rate s)) Hd0) as (d1 & -> & Hd1 & Hrd1 & _).
  cbn [bind].
  replace (rate s =? 0) with false by (symmetry; apply Z.eqb_neq; lia).
  replace (rate s <? 0) with false by (symmetry; apply Z.ltb_ge; lia).
  destruct (Generate_replay_loop_sponge
              (Z.to_nat (Z.quot (len buf) (rate s))) d1 (zeros (rate s))
              (Z.quot (len buf) (rate s)) Hd1) as (d2 & nq & Hloop & Hd2 & Hrd2).
  rewrite Hloop. cbn [bind andThen].
  assert (Hnq : nq = 0).
  { eapply Generate_replay_loop_done; [reflexivity | | exact Hloop].
    apply Z.quot_pos; [apply len_nonneg | lia]. }
  subst nq.
  (* the window and the remix *)
  destruct (Generate_window_ok s1 buf)
    as (start & b & -> & _ & Hstart & _ & _ & _ & Hb); [lia | lia |].
  cbn [bind]. unfold Generate_remix.
  pose proof (to_byte_range start) as Hsb. unfold is_byte in Hsb.
  destruct (writeWithPad_sponge s1 d2 (createMask b) (to_byte start))
    as (s2 & d3 & -> & Hd3 & Hrd3 & Hr2 & Hsl2 & _ & Hc2); [lia | lia | exact Hd2 |].
  cbn [bind]. rewrite Hc2, Hc1. cbn [finish].
  do 2 eexists. split; [reflexivity |].
  unfold live. cbn.
  split; [split; [lia | exists d3; split; [reflexivity | split; [exact Hd3 | cbn; congruence]]] |].
  split; congruence.
Qed.

(** C7. [Reseed] succeeds only on a seed of [seedLen/2] to [2^32] bytes,
    and then the counter is zero. A seed outside that range gets a
    validation error and the engine, context included, is the one passed
    in. With [seedLen = 64] a seed of 31 bytes is refused in this way; a
    seed of 32 bytes passes the checks, so that [Reseed] fails only if a
    write into the hash fails. On the sponge of shake.go no write fails:
    a live engine accepts every seed of [seedLen/2] to [2^32] bytes, a
    seed of 32 bytes at [seedLen = 64] among them. *)
Theorem Reseed_seed_length {H E : Type} `{HashOps : ShakeHash H E}
  (s : ShakePRNG H) (seed : list byte) :
  (forall s', Reseed (E:=E) s seed = Val (s', None) ->
              Z.quot (seedLen s) 2 <= len seed <= 2 ^ 32 /\ counter s' = 0) /\
  (len seed < Z.quot (seedLen s) 2 \/ 2 ^ 32 < len seed ->
   exists e : error E,
     Reseed s seed = Val (s, Some e) /\ IsValidationError e = true) /\
  (seedLen s = 64 -> len seed = 31 ->
   exists e : error E,
     Reseed s seed = Val (s, Some e) /\ IsValidationError e = true) /\
  (seedLen s = 64 -> len seed = 32 ->
   forall s' (e : error E),
     Reseed s seed = Val (s', Some e) ->
     IsValidationError e = false /\
     exists msg msg' args e0,
       e = Wrapf msg [] (Wrapf msg' args (HashError e0))) /\
  (forall (s0 : ShakePRNG Sponge.state) (seed0 : list byte),
      live s0 ->
      (Z.quot (seedLen s0) 2 <= len seed0 <= 2 ^ 32 \/
       (seedLen s0 = 64 /\ len seed0 = 32)) ->
      exists s',
        Reseed (E:=Empty_set) s0 seed0 = Val (s', None) /\
        counter s' = 0 /\ live s').
Proof.
  destruct (Reseed_checks (E:=E) s seed) as (H1 & H2 & H3 & H4).
  repeat (split; [assumption |]).
  intros s0 seed0 Hlive Hrange.
  destruct (Reseed_sponge s0 seed0 Hlive) as (s' & Hre & Hl & Hc & _).
  - destruct Hrange as [Hrange | (Hsl & Hlen)]; [exact Hrange |].
    rewrite Hsl, Hlen. split; [reflexivity | discriminate].
  - exists s'. auto.
Qed.

(** ** The absorb-call counter *)

Lemma wrap_int_id (x : Z) : - 2 ^ 63 <= x < 2 ^ 63 -> wrap_int x = x.
Proof.
  intros Hx. unfold wrap_int. rewrite Z.mod_small by lia. lia.
Qed.

Section NwFacts.

Context {H E : Type} `{HashOps : ShakeHash H E}.

(** A successful [Generate] calls [writeWithPad] with success once for the
    additional input, if there is any, and once for the mask. *)
Lemma Generate_success (s s' : ShakePRNG H) (out additionalIn out' : list byte) :
  Generate (E:=E) s out additionalIn = Val (s', out', None) ->
  0 < rate s /\ rate s' = rate s /\ seedLen s' = seedLen s /\
  counter s' = wrap_int (counter s + 1) /\
  ((additionalIn = [] /\ nw s' = wrap_int (nw s + 1)) \/
   (additionalIn <> [] /\ nw s' = wrap_int (wrap_int (nw s + 1) + 1))) /\
  exists h, c s' = Some h.
Proof.
  intros Hrun.
  apply Generate_inv in Hrun
    as [Hret | (Hv & [Hret | (s1 & dup & buf & out1 & Hsq &
           [Hret | (dup2 & nq & start & offset & b & Hrp & Hwin & Hrm)])])].
  - destruct (Generate_validate_cases (E:=E) s out additionalIn)
      as [(_ & msg & Hv) | [(_ & _ & msg & args & Hv) | (_ & _ & _ & Hv)]];
      congruence.
  - apply Generate_squeeze_return in Hret as (msg & e0 & [= ] & _).
  - apply Generate_replay_return in Hret as (msg & e0 & [= ] & _).
  - apply Generate_squeeze_next in Hsq as (Hrate & Hsl & Hc & Hnw & _).
    apply Generate_replay_next in Hrp as (Hpos & _).
    apply Generate_window_inv in Hwin as (_ & _ & _ & Hb).
    destruct Hrm as [Hrm | Hrm];
      apply (Generate_remix_inv _ _ _ _ _ _ Hb) in Hrm
        as [(msg & msg' & args & e0 & [= ]) | (d & [= ])].
    subst s'. cbn [rate seedLen counter nw c].
    rewrite <- Hrate, <- Hsl, <- Hc.
    repeat (split; [lia || reflexivity |]).
    split; [| eauto].
    destruct Hnw as [(Hin & ->) | (Hin & ->)]; auto.
Qed.

(** A successful [Reset]: [nw] restarts and counts the seed. *)
Lemma PRNG_Reset_success (s s' : ShakePRNG H) (seed : list byte) :
  PRNG_Reset (E:=E) s seed = Val (s', None) ->
  counter s' = 0 /\
  ((seed = [] /\ nw s' = 0) \/ (seed <> [] /\ nw s' = 1)).
Proof.
  unfold PRNG_Reset. destruct (c s) as [h |]; [| intros [= ]].
  intros Hre. apply Reseed_success in Hre as (_ & Hc & _ & _ & Hnw).
  split; [exact Hc |].
  cbn [nw set_nw set_c] in Hnw.
  destruct Hnw as [(Hs & -> & _) | (Hs & -> & _)]; auto.
Qed.

(** C4 as the program has it. [nw] counts the successful pre-padded
    absorbs: a successful [Reseed] sets the counter to zero and adds one to
    [nw] (it leaves [nw] as it is only for an empty seed, which an engine
    with [seedLen >= 2] refuses); a successful [Generate] adds one, or two
    when there is additional input; and [Reset] sets [nw] to zero before it
    reseeds, so that [nw] is one after a successful [Reset]. *)
Theorem nw_counts_absorbs (s : ShakePRNG H) (Hnw : 0 <= nw s < 2 ^ 62) :
  (forall seed s',
      Reseed (E:=E) s seed = Val (s', None) ->
      counter s' = 0 /\
      (seed <> [] -> nw s' = nw s + 1) /\
      (seed = [] -> nw s' = nw s) /\
      (2 <= seedLen s -> nw s' = nw s + 1)) /\
  (forall out additionalIn s' out',
      Generate (E:=E) s out additionalIn = Val (s', out', None) ->
      (additionalIn = [] -> nw s' = nw s + 1) /\
      (additionalIn <> [] -> nw s' = nw s + 2)) /\
  (forall seed s',
      PRNG_Reset (E:=E) s seed = Val (s', None) ->
      counter s' = 0 /\
      (seed <> [] -> nw s' = 1) /\
      (2 <= seedLen s -> nw s' = 1)).
Proof.
  assert (H1 : wrap_int (nw s + 1) = nw s + 1) by (apply wrap_int_id; lia).
  assert (H2 : wrap_int (nw s + 1 + 1) = nw s + 2)
    by (rewrite wrap_int_id by lia; lia).
  split; [| split].
  - intros seed s' Hre.
    apply Reseed_success in Hre as (Hrange & Hc & _ & _ & Hcase).
    split; [exact Hc |].
    assert (Hlong : 2 <= seedLen s -> seed <> []).
    { intros Hsl ->. unfold len in Hrange. cbn in Hrange.
      assert (1 <= Z.quot (seedLen s) 2); [| lia].
      rewrite Z.quot_div_nonneg by lia.
      apply Z.div_le_lower_bound; lia. }
    destruct Hcase as [(-> & Hn & _) | (Hne & Hn & _)].
    + repeat split; [congruence | auto | intros Hsl; elim (Hlong Hsl); reflexivity].
    + rewrite H1 in Hn. repeat split; [auto | congruence | auto].
  - intros out additionalIn s' out' Hrun.
    apply Generate_success in Hrun as (_ & _ & _ & _ & Hcase & _).
    rewrite H1, H2 in Hcase.
    destruct Hcase as [(-> & ->) | (Hne & ->)]; split; congruence.
  - intros seed s' Hre.
    pose proof Hre as Hre'.
    apply PRNG_Reset_success in Hre as (Hc & Hcase).
    split; [exact Hc |].
    assert (Hlong : 2 <= seedLen s -> seed <> []).
    { intros Hsl ->. unfold PRNG_Reset in Hre'.
      destruct (c s); [| discriminate Hre'].
      apply Reseed_success in Hre' as (Hrange & _).
      cbn [seedLen set_nw set_c] in Hrange.
      unfold len in Hrange. cbn in Hrange.
      assert (1 <= Z.quot (seedLen s) 2); [| lia].
      rewrite Z.quot_div_nonneg by lia.
      apply Z.div_le_lower_bound; lia. }
    destruct Hcase as [(-> & Hn) | (Hne & Hn)].
    + split; [congruence | intros Hsl; elim (Hlong Hsl); reflexivity].
    + auto.
Qed.

End NwFacts.

(** ** Destroy *)

Section DestroyFacts.

Context {H E : Type} `{HashOps : ShakeHash H E}.

Lemma Destroy_live (s : ShakePRNG H) (h : H) :
  c s = Some h -> Destroy s = Val destroyed.
Proof. unfold Destroy. intros ->. reflexivity. Qed.

Lemma Destroy_destroyed : Destroy (H:=H) destroyed = Fault.
Proof. reflexivity. Qed.

(** [Generate] on a destroyed engine: the length checks still answer; past
    them the nil context is called. *)
Lemma Generate_destroyed (out additionalIn : list byte) :
  (len out = 0 \/ 2 ^ 32 < len out \/ 2 ^ 32 < len additionalIn ->
   exists e : error E,
     Generate destroyed out additionalIn = Val (destroyed, out, Some e) /\
     IsValidationError e = true) /\
  (1 <= len out <= 2 ^ 32 -> len additionalIn <= 2 ^ 32 ->
   Generate (E:=E) destroyed out additionalIn = Fault).
Proof.
  destruct (Generate_validate_cases (H:=H) (E:=E) destroyed out additionalIn)
    as [(Hc & _) | [(_ & Hbad & msg & args & Hv) | (_ & Hlo & Hli & Hv)]].
  - cbn in Hc. lia.
  - split; [| lia].
    intros _. eexists. unfold Generate. rewrite Hv. split; reflexivity.
  - split; [lia |].
    intros _ _. unfold Generate. rewrite Hv. cbn [andThen].
    unfold Generate_squeeze. cbn [c destroyed].
    unfold writeWithPad.
    destruct (len additionalIn =? 0); reflexivity.
Qed.

(** [Reseed] on a destroyed engine. *)
Lemma Reseed_destroyed (seed : list byte) :
  (2 ^ 32 < len seed ->
   exists e : error E,
     Reseed destroyed seed = Val (destroyed, Some e) /\
     IsValidationError e = true) /\
  (1 <= len seed <= 2 ^ 32 -> Reseed (E:=E) destroyed seed = Fault) /\
  (seed = [] -> Reseed (E:=E) destroyed seed = Val (destroyed, None)).
Proof.
  destruct (Reseed_cases (H:=H) (E:=E) destroyed seed)
    as [(Hbad & msg & args & Hre) | (Hrange & Hre)].
  - cbn in Hbad. pose proof (len_nonneg seed).
    split; [| split].
    + intros _. eexists. rewrite Hre. split; reflexivity.
    + lia.
    + intros ->. unfold len in Hbad. cbn in Hbad. lia.
  - split; [lia |]. split.
    + intros Hl. rewrite Hre. cbn [c destroyed]. unfold writeWithPad.
      replace (len seed =? 0) with false by (symmetry; apply Z.eqb_neq; lia).
      reflexivity.
    + intros ->. reflexivity.
Qed.

(** C3 as the program has it. [Destroy] on an engine that has a context
    returns; afterwards the context reference is nil and [rate], [seedLen],
    [counter] and [nw] are zero. A second [Destroy] faults on the nil
    context. On the destroyed engine [Generate] answers the length checks
    with a validation error and faults past them, and [Reseed] answers a
    seed above [2^32] bytes with a validation error and faults on a seed of
    1 to [2^32] bytes. *)
Theorem Destroy_clears_then_faults (s : ShakePRNG H) (h : H) (Hc : c s = Some h) :
  exists s1,
    Destroy s = Val s1 /\
    c s1 = None /\ rate s1 = 0 /\ seedLen s1 = 0 /\ counter s1 = 0 /\ nw s1 = 0 /\
    Destroy s1 = Fault /\
    (forall out additionalIn,
        (len out = 0 \/ 2 ^ 32 < len out \/ 2 ^ 32 < len additionalIn ->
         exists e : error E,
           Generate s1 out additionalIn = Val (s1, out, Some e) /\
           IsValidationError e = true) /\
        (1 <= len out <= 2 ^ 32 -> len additionalIn <= 2 ^ 32 ->
         Generate (E:=E) s1 out additionalIn = Fault)) /\
    (forall seed,
        (2 ^ 32 < len seed ->
         exists e : error E,
           Reseed s1 seed = Val (s1, Some e) /\ IsValidationError e = true) /\
        (1 <= len seed <= 2 ^ 32 -> Reseed (E:=E) s1 seed = Fault)).
Proof.
  exists destroyed.
  split; [eapply Destroy_live; exact Hc |].
  repeat (split; [reflexivity |]).
  split; [intros out additionalIn; apply Generate_destroyed |].
  intros seed. destruct (Reseed_destroyed seed) as (H1 & H2 & _). auto.
Qed.

End DestroyFacts.

(** ** Determinism *)

Section Determinism.

Context {H E : Type} `{HashOps : ShakeHash H E}.

Lemma destroyAndReturn_agree {A : Type} (s : ShakePRNG H) (o1 o2 : list byte)
  (e : error E) (format : string) :
  (destroyAndReturn (A:=A) s o1 e format = Fault /\
   destroyAndReturn (A:=A) s o2 e format = Fault) \/
  (exists e',
      destroyAndReturn (A:=A) s o1 e format = Val (Return (destroyed, o1, Some e')) /\
      destroyAndReturn (A:=A) s o2 e format = Val (Return (destroyed, o2, Some e'))).
Proof.
  unfold destroyAndReturn, Destroy.
  destruct (c s); cbn [bind]; [right; eauto | left; auto].
Qed.

Lemma destroyAndReturn_stage {A : Type} (s : ShakePRNG H) (o1 o2 : list byte)
  (e : error E) (format : string) :
  stage_agree (destroyAndReturn (A:=A) s o1 e format)
              (destroyAndReturn (A:=A) s o2 e format) o1 o2.
Proof.
  destruct (destroyAndReturn_agree (A:=A) s o1 o2 e format)
    as [(-> & ->) | (e' & -> & ->)]; [left; auto | right; left; eauto].
Qed.

Lemma Generate_validate_agree (s : ShakePRNG H) (o1 o2 additionalIn : list byte) :
  length o1 = length o2 ->
  stage_agree (Generate_validate (E:=E) s o1 additionalIn)
              (Generate_validate (E:=E) s o2 additionalIn) o1 o2.
Proof.
  intros Hlen. unfold Generate_validate, len. rewrite Hlen.
  destruct (NeedReseed s); [right; left; eauto |].
  destruct (_ >? _); [right; left; eauto |].
  destruct (_ =? _); [right; left; eauto |].
  destruct (_ >? _); [right; left; eauto |].
  right; right; eauto.
Qed.

Lemma Generate_replay_agree (s : ShakePRNG H) (dup : H) (buf o1 o2 : list byte) :
  stage_agree (Generate_replay s dup buf o1) (Generate_replay s dup buf o2) o1 o2.
Proof.
  unfold Generate_replay.
  destruct (Write dup _) as [| [dup1 [e1 |]]]; cbn [bind];
    [left; auto | apply destroyAndReturn_stage |].
  destruct (rate s =? 0); [left; auto |].
  destruct (rate s <? 0); [left; auto |].
  destruct (Generate_replay_loop _ _ _ _) as [| [[dup3 nq3] [e3 |]]]; cbn [bind];
    [left; auto | apply destroyAndReturn_stage | right; right; eauto].
Qed.

(** The last stage hands [out] on as it got it. *)
Lemma Generate_remix_agree (s : ShakePRNG H) (dup : H) (o1 o2 b : list byte)
  (start : Z) :
  (Generate_remix s dup o1 start b = Fault /\
   Generate_remix s dup o2 start b = Fault) \/
  (exists s' e,
      Generate_remix s dup o1 start b = Val (Return (s', o1, Some e)) /\
      Generate_remix s dup o2 start b = Val (Return (s', o2, Some e))) \/
  (exists s',
      Generate_remix s dup o1 start b = Val (Next (s', o1, None)) /\
      Generate_remix s dup o2 start b = Val (Next (s', o2, None))).
Proof.
  unfold Generate_remix.
  destruct (writeWithPad _ _ _ _) as [| [[s0 d] [e |]]]; cbn [bind];
    [left; auto | |].
  - unfold destroyAndReturn, Destroy.
    destruct (c s0); cbn [bind]; [right; left; eauto | left; auto].
  - destruct (c s0); [right; right; eauto | left; auto].
Qed.

(** [Generate] reads of [out] nothing but its length. *)
Lemma Generate_agree (s : ShakePRNG H) (o1 o2 additionalIn : list byte) :
  length o1 = length o2 ->
  agree (Generate s o1 additionalIn) (Generate s o2 additionalIn).
Proof.
  intros Hlen. unfold Generate.
  destruct (Generate_validate_agree s o1 o2 additionalIn Hlen)
    as [(-> & ->) | [(s' & e & -> & ->) | ([] & Hv1 & Hv2)]];
    cbn [andThen finish agree]; [exact I | split; [| split]; auto; discriminate |].
  rewrite Hv1, Hv2. cbn [andThen].
  destruct (Generate_squeeze s o1 additionalIn)
    as [| [r1 | [[[s1 dup] buf] out1]]] eqn:Hsq1.
  - (* the first call faults in the squeeze: so does the second *)
    revert Hsq1. unfold Generate_squeeze, len. rewrite Hlen.
    destruct (writeWithPad _ _ _ _) as [| [[s0 h] [e |]]]; cbn [bind].
    + intros _. exact I.
    + unfold destroyAndReturn, Destroy.
      destruct (c _); cbn [bind]; [intros [= ] | intros _; exact I].
    + destruct (c _); [| intros _; exact I].
      destruct (_ =? 0); [intros _; exact I |].
      destruct (_ <? 0); [intros _; exact I |].
      destruct (Read _ _) as [| [[h1 data] [e |]]]; cbn [bind];
        [intros _; exact I | | intros [= ]].
      unfold destroyAndReturn, Destroy.
      destruct (c _); cbn [bind]; [intros [= ] | intros _; exact I].
  - (* the first call returns from the squeeze *)
    revert Hsq1. unfold Generate_squeeze, len. rewrite Hlen.
    destruct (writeWithPad _ _ _ _) as [| [[s0 h] [e |]]]; cbn [bind].
    + intros [= ].
    + unfold destroyAndReturn, Destroy.
      destruct (c _); cbn [bind]; [| intros [= ]].
      intros [= <-]. cbn [andThen finish agree].
      split; [| split]; auto; discriminate.
    + destruct (c _); [| intros [= ]].
      destruct (_ =? 0); [intros [= ] |].
      destruct (_ <? 0); [intros [= ] |].
      destruct (Read _ _) as [| [[h1 data] [e |]]]; cbn [bind];
        [intros [= ] | | intros [= ]].
      unfold destroyAndReturn, Destroy.
      destruct (c _); cbn [bind]; [| intros [= ]].
      intros [= <-]. cbn [andThen finish agree].
      split; [| split]; auto; discriminate.
  - (* the first call goes on: the second goes on with the same locals *)
    pose proof (Generate_squeeze_next _ _ _ _ _ _ _ Hsq1)
      as (Hrate & _ & _ & _ & _ & _ & Hbuf & Hout1 & _).
    assert (Hsq2 : Generate_squeeze s o2 additionalIn
                   = Val (Next (s1, dup, buf, copy o2 buf))).
    { revert Hsq1. unfold Generate_squeeze, len. rewrite Hlen.
      destruct (writeWithPad _ _ _ _) as [| [[s0 h] [e |]]]; cbn [bind].
      - intros [= ].
      - intros Hd. apply destroyAndReturn_inv in Hd as [_ [= ]].
      - destruct (c _); [| intros [= ]].
        destruct (_ =? 0); [intros [= ] |].
        destruct (_ <? 0); [intros [= ] |].
        destruct (Read _ _) as [| [[h1 data] [e |]]]; cbn [bind];
          [intros [= ] | |].
        + intros Hd. apply destroyAndReturn_inv in Hd as [_ [= ]].
        + intros [= <- <- <- _]. reflexivity. }
    rewrite Hsq2. cbn [andThen]. subst out1.
    destruct (Generate_replay_agree s1 dup buf (copy o1 buf) (copy o2 buf))
      as [(-> & ->) | [(s' & e & -> & ->) | ([dup2 nq] & Hrp1 & Hrp2)]];
      cbn [andThen finish agree]; [exact I | split; [| split]; auto; discriminate |].
    rewrite Hrp1, Hrp2. cbn [andThen].
    destruct (Generate_window s1 buf nq) as [| [[start offset] b]]; cbn [bind finish agree];
      [exact I |].
    apply Generate_replay_next in Hrp1 as (Hpos & _).
    assert (Hcopy : copy o1 buf = copy o2 buf).
    { destruct (scratchLen_covers (len o1) (rate s) (len_nonneg o1) ltac:(lia))
        as (Hcov & _).
      rewrite <- Hbuf in Hcov. unfold len in Hcov.
      rewrite !copy_covered by lia. rewrite Hlen. reflexivity. }
    destruct (Generate_remix_agree s1 dup2 (copy o1 buf) (copy o2 buf) b start)
      as [(-> & ->) | [(s' & e & -> & ->) | (s' & -> & ->)]];
      cbn [finish agree]; [exact I | split; [| split]; auto; discriminate |].
    auto.
Qed.

Lemma GenerateMany_agree (s : ShakePRNG H) (reqs1 reqs2 : list (list byte * list byte)) :
  Forall2 sameRequest reqs1 reqs2 ->
  (GenerateMany (E:=E) s reqs1 = Fault /\ GenerateMany (E:=E) s reqs2 = Fault) \/
  (exists resps1 resps2,
      GenerateMany s reqs1 = Val resps1 /\
      GenerateMany s reqs2 = Val resps2 /\
      Forall2 sameResponse resps1 resps2).
Proof.
  intros Hreqs. revert s.
  induction Hreqs as [| [o1 a1] [o2 a2] reqs1 reqs2 [Hlen Hin] _ IH]; intros s.
  - right. exists [], []. cbn. auto.
  - cbn in Hlen, Hin. subst a2. cbn [GenerateMany].
    pose proof (Generate_agree s o1 o2 a1 Hlen) as Hag. unfold agree in Hag.
    destruct (Generate s o1 a1) as [| [[s1 o1'] e1]];
      destruct (Generate s o2 a1) as [| [[s2 o2'] e2]];
      try contradiction; cbn [bind]; [left; auto |].
    destruct Hag as (<- & <- & Hout).
    destruct (IH s1) as [(-> & ->) | (r1 & r2 & -> & -> & Hall)]; cbn [bind];
      [left; auto |].
    right. exists ((o1', e1) :: r1), ((o2', e1) :: r2).
    repeat split; auto.
    constructor; [split; auto | exact Hall].
Qed.

End Determinism.

(** C8. Two engines made by [NewShakeDRBG] from the same strength and the
    same seed, and driven by two sequences of [Generate] calls whose
    buffers have the same lengths and whose additional inputs are equal,
    behave alike whatever the buffers held before: both runs fault at the
    same call, or every call returns the same error in both and, when it
    succeeds, the same output bytes. *)
Theorem Generate_deterministic {H E : Type} `{HashOps : ShakeHash H E}
  `{HashNew : ShakeNew H} (bits : Z) (seed : list byte) (s1 s2 : ShakePRNG H)
  (reqs1 reqs2 : list (list byte * list byte))
  (Hnew1 : NewShakeDRBG (E:=E) bits seed = Val (Some s1, None))
  (Hnew2 : NewShakeDRBG (E:=E) bits seed = Val (Some s2, None))
  (Hreqs : Forall2 sameRequest reqs1 reqs2) :
  (GenerateMany (E:=E) s1 reqs1 = Fault /\ GenerateMany (E:=E) s2 reqs2 = Fault) \/
  (exists resps1 resps2,
      GenerateMany s1 reqs1 = Val resps1 /\
      GenerateMany s2 reqs2 = Val resps2 /\
      Forall2 sameResponse resps1 resps2).
Proof.
  assert (Hs : s1 = s2) by congruence.
  subst s2. apply GenerateMany_agree. exact Hreqs.
Qed.

(** ** Creation *)

Section Creation.

Context {H E : Type} `{HashOps : ShakeHash H E} `{HashNew : ShakeNew H}.

(** The engine [NewShakeDRBG] returns. *)
Lemma NewShakeDRBG_success (bits : Z) (seed : list byte) (s : ShakePRNG H) :
  NewShakeDRBG (E:=E) bits seed = Val (Some s, None) ->
  ((bits = 128 /\ rate s = rate128 /\ seedLen s = 32) \/
   (bits = 256 /\ rate s = rate256 /\ seedLen s = 64)) /\
  counter s = 0 /\ nw s = 1 /\ (exists h, c s = Some h) /\
  Z.quot (seedLen s) 2 <= len seed <= 2 ^ 32.
Proof.
  unfold NewShakeDRBG.
  assert (Hinit : forall s0 : ShakePRNG H,
             2 <= seedLen s0 ->
             ('(drbg, e) <- PRNG_Reset (E:=E) s0 seed ;;
              match e with
              | Some e1 =>
                  Val (None, Some (WrapTraceableErrorf (Some e1)
                                     "failed to initialize the SHAKE%d DRBG" [bits]))
              | None => Val (Some drbg, None)
              end) = Val (Some s, None) ->
             rate s = rate s0 /\ seedLen s = seedLen s0 /\
             counter s = 0 /\ nw s = 1 /\ (exists h, c s = Some h) /\
             Z.quot (seedLen s) 2 <= len seed <= 2 ^ 32).
  { intros s0 Hsl.
    destruct (PRNG_Reset s0 seed) as [| [s' [e |]]] eqn:Hrs; cbn [bind];
      [intros [= ] | intros [= ] | intros [= ->]].
    unfold PRNG_Reset in Hrs. destruct (c s0) as [h0 |]; [| discriminate Hrs].
    apply Reseed_success in Hrs as (Hrange & Hc & Hr & Hs & Hcase).
    cbn [rate seedLen nw c set_nw set_c] in *.
    rewrite Hs.
    assert (Hne : seed <> []).
    { intros ->. unfold len in Hrange. cbn in Hrange.
      assert (1 <= Z.quot (seedLen s0) 2); [| lia].
      rewrite Z.quot_div_nonneg by lia.
      apply Z.div_le_lower_bound; lia. }
    destruct Hcase as [(Hnil & _) | (_ & Hn & Hh)]; [contradiction |].
    repeat split; auto; lia. }
  destruct (bits =? 128) eqn:H128.
  { apply Z.eqb_eq in H128. intros Hrun.
    apply Hinit in Hrun; [| cbn; unfold RecommendedKMAC128KeyTagSize; lia].
    cbn [rate seedLen] in Hrun. tauto. }
  destruct (bits =? 256) eqn:H256; [| intros [= ]].
  apply Z.eqb_eq in H256. intros Hrun.
  apply Hinit in Hrun; [| cbn; unfold RecommendedKMAC256KeyTagSize; lia].
  cbn [rate seedLen] in Hrun. tauto.
Qed.

End Creation.

(** ** Reading the checks *)

Lemma returnsOk_inv {A E : Type} (m : fault (A * option E)) :
  returnsOk m = true -> exists a, m = Val (a, None).
Proof.
  destruct m as [| [a [e |]]]; cbn; try discriminate. eauto.
Qed.

Lemma isNext_inv {R A : Type} (m : fault (step R A)) :
  isNext m = true -> exists a, m = Val (Next a).
Proof.
  destruct m as [| [r | a]]; cbn; try discriminate. eauto.
Qed.

Lemma isVal_inv {A : Type} (m : fault A) :
  isVal m = true -> exists a, m = Val a.
Proof.
  destruct m as [| a]; cbn; try discriminate. eauto.
Qed.

Lemma withEngine_inv {H E : Type}
  (m : fault (option (ShakePRNG H) * option (error E)))
  (k : ShakePRNG H -> bool) :
  withEngine m k = true -> exists s, m = Val (Some s, None) /\ k s = true.
Proof.
  destruct m as [| [[s |] [e |]]]; cbn; try discriminate. eauto.
Qed.

Lemma list_eqb_refl {A : Type} (eqb : A -> A -> bool) (l : list A) :
  (forall x, eqb x x = true) -> list_eqb eqb l l = true.
Proof.
  intros Hx. induction l as [| x l IH]; [reflexivity |].
  cbn. rewrite Hx, IH. reflexivity.
Qed.

Lemma sameOutputs_refl (x : fault (list (list byte))) : sameOutputs x x = true.
Proof.
  destruct x as [| l]; [reflexivity |].
  cbn. apply list_eqb_refl. intros b.
  apply list_eqb_refl. apply Z.eqb_refl.
Qed.

(** ** The run of main.go *)

Lemma main_created : withEngine main_drbg (fun _ => true) = true.
Proof. vm_compute. reflexivity. Qed.

(** The engine main.go works on. *)
Lemma main_engine :
  exists s,
    main_drbg = Val (Some s, None) /\
    rate s = 136 /\ seedLen s = 64 /\ counter s = 0 /\ nw s = 1.
Proof.
  destruct (withEngine_inv _ _ main_created) as (s & Hnew & _).
  exists s. split; [exact Hnew |].
  apply NewShakeDRBG_success in Hnew
    as ([([= ] & _) | (_ & Hr & Hs)] & Hc & Hn & _).
  auto.
Qed.

(** The checks of [Generate] pass on the buffer and the additional input
    of main.go. *)
Lemma main_validate {H E : Type} (s : ShakePRNG H) :
  counter s = 0 ->
  Generate_validate (E:=E) s main_buf main_additionalIn = Val (Next tt).
Proof.
  intros Hc.
  assert (Hb : len main_buf = 150) by reflexivity.
  assert (Ha : len main_additionalIn = 8) by reflexivity.
  destruct (Generate_validate_cases (E:=E) s main_buf main_additionalIn)
    as [(Hgt & _) | [(_ & Hbad & _) | (_ & _ & _ & Hv)]]; [lia | lia | exact Hv].
Qed.

Lemma main_squeeze_check :
  withEngine main_drbg
    (fun s => isNext (Generate_squeeze s main_buf main_additionalIn)) = true.
Proof. vm_compute. reflexivity. Qed.

(** The run of main.go up to the read of its first [Generate] call. *)
Lemma main_squeeze :
  exists s s1 dup buf out1,
    main_drbg = Val (Some s, None) /\
    rate s = 136 /\
    Generate_validate (E:=Empty_set) s main_buf main_additionalIn = Val (Next tt) /\
    Generate_squeeze s main_buf main_additionalIn = Val (Next (s1, dup, buf, out1)) /\
    len buf = 271.
Proof.
  destruct main_engine as (s & Hnew & Hr & _ & Hc & _).
  pose proof main_squeeze_check as Hck.
  rewrite Hnew in Hck. cbv beta iota delta [withEngine] in Hck.
  apply isNext_inv in Hck as ([[[s1 dup] buf] out1] & Hsq).
  exists s, s1, dup, buf, out1.
  split; [exact Hnew |]. split; [exact Hr |].
  split; [apply main_validate; exact Hc |]. split; [exact Hsq |].
  pose proof (Generate_squeeze_next _ _ _ _ _ _ _ Hsq)
    as (_ & _ & _ & _ & _ & _ & Hlen & _).
  rewrite Hlen, Hr. reflexivity.
Qed.

Lemma main_generate_check :
  withEngine main_drbg
    (fun s => returnsOk (Generate s main_buf main_additionalIn)) = true.
Proof. vm_compute. reflexivity. Qed.

(** The first [Generate] call of main.go succeeds. *)
Lemma main_generate :
  exists s s' out',
    main_drbg = Val (Some s, None) /\
    rate s = 136 /\ counter s = 0 /\
    Generate (E:=Empty_set) s main_buf main_additionalIn = Val (s', out', None).
Proof.
  destruct main_engine as (s & Hnew & Hr & _ & Hc & _).
  pose proof main_generate_check as Hck.
  rewrite Hnew in Hck. cbv beta iota delta [withEngine] in Hck.
  apply returnsOk_inv in Hck as ([s' out'] & Hrun).
  exists s, s', out'. auto.
Qed.

Lemma main_reseed_reset_check :
  withEngine main_drbg
    (fun s =>
       match Reseed s main_seed with
       | Val (s1, None) => returnsOk (PRNG_Reset s1 main_seed)
       | _ => false
       end) = true.
Proof. vm_compute. reflexivity. Qed.

(** The engine of main.go, reseeded and then reset with the seed of
    main.go. *)
Lemma main_reseed_reset :
  exists s s1 s2,
    main_drbg = Val (Some s, None) /\
    nw s = 1 /\ 2 <= seedLen s /\
    Reseed (E:=Empty_set) s main_seed = Val (s1, None) /\
    nw s1 = 2 /\ 2 <= seedLen s1 /\
    PRNG_Reset (E:=Empty_set) s1 main_seed = Val (s2, None).
Proof.
  destruct main_engine as (s & Hnew & _ & Hsl & _ & Hn).
  pose proof main_reseed_reset_check as Hck.
  rewrite Hnew in Hck. cbv beta iota delta [withEngine] in Hck.
  destruct (Reseed s main_seed) as [| [s1 [e |]]] eqn:Hre; try discriminate Hck.
  apply returnsOk_inv in Hck as (s2 & Hrs).
  exists s, s1, s2.
  pose proof (Reseed_success _ _ _ Hre) as (_ & _ & _ & Hsl1 & Hcase).
  assert (Hn1 : nw s1 = 2).
  { destruct Hcase as [([= ] & _) | (_ & Hn1 & _)].
    rewrite Hn1, Hn. reflexivity. }
  repeat split; auto; lia.
Qed.

Lemma main_reseed32_check :
  withEngine main_drbg (fun s => returnsOk (Reseed s (zeros 32))) = true.
Proof. vm_compute. reflexivity. Qed.

Lemma main_two_calls_check :
  withEngine main_drbg (fun s => isVal (GenerateMany s main_requests)) = true.
Proof. vm_compute. reflexivity. Qed.

Lemma writeWithPad_check :
  returnsOk
    (writeWithPad (engine256 0 7) (Some Sponge.NewShake256) [1; 2; 3] 5) = true.
Proof. vm_compute. reflexivity. Qed.

(** ** cSHAKE with empty function name and customization *)

(** Operations on a cSHAKE context are operations on the sponge in it. *)
Lemma runOps_cshake (cs : Sponge.cshakeState) (ops : list hashOp) :
  runOps cshake_op cs ops = runOps shake_op (Sponge.cs_state cs) ops.
Proof.
  revert cs. induction ops as [| op ops IH]; intros cs; [reflexivity |].
  cbn [runOps]. destruct op as [p | n]; cbn [cshake_op shake_op].
  - unfold Sponge.cshake_Write.
    destruct (Sponge.state_Write (Sponge.cs_state cs) p) as [| [st e]];
      cbn [bind]; [reflexivity |].
    rewrite IH. reflexivity.
  - unfold Sponge.cshake_Read.
    destruct (Sponge.state_Read (Sponge.cs_state cs) n) as [| [[st out] e]];
      cbn [bind]; [reflexivity |].
    rewrite IH. reflexivity.
Qed.

(** The block absorbed for empty [N] and [S] changes the lanes. *)
Lemma frameLanes_check128 :
  match frameLanes rate128 with
  | Val (lanes, []) => negb (list_eqb Z.eqb lanes (repeat 0 25))
  | _ => false
  end = true.
Proof. vm_compute. reflexivity. Qed.

Lemma frameLanes_check256 :
  match frameLanes rate256 with
  | Val (lanes, []) => negb (list_eqb Z.eqb lanes (repeat 0 25))
  | _ => false
  end = true.
Proof. vm_compute. reflexivity. Qed.

Lemma frameLanes_changed (r : Z) :
  r = rate128 \/ r = rate256 ->
  exists lanes, frameLanes r = Val (lanes, []) /\ lanes <> repeat 0 25.
Proof.
  intros [-> | ->].
  - pose proof frameLanes_check128 as Hck.
    destruct (frameLanes rate128) as [| [lanes [| x rest]]]; try discriminate Hck.
    exists lanes. split; [reflexivity |].
    intros ->. discriminate Hck.
  - pose proof frameLanes_check256 as Hck.
    destruct (frameLanes rate256) as [| [lanes [| x rest]]]; try discriminate Hck.
    exists lanes. split; [reflexivity |].
    intros ->. discriminate Hck.
Qed.

(** [newCShake] with empty [N] and [S]: the [initBlock] and the block that
    is written. *)
Lemma newCShake_empty_unfold (r : Z) (d : byte) :
  r = rate128 \/ r = rate256 ->
  Sponge.newCShake [] [] r d =
    ('(st, _) <- Sponge.state_Write (Sponge.newState r d) (emptyFrame r) ;;
     Val (Sponge.mkCshakeState st [1; 0; 1; 0])).
Proof.
  intros [-> | ->]; reflexivity.
Qed.

(** C2 as the program has it. At both rates and for any domain byte [d],
    [newCShake] with empty [N] and [S] keeps [01 00 01 00] as its
    [initBlock] and absorbs one block, [01 r 01 00 01 00] and zeros, into a
    sponge of rate [r] and domain byte [d]; whatever the operations, the
    context gives the outputs of a plain context of that rate and domain
    byte into which this block is written first. It is not the fresh plain
    context: its lanes are not zero. *)
Theorem newCShake_empty_absorbs_frame (r : Z) (d : byte)
  (Hr : r = rate128 \/ r = rate256) :
  exists cs st,
    Sponge.newCShake [] [] r d = Val cs /\
    Sponge.initBlock cs = [1; 0; 1; 0] /\
    Sponge.cs_state cs = st /\
    Sponge.state_Write (Sponge.newState r d) (emptyFrame r) = Val (st, None) /\
    Sponge.dsbyte st = d /\ Sponge.rate st = r /\
    Sponge.a st <> Sponge.a (Sponge.newState r d) /\
    forall ops,
      runOps cshake_op cs ops
      = runOps shake_op (Sponge.newState r d) (OpWrite (emptyFrame r) :: ops).
Proof.
  destruct (frameLanes_changed r Hr) as (lanes & Hlanes & Hne).
  assert (Hw : Sponge.state_Write (Sponge.newState r d) (emptyFrame r)
               = Val (Sponge.mkState lanes [] r d Sponge.spongeAbsorbing, None)).
  { unfold Sponge.state_Write.
    cbn [Sponge.direction Sponge.newState Sponge.rate Sponge.buf Sponge.a Sponge.dsbyte].
    replace (r <=? 0) with false by (destruct Hr as [-> | ->]; reflexivity).
    fold (frameLanes r). rewrite Hlanes. reflexivity. }
  exists (Sponge.mkCshakeState (Sponge.mkState lanes [] r d Sponge.spongeAbsorbing)
            [1; 0; 1; 0]),
         (Sponge.mkState lanes [] r d Sponge.spongeAbsorbing).
  split.
  { rewrite (newCShake_empty_unfold r d Hr), Hw. reflexivity. }
  repeat (split; [reflexivity || exact Hw |]).
  split; [exact Hne |].
  intros ops. rewrite runOps_cshake.
  cbn [runOps shake_op Sponge.cs_state]. rewrite Hw. cbn [bind].
  destruct (runOps shake_op _ ops); reflexivity.
Qed.

Lemma newCShake_empty_absorbs_frame_witness :
  exists cs,
    Sponge.newCShake [] [] rate128 dsbyteCShake = Val cs /\
    runOps cshake_op cs [OpRead 4]
    = runOps shake_op (Sponge.newState rate128 dsbyteCShake)
        [OpWrite (emptyFrame rate128); OpRead 4].
Proof.
  destruct (newCShake_empty_absorbs_frame rate128 dsbyteCShake (or_introl eq_refl))
    as (cs & st & Hnew & _ & _ & _ & _ & _ & _ & Hops).
  exists cs. split; [exact Hnew | apply Hops].
Defined.

Lemma cshake_differs_check (d : byte) :
  d = dsbyteShake \/ d = dsbyteCShake ->
  match Sponge.newCShake [] [] rate128 d with
  | Val cs =>
      negb (sameOutputs
              (runOps cshake_op cs [OpRead 16])
              (runOps shake_op (Sponge.newState rate128 dsbyteShake) [OpRead 16]))
  | Fault => true
  end = true.
Proof. intros [-> | ->]; vm_compute; reflexivity. Qed.

(** C2 as worded fails at rate 168, with either domain byte: the first 16
    bytes read from the context [newCShake] builds from empty [N] and [S]
    are not the first 16 bytes of SHAKE128. *)
Lemma cshake_empty_counterexample :
  ~ cshake_empty_is_shake dsbyteShake /\ ~ cshake_empty_is_shake dsbyteCShake.
Proof.
  split; intros Hclaim;
    destruct (Hclaim rate128 (or_introl eq_refl) [OpRead 16]) as (cs & Hnew & Hout).
  - pose proof (cshake_differs_check dsbyteShake (or_introl eq_refl)) as Hck.
    rewrite Hnew, Hout, sameOutputs_refl in Hck. discriminate Hck.
  - pose proof (cshake_differs_check dsbyteCShake (or_intror eq_refl)) as Hck.
    rewrite Hnew, Hout, sameOutputs_refl in Hck. discriminate Hck.
Qed.

(** The first bytes of SHAKE128 and SHAKE256 of the empty message, as
    FIPS 202 gives them: a check of the sponge and of the permutation. *)
Example shake128_empty_message :
  runOps shake_op Sponge.NewShake128 [OpRead 16]
  = Val [[0x7f; 0x9c; 0x2b; 0xa4; 0xe8; 0x8f; 0x82; 0x7d;
          0x61; 0x60; 0x45; 0x50; 0x76; 0x05; 0x85; 0x3e]].
Proof. vm_compute. reflexivity. Qed.

Example shake256_empty_message :
  runOps shake_op Sponge.NewShake256 [OpRead 16]
  = Val [[0x46; 0xb9; 0xdd; 0x2b; 0x0b; 0xa8; 0x8d; 0x13;
          0x23; 0x3b; 0x3f; 0xeb; 0x74; 0x3e; 0xeb; 0x24]].
Proof. vm_compute. reflexivity. Qed.

(** ** Witnesses of the claims *)

Lemma writeWithPad_absorbs_witness :
  exists s' h',
    writeWithPad (engine256 0 7) (Some Sponge.NewShake256) [1; 2; 3] 5
    = Val (s', h', None) /\
    nw s' = 8.
Proof.
  assert (Hp : [1; 2; 3] <> @nil byte) by discriminate.
  assert (Ho : is_byte 5) by (unfold is_byte; lia).
  assert (Hr : 0 < rate (engine256 0 7)) by reflexivity.
  destruct (writeWithPad_absorbs (engine256 0 7) Sponge.NewShake256 [1; 2; 3] 5
              Hp Ho Hr) as (_ & _ & _ & _ & Hnw & _).
  destruct (returnsOk_inv _ writeWithPad_check) as ([s' h'] & Hrun).
  exists s', h'. split; [exact Hrun |].
  apply (Hnw s' h' Hrun); cbn; lia.
Defined.

Lemma Generate_reseed_required_witness :
  NeedReseed (engine256 (2 ^ 48 + 1) 1) = true /\
  exists e,
    Generate (engine256 (2 ^ 48 + 1) 1) [0; 0] [7]
    = Val (engine256 (2 ^ 48 + 1) 1, [0; 0], Some e) /\
    IsErrDRBGReseed e = true.
Proof.
  destruct (Generate_reseed_required (E:=Empty_set) (engine256 (2 ^ 48 + 1) 1)
              [0; 0] [7]) as (Hq & Hrefuse & _).
  split.
  - apply Hq. reflexivity.
  - apply Hrefuse. reflexivity.
Defined.

Lemma Generate_scratch_buffer_witness :
  exists s s1 dup buf out1,
    main_drbg = Val (Some s, None) /\
    Generate_squeeze s main_buf main_additionalIn = Val (Next (s1, dup, buf, out1)) /\
    len buf = 271 /\ out1 = firstn 150 buf.
Proof.
  destruct main_squeeze as (s & s1 & dup & buf & out1 & Hnew & Hr & Hv & Hsq & _).
  exists s, s1, dup, buf, out1.
  split; [exact Hnew |]. split; [exact Hsq |].
  assert (Hpos : 0 < rate s) by lia.
  destruct (Generate_scratch_buffer s s1 main_buf main_additionalIn buf out1 dup
              Hpos Hv Hsq) as (Hlen & _ & Hout & _).
  split; [rewrite Hlen, Hr; reflexivity | exact Hout].
Defined.

(** C1 as worded fails on the run of main.go: the buffer of 150 bytes and
    the rate 136 make the specified length
    [(ceil(150/136) + 1) * 136 - 1 = 407], while the scratch buffer of the
    program has [(floor(150/136) + 1) * 136 - 1 = 271] bytes. *)
Lemma Generate_scratch_ceiling_counterexample :
  ~ (forall (s s1 : ShakePRNG Sponge.state) (out additionalIn buf out1 : list byte)
            (dup : Sponge.state),
        Generate_validate (E:=Empty_set) s out additionalIn = Val (Next tt) ->
        Generate_squeeze s out additionalIn = Val (Next (s1, dup, buf, out1)) ->
        len buf = spec_scratchLen (len out) (rate s)).
Proof.
  intros Hclaim.
  destruct main_squeeze as (s & s1 & dup & buf & out1 & _ & Hrate & Hv & Hsq & Hlen).
  specialize (Hclaim s s1 main_buf main_additionalIn buf out1 dup Hv Hsq).
  rewrite Hlen, Hrate in Hclaim.
  change (len main_buf) with 150 in Hclaim.
  discriminate Hclaim.
Qed.

Lemma Generate_window_in_bounds_witness :
  exists s s1 dup buf out1 dup2 start b,
    main_drbg = Val (Some s, None) /\
    Generate_squeeze s main_buf main_additionalIn = Val (Next (s1, dup, buf, out1)) /\
    Generate_replay s1 dup buf out1 = Val (Next (dup2, 0)) /\
    Generate_window s1 buf 0 = Val (start, start, b).
Proof.
  destruct main_generate as (s & s' & out' & Hnew & Hr & Hc & Hrun).
  assert (Hrate : 26 < rate s) by lia.
  pose proof (main_validate (E:=Empty_set) s Hc) as Hv.
  destruct (Generate_window_in_bounds s main_buf main_additionalIn Hrate Hv)
    as (_ & _ & Hsucc).
  destruct (Hsucc s' out' Hrun)
    as (s1 & dup & buf & out1 & dup2 & start & b & Hsq & Hrp & Hwin).
  exists s, s1, dup, buf, out1, dup2, start, b. auto.
Defined.

(** On the engine of main.go: a seed of 31 bytes is refused and the engine
    is unchanged; a seed of 32 bytes is accepted and the counter is zero. *)
Lemma Reseed_seed_length_witness :
  exists s s' e,
    main_drbg = Val (Some s, None) /\
    Reseed s (zeros 31) = Val (s, Some e) /\ IsValidationError e = true /\
    Reseed s (zeros 32) = Val (s', None) /\ counter s' = 0.
Proof.
  destruct main_engine as (s & Hnew & _ & Hsl & _).
  pose proof main_reseed32_check as Hck.
  rewrite Hnew in Hck. cbv beta iota delta [withEngine] in Hck.
  apply returnsOk_inv in Hck as (s' & Hre).
  destruct (Reseed_seed_length (E:=Empty_set) s (zeros 31)) as (_ & _ & Hrej & _).
  destruct (Hrej Hsl eq_refl) as (e & He & Hv).
  destruct (Reseed_seed_length (E:=Empty_set) s (zeros 32)) as (Hacc & _).
  destruct (Hacc s' Hre) as (_ & Hc).
  exists s, s', e. auto.
Defined.

Lemma nw_counts_absorbs_witness :
  exists s s1 s2,
    main_drbg = Val (Some s, None) /\
    Reseed (E:=Empty_set) s main_seed = Val (s1, None) /\
    counter s1 = 0 /\ nw s1 = nw s + 1 /\
    PRNG_Reset (E:=Empty_set) s1 main_seed = Val (s2, None) /\
    nw s2 = 1.
Proof.
  destruct main_reseed_reset
    as (s & s1 & s2 & Hnew & Hnw & Hsl & Hre & Hnw1 & Hsl1 & Hrs).
  exists s, s1, s2.
  assert (Hr : 0 <= nw s < 2 ^ 62) by (rewrite Hnw; split; [lia | reflexivity]).
  assert (Hr1 : 0 <= nw s1 < 2 ^ 62) by (rewrite Hnw1; split; [lia | reflexivity]).
  destruct (nw_counts_absorbs (E:=Empty_set) s Hr) as (Hreseed & _ & _).
  destruct (Hreseed main_seed s1 Hre) as (Hc & _ & _ & Hn).
  destruct (nw_counts_absorbs (E:=Empty_set) s1 Hr1) as (_ & _ & Hreset).
  destruct (Hreset main_seed s2 Hrs) as (_ & _ & Hn2).
  repeat split; auto.
Defined.

(** C4 as worded fails on the engine of main.go, whose [nw] is 1: a
    successful [Reseed] makes it 2, and a successful [Reset] afterwards
    makes it 1 again. *)
Lemma nw_untouched_counterexample :
  ~ (forall (s s' : ShakePRNG Sponge.state) (seed : list byte),
        2 <= seedLen s ->
        Reseed (E:=Empty_set) s seed = Val (s', None) -> nw s' = nw s) /\
  ~ (forall (s s' : ShakePRNG Sponge.state) (seed : list byte),
        2 <= seedLen s ->
        PRNG_Reset (E:=Empty_set) s seed = Val (s', None) -> nw s <= nw s').
Proof.
  destruct main_reseed_reset
    as (s & s1 & s2 & Hnew & Hnw & Hsl & Hre & Hnw1 & Hsl1 & Hrs).
  split; intros Hclaim.
  - specialize (Hclaim s s1 main_seed Hsl Hre). lia.
  - specialize (Hclaim s1 s2 main_seed Hsl1 Hrs).
    apply PRNG_Reset_success in Hrs as (_ & [([= ] & _) | (_ & Hn)]). lia.
Qed.
Lemma Destroy_clears_then_faults_witness :
  exists s1,
    Destroy (engine256 3 7) = Val s1 /\ nw s1 = 0 /\ Destroy s1 = Fault /\
    Generate (E:=Empty_set) s1 [0; 0] [1] = Fault /\
    Reseed (E:=Empty_set) s1 [1; 2; 3] = Fault.
Proof.
  destruct (Destroy_clears_then_faults (E:=Empty_set) (engine256 3 7)
              Sponge.NewShake256 eq_refl)
    as (s1 & Hd & _ & _ & _ & _ & Hnw & Hd2 & Hgen & Hre).
  exists s1.
  repeat (split; [assumption |]).
  split.
  - apply (Hgen [0; 0] [1]); vm_compute; intuition discriminate.
  - apply (Hre [1; 2; 3]); vm_compute; intuition discriminate.
Defined.

(** C3 as worded fails: on an engine that has been destroyed, a second
    [Destroy] faults, [Generate] on a buffer of two bytes faults and
    [Reseed] on a seed of three bytes faults. *)
Lemma Destroy_idempotent_counterexample :
  ~ (forall s s1 : ShakePRNG Sponge.state,
        Destroy s = Val s1 -> exists s2, Destroy s1 = Val s2) /\
  ~ (forall (s s1 : ShakePRNG Sponge.state) (out additionalIn : list byte),
        Destroy s = Val s1 ->
        exists s' out' e,
          Generate (E:=Empty_set) s1 out additionalIn = Val (s', out', Some e)) /\
  ~ (forall (s s1 : ShakePRNG Sponge.state) (seed : list byte),
        Destroy s = Val s1 ->
        exists s' e, Reseed (E:=Empty_set) s1 seed = Val (s', Some e)).
Proof.
  pose (s := engine256 3 7).
  assert (Hd : Destroy s = Val destroyed) by reflexivity.
  split; [| split]; intros Hclaim.
  - destruct (Hclaim s destroyed Hd) as (s2 & Hd2). discriminate Hd2.
  - destruct (Hclaim s destroyed [0; 0] [] Hd) as (s' & out' & e & Hg).
    discriminate Hg.
  - destruct (Hclaim s destroyed [1; 2; 3] Hd) as (s' & e & Hr).
    discriminate Hr.
Qed.

(** Two runs of main.go's two first calls, one on zeroed buffers and one on
    buffers of [0xff] bytes: both go through with the same outputs. *)
Lemma Generate_deterministic_witness :
  exists s resps1 resps2,
    main_drbg = Val (Some s, None) /\
    GenerateMany (E:=Empty_set) s main_requests = Val resps1 /\
    GenerateMany (E:=Empty_set) s main_requests_ff = Val resps2 /\
    Forall2 sameResponse resps1 resps2.
Proof.
  destruct main_engine as (s & Hnew & _).
  assert (Hreqs : Forall2 sameRequest main_requests main_requests_ff).
  { repeat constructor. }
  pose proof main_two_calls_check as Hck.
  rewrite Hnew in Hck. cbv beta iota delta [withEngine] in Hck.
  apply isVal_inv in Hck as (r & Hr).
  destruct (Generate_deterministic (E:=Empty_set) 256 main_seed s s
              main_requests main_requests_ff Hnew Hnew Hreqs)
    as [(Hf & _) | (r1 & r2 & H1 & H2 & Hall)].
  - exfalso. rewrite Hr in Hf. discriminate Hf.
  - exists s, r1, r2. auto.
Defined.

(** * Further properties

    Properties of the functions of shake.go and prng.go beyond the ones
    above, each read off the source. *)

(** ** The encodings of shake.go *)

Lemma app_same_length {A : Type} (a b c d : list A) :
  length a = length c -> a ++ b = c ++ d -> a = c /\ b = d.
Proof.
  revert c. induction a as [| x a IH]; intros [| y c] Hl Heq;
    cbn in Hl; try discriminate.
  - auto.
  - cbn in Heq. injection Heq as -> Heq.
    destruct (IH c ltac:(lia) Heq) as [-> ->]. auto.
Qed.

Lemma cons_inj {A : Type} (x y : A) (l l' : list A) :
  x :: l = y :: l' -> x = y /\ l = l'.
Proof. intros [= -> ->]. auto. Qed.

(** X1. [leftEncode] is a prefix code on [[0, 2^64)]: when two encodings,
    each followed by arbitrary bytes, give the same byte string, the two
    numbers are equal and so are the bytes that follow. In particular
    [leftEncode] is injective. *)
Theorem leftEncode_prefix_free (v1 v2 : Z) (x y : list byte)
  (H1 : 0 <= v1 < 2 ^ 64) (H2 : 0 <= v2 < 2 ^ 64)
  (Heq : leftEncode v1 ++ x = leftEncode v2 ++ y) :
  v1 = v2 /\ x = y.
Proof.
  destruct (leftEncode_shape v1 H1) as (n1 & vals1 & E1 & L1 & _ & _ & D1 & _).
  destruct (leftEncode_shape v2 H2) as (n2 & vals2 & E2 & L2 & _ & _ & D2 & _).
  rewrite E1, E2 in Heq. cbn [app] in Heq.
  apply cons_inj in Heq as [Hn Heq].
  destruct (app_same_length vals1 x vals2 y) as [Hv Hxy]; [| exact Heq |].
  - unfold len in L1, L2. lia.
  - split; [congruence | exact Hxy].
Qed.

Lemma leftEncode_prefix_free_witness :
  leftEncode 300 ++ [7] = leftEncode 300 ++ [7] /\ 300 = 300 /\ [7] = [7].
Proof.
  assert (H : 0 <= 300 < 2 ^ 64) by (split; [lia | reflexivity]).
  split; [reflexivity |].
  apply (leftEncode_prefix_free 300 300 [7] [7] H H eq_refl).
Defined.

Lemma bytepad_nonpos (input : list byte) (w : Z) :
  w <= 0 -> bytepad input w = Fault.
Proof.
  intros Hw. unfold bytepad.
  destruct (w =? 0) eqn:H0; [reflexivity |].
  apply Z.eqb_neq in H0. cbv zeta.
  set (buf := leftEncode (to_uint64 w) ++ input).
  assert (0 <= Z.rem (len buf) w)
    by (apply Z.rem_nonneg; [lia | apply len_nonneg]).
  replace (w - Z.rem (len buf) w <? 0) with true
    by (symmetry; apply Z.ltb_lt; lia).
  reflexivity.
Qed.

Lemma bytepad_pos (input : list byte) (w : Z) :
  0 < w < 2 ^ 64 ->
  exists padlen,
    bytepad input w = Val (leftEncode w ++ input ++ zeros padlen) /\
    1 <= padlen <= w /\
    padlen = w - len (leftEncode w ++ input) mod w /\
    exists k, 1 <= k /\ len (leftEncode w ++ input ++ zeros padlen) = k * w.
Proof.
  intros Hw. unfold bytepad.
  replace (to_uint64 w) with w
    by (unfold to_uint64; symmetry; apply Z.mod_small; lia).
  replace (w =? 0) with false by (symmetry; apply Z.eqb_neq; lia).
  cbv zeta.
  set (buf := leftEncode w ++ input).
  pose proof (len_nonneg buf) as Hb.
  rewrite Z.rem_mod_nonneg by lia.
  pose proof (Z.mod_pos_bound (len buf) w ltac:(lia)) as Hm.
  replace (w - len buf mod w <? 0) with false
    by (symmetry; apply Z.ltb_ge; lia).
  exists (w - len buf mod w).
  split; [unfold buf; rewrite <- app_assoc; reflexivity |].
  split; [lia |]. split; [reflexivity |].
  exists (len buf / w + 1).
  pose proof (Z.div_pos (len buf) w Hb ltac:(lia)).
  split; [lia |].
  rewrite app_assoc. fold buf. rewrite len_app, len_zeros by lia.
  pose proof (Z.div_mod (len buf) w ltac:(lia)). lia.
Qed.

(** X2. [bytepad] panics for a width that is not positive. For a width [w]
    in [(0, 2^64)] it returns [leftEncode w], the input and then [padlen]
    zero bytes with [1 <= padlen <= w]: the result is a positive multiple
    of [w] bytes long, and at least one zero byte is appended even when the
    encoded input is a multiple of [w] already. *)
Theorem bytepad_shape (input : list byte) (w : Z) :
  (w <= 0 -> bytepad input w = Fault) /\
  (0 < w < 2 ^ 64 ->
   exists padlen,
     bytepad input w = Val (leftEncode w ++ input ++ zeros padlen) /\
     1 <= padlen <= w /\
     padlen = w - len (leftEncode w ++ input) mod w /\
     exists k, 1 <= k /\ len (leftEncode w ++ input ++ zeros padlen) = k * w).
Proof.
  split; [apply bytepad_nonpos | apply bytepad_pos].
Qed.

Lemma bytepad_shape_witness :
  bytepad [9] 0 = Fault /\
  exists padlen,
    bytepad [9] 4 = Val (leftEncode 4 ++ [9] ++ zeros padlen) /\ 1 <= padlen <= 4.
Proof.
  destruct (bytepad_shape [9] 0) as (Hf & _).
  destruct (bytepad_shape [9] 4) as (_ & Hs).
  split; [apply Hf; lia |].
  destruct Hs as (padlen & Hp & Hr & _); [split; [lia | reflexivity] |].
  exists padlen. auto.
Defined.

(** What [newCShake] stores and configures. *)
Lemma newCShake_fields (N S : list byte) (r : Z) (d : byte) (cs : Sponge.cshakeState) :
  Sponge.newCShake N S r d = Val cs ->
  Sponge.initBlock cs
  = leftEncode (to_uint64 (len N * 8)) ++ N
    ++ leftEncode (to_uint64 (len S * 8)) ++ S /\
  Sponge.rate (Sponge.cs_state cs) = r /\
  Sponge.dsbyte (Sponge.cs_state cs) = d.
Proof.
  unfold Sponge.newCShake. cbv zeta.
  remember ((((([] ++ leftEncode (to_uint64 (len N * 8))) ++ N)
               ++ leftEncode (to_uint64 (len S * 8))) ++ S)) as ib eqn:Hib.
  destruct (bytepad ib _) as [| pad]; cbn [bind]; [intros [= ] |].
  unfold Sponge.state_Write.
  cbn [Sponge.direction Sponge.newState Sponge.rate Sponge.buf Sponge.a Sponge.dsbyte].
  destruct (r <=? 0); [intros [= ] |].
  destruct (Sponge.absorb _ _ _ _) as [| [lanes rest]]; cbn [bind]; [intros [= ] |].
  intros [= <-].
  cbn [Sponge.initBlock Sponge.cs_state Sponge.rate Sponge.dsbyte].
  subst ib. cbn [app]. rewrite <- !app_assoc. auto.
Qed.

(** X3. The block [newCShake] builds from the function name [N] and the
    customization [S] determines both: two calls that succeed and store the
    same [initBlock] were given the same [N] and the same [S] (for strings
    whose bit length fits a [uint64]). *)
Theorem newCShake_framing_injective (N S N' S' : list byte) (r r' : Z) (d d' : byte)
  (cs cs' : Sponge.cshakeState)
  (HN : len N * 8 < 2 ^ 64) (HS : len S * 8 < 2 ^ 64)
  (HN' : len N' * 8 < 2 ^ 64) (HS' : len S' * 8 < 2 ^ 64)
  (Hcs : Sponge.newCShake N S r d = Val cs)
  (Hcs' : Sponge.newCShake N' S' r' d' = Val cs')
  (Heq : Sponge.initBlock cs = Sponge.initBlock cs') :
  N = N' /\ S = S'.
Proof.
  apply newCShake_fields in Hcs as (Hib & _).
  apply newCShake_fields in Hcs' as (Hib' & _).
  rewrite Hib, Hib' in Heq.
  pose proof (len_nonneg N). pose proof (len_nonneg S).
  pose proof (len_nonneg N'). pose proof (len_nonneg S').
  unfold to_uint64 in Heq. rewrite !Z.mod_small in Heq by lia.
  destruct (leftEncode_shape (len N * 8) ltac:(lia)) as (n1 & v1 & E1 & L1 & _ & _ & D1 & _).
  destruct (leftEncode_shape (len N' * 8) ltac:(lia)) as (n2 & v2 & E2 & L2 & _ & _ & D2 & _).
  rewrite E1, E2 in Heq. cbn [app] in Heq.
  apply cons_inj in Heq as [Hn Heq].
  assert (Hlv : length v1 = length v2).
  { apply Nat2Z.inj. unfold len in L1, L2. rewrite L1, L2. exact Hn. }
  destruct (app_same_length v1 _ v2 _ Hlv Heq) as [Hv Heq1].
  assert (HlenN : length N = length N').
  { assert (HD : len N * 8 = len N' * 8) by (rewrite <- D1, <- D2, Hv; reflexivity).
    clear - HD. unfold len in HD. lia. }
  destruct (app_same_length N _ N' _ HlenN Heq1) as [HNN Heq2].
  split; [exact HNN |].
  destruct (leftEncode_shape (len S * 8) ltac:(lia)) as (m1 & w1 & F1 & M1 & _ & _ & G1 & _).
  destruct (leftEncode_shape (len S' * 8) ltac:(lia)) as (m2 & w2 & F2 & M2 & _ & _ & G2 & _).
  rewrite F1, F2 in Heq2. cbn [app] in Heq2.
  apply cons_inj in Heq2 as [Hm Heq2].
  assert (Hlw : length w1 = length w2).
  { apply Nat2Z.inj. unfold len in M1, M2. rewrite M1, M2. exact Hm. }
  destruct (app_same_length w1 _ w2 _ Hlw Heq2) as [Hw Heq3].
  exact Heq3.
Qed.

Lemma newCShake_framing_check :
  isVal (Sponge.newCShake [78; 83] [1; 2; 3] rate128 dsbyteCShake) = true.
Proof. vm_compute. reflexivity. Qed.

Lemma newCShake_framing_injective_witness :
  exists cs,
    Sponge.newCShake [78; 83] [1; 2; 3] rate128 dsbyteCShake = Val cs /\
    ([78; 83] = [78; 83] /\ [1; 2; 3] = [1; 2; 3]).
Proof.
  destruct (isVal_inv _ newCShake_framing_check) as (cs & Hcs).
  exists cs. split; [exact Hcs |].
  apply (newCShake_framing_injective [78; 83] [1; 2; 3] [78; 83] [1; 2; 3]
           rate128 rate128 dsbyteCShake dsbyteCShake cs cs);
    try (vm_compute; reflexivity); try exact Hcs.
Defined.

(** ** cSHAKE contexts *)

(** What a write into the sponge keeps, and where it leaves the cursor. *)
Lemma state_Write_cursor (d d' : Sponge.state) (p : list byte) (e : option Empty_set) :
  0 < Sponge.rate d ->
  Sponge.state_Write d p = Val (d', e) ->
  e = None /\
  Sponge.rate d' = Sponge.rate d /\ Sponge.dsbyte d' = Sponge.dsbyte d /\
  Sponge.direction d' = Sponge.spongeAbsorbing /\
  len (Sponge.buf d') = (len (Sponge.buf d) + len p) mod Sponge.rate d.
Proof.
  intros Hr. unfold Sponge.state_Write.
  destruct (Sponge.direction d); [| intros [= ]].
  destruct (Sponge.rate d <=? 0); [intros [= ] |].
  cbv zeta.
  destruct (Sponge.absorb _ _ _ _) as [| [lanes rest]] eqn:Hab;
    cbn [bind]; [intros [= ] |].
  intros [= <- <-].
  apply absorb_rest in Hab; [| exact Hr | apply le_n].
  cbn [Sponge.rate Sponge.dsbyte Sponge.direction Sponge.buf].
  rewrite Hab, len_app. auto.
Qed.

Lemma state_Write_keeps (d d' : Sponge.state) (p : list byte) (e : option Empty_set) :
  Sponge.state_Write d p = Val (d', e) ->
  Sponge.rate d' = Sponge.rate d /\ Sponge.dsbyte d' = Sponge.dsbyte d.
Proof.
  unfold Sponge.state_Write.
  destruct (Sponge.direction d); [| intros [= ]].
  destruct (Sponge.rate d <=? 0); [intros [= ] |].
  cbv zeta.
  destruct (Sponge.absorb _ _ _ _) as [| [lanes rest]]; cbn [bind]; [intros [= ] |].
  intros [= <- <-]. cbn [Sponge.rate Sponge.dsbyte]. auto.
Qed.

Lemma state_Read_keeps (d d' : Sponge.state) (n : Z) (out : list byte)
  (e : option Empty_set) :
  Sponge.state_Read d n = Val (d', out, e) ->
  Sponge.rate d' = Sponge.rate d /\ Sponge.dsbyte d' = Sponge.dsbyte d.
Proof.
  unfold Sponge.state_Read.
  assert (Hfin : forall d1,
             match Sponge.direction d with
             | Sponge.spongeAbsorbing => Sponge.padAndPermute d
             | Sponge.spongeSqueezing => Val d
             end = Val d1 ->
             Sponge.rate d1 = Sponge.rate d /\ Sponge.dsbyte d1 = Sponge.dsbyte d).
  { intros d1. destruct (Sponge.direction d); [| intros [= <-]; auto].
    unfold Sponge.padAndPermute.
    destruct (Sponge.rate d <=? 0); [intros [= ] |].
    cbv zeta.
    destruct (Sponge.xorIn _ _) as [| lanes]; cbn [bind]; [intros [= ] |].
    destruct (Sponge.copyOut _ _) as [| blk]; cbn [bind]; [intros [= ] |].
    intros [= <-]. cbn [Sponge.rate Sponge.dsbyte]. auto. }
  destruct (match Sponge.direction d with
            | Sponge.spongeAbsorbing => Sponge.padAndPermute d
            | Sponge.spongeSqueezing => Val d
            end) as [| d1]; cbn [bind]; [intros [= ] |].
  destruct (Hfin d1 eq_refl) as (Hr1 & Hd1).
  destruct (Sponge.squeeze _ _ _ _ _) as [| [[lanes cur] o]]; cbn [bind]; [intros [= ] |].
  intros [= <- _ _]. cbn [Sponge.rate Sponge.dsbyte]. auto.
Qed.

(** An operation on a cSHAKE context keeps the stored block, the rate and
    the domain byte. *)
Lemma cshake_op_keeps (cs cs1 : Sponge.cshakeState) (op : hashOp) (out : list byte) :
  cshake_op cs op = Val (cs1, out) ->
  Sponge.initBlock cs1 = Sponge.initBlock cs /\
  Sponge.rate (Sponge.cs_state cs1) = Sponge.rate (Sponge.cs_state cs) /\
  Sponge.dsbyte (Sponge.cs_state cs1) = Sponge.dsbyte (Sponge.cs_state cs).
Proof.
  destruct op as [p | n]; unfold cshake_op, Sponge.cshake_Write, Sponge.cshake_Read.
  - destruct (Sponge.state_Write _ _) as [| [st e]] eqn:Hw; cbn [bind]; [intros [= ] |].
    intros [= <- _]. cbn [Sponge.initBlock Sponge.cs_state].
    apply state_Write_keeps in Hw. tauto.
  - destruct (Sponge.state_Read _ _) as [| [[st o] e]] eqn:Hrd; cbn [bind]; [intros [= ] |].
    intros [= <- _]. cbn [Sponge.initBlock Sponge.cs_state].
    apply state_Read_keeps in Hrd. tauto.
Qed.

Lemma runState_cshake_keeps (ops : list hashOp) (cs cs' : Sponge.cshakeState) :
  runState cshake_op cs ops = Val cs' ->
  Sponge.initBlock cs' = Sponge.initBlock cs /\
  Sponge.rate (Sponge.cs_state cs') = Sponge.rate (Sponge.cs_state cs) /\
  Sponge.dsbyte (Sponge.cs_state cs') = Sponge.dsbyte (Sponge.cs_state cs).
Proof.
  revert cs. induction ops as [| op ops IH]; intros cs.
  - cbn [runState]. intros [= <-]. auto.
  - cbn [runState].
    destruct (cshake_op cs op) as [| [cs1 o]] eqn:Hop; cbn [bind]; [intros [= ] |].
    intros Hrun. apply IH in Hrun. apply cshake_op_keeps in Hop.
    destruct Hrun as (-> & -> & ->). exact Hop.
Qed.

(** [newCShake] with the block written out: the encoded lengths, [N] and
    [S]. *)
Lemma newCShake_unfold (N S : list byte) (r : Z) (d : byte) :
  Sponge.newCShake N S r d =
    (let ib := leftEncode (to_uint64 (len N * 8)) ++ N
               ++ leftEncode (to_uint64 (len S * 8)) ++ S in
     pad <- bytepad ib r ;;
     '(st, _) <- Sponge.state_Write (Sponge.newState r d) pad ;;
     Val (Sponge.mkCshakeState st ib)).
Proof.
  unfold Sponge.newCShake. cbv zeta.
  cbn [Sponge.rate Sponge.newState app].
  rewrite <- !app_assoc. reflexivity.
Qed.

(** X4. For every rate from 1 to 200 and all [N] and [S], [newCShake] does
    not panic: it returns a context that still absorbs, with the rate and
    the domain byte it was given, the encoded [N] and [S] as its stored
    block, and the cursor at the start of a block, since [bytepad] filled
    the last block it absorbed. For a rate that is not positive it
    panics. *)
Theorem newCShake_block_aligned (N S : list byte) (r : Z) (d : byte) :
  (r <= 0 -> Sponge.newCShake N S r d = Fault) /\
  (0 < r <= 200 ->
   exists cs,
     Sponge.newCShake N S r d = Val cs /\
     Sponge.initBlock cs
     = leftEncode (to_uint64 (len N * 8)) ++ N
       ++ leftEncode (to_uint64 (len S * 8)) ++ S /\
     absorbing (Sponge.cs_state cs) /\
     Sponge.buf (Sponge.cs_state cs) = [] /\
     Sponge.rate (Sponge.cs_state cs) = r /\
     Sponge.dsbyte (Sponge.cs_state cs) = d).
Proof.
  rewrite newCShake_unfold. cbv zeta.
  set (ib := leftEncode (to_uint64 (len N * 8)) ++ N
             ++ leftEncode (to_uint64 (len S * 8)) ++ S).
  split.
  - intros Hr. rewrite (bytepad_nonpos ib r Hr). reflexivity.
  - intros Hr.
    destruct (bytepad_pos ib r) as (padlen & -> & _ & _ & k & _ & Hlen);
      [split; [lia | apply Z.le_lt_trans with 200; [lia | reflexivity]] |].
    cbn [bind].
    pose proof (newState_absorbing r d Hr) as Hnew.
    destruct (state_Write_ok (Sponge.newState r d)
                (leftEncode r ++ ib ++ zeros padlen) Hnew)
      as (st & Hw & Hst & Hrs & Hds).
    rewrite Hw. cbn [bind]. eexists. split; [reflexivity |].
    cbn [Sponge.initBlock Sponge.cs_state].
    apply state_Write_cursor in Hw; [| cbn; lia].
    destruct Hw as (_ & _ & _ & _ & Hcur).
    cbn [Sponge.buf Sponge.rate Sponge.newState] in Hcur, Hrs, Hds.
    change (len (@nil byte)) with 0 in Hcur.
    rewrite Hlen, Z.add_0_l, Z.mod_mul in Hcur by lia.
    repeat split; try assumption.
    + apply Hst.
    + apply Hst.
    + apply Hst.
    + apply Hst.
    + apply Hst.
    + destruct (Sponge.buf st); [reflexivity | unfold len in Hcur; cbn in Hcur; lia].
Qed.

Lemma newCShake_block_aligned_witness :
  exists cs,
    Sponge.newCShake [78; 83] [1; 2; 3] rate256 dsbyteCShake = Val cs /\
    Sponge.buf (Sponge.cs_state cs) = [].
Proof.
  destruct (newCShake_block_aligned [78; 83] [1; 2; 3] rate256 dsbyteCShake)
    as (_ & Hok).
  destruct Hok as (cs & Hcs & _ & _ & Hbuf & _);
    [unfold rate256; lia |].
  exists cs. auto.
Defined.

(** X5. [Reset] of a cSHAKE context brings back the context [newCShake]
    built, whatever was written into it and read from it in between: the
    stored block, the rate and the domain byte survive every operation and
    the lanes are rebuilt from them. [Clone] returns a context with the
    same contents, the stored block copied byte for byte. *)
Theorem cshake_Reset_restores (N S : list byte) (r : Z) (d : byte)
  (cs cs' : Sponge.cshakeState) (ops : list hashOp)
  (Hnew : Sponge.newCShake N S r d = Val cs)
  (Hrun : runState cshake_op cs ops = Val cs') :
  Sponge.cshake_Reset cs' = Val cs /\
  Sponge.cshake_Clone cs' = cs' /\
  Sponge.cshake_Reset (Sponge.cshake_Clone cs') = Val cs.
Proof.
  assert (Hclone : forall x, Sponge.cshake_Clone x = x).
  { intros [st ib]. unfold Sponge.cshake_Clone, Sponge.clone.
    cbn [Sponge.initBlock Sponge.cs_state].
    rewrite copy_exact; [reflexivity |].
    unfold zeros, len. rewrite repeat_length, Nat2Z.id. reflexivity. }
  rewrite Hclone.
  assert (Hreset : Sponge.cshake_Reset cs' = Val cs).
  { apply runState_cshake_keeps in Hrun. destruct Hrun as (Hib & Hrate & Hds).
    destruct (newCShake_fields N S r d cs Hnew) as (Hib0 & Hr0 & Hd0).
    unfold Sponge.cshake_Reset, Sponge.state_Reset. cbv zeta.
    cbn [Sponge.rate]. rewrite Hib, Hrate, Hds, Hib0, Hr0, Hd0.
    rewrite <- Hnew, newCShake_unfold. reflexivity. }
  auto.
Qed.

Lemma cshake_Reset_restores_check :
  match Sponge.newCShake [78; 83] [1; 2; 3] rate128 dsbyteCShake with
  | Val cs => isVal (runState cshake_op cs [OpWrite [5; 6]; OpRead 3])
  | Fault => false
  end = true.
Proof. vm_compute. reflexivity. Qed.

Lemma cshake_Reset_restores_witness :
  exists cs cs',
    Sponge.newCShake [78; 83] [1; 2; 3] rate128 dsbyteCShake = Val cs /\
    runState cshake_op cs [OpWrite [5; 6]; OpRead 3] = Val cs' /\
    Sponge.cshake_Reset cs' = Val cs.
Proof.
  pose proof cshake_Reset_restores_check as Hck.
  destruct (Sponge.newCShake [78; 83] [1; 2; 3] rate128 dsbyteCShake)
    as [| cs] eqn:Hnew; [discriminate Hck |].
  destruct (isVal_inv _ Hck) as (cs' & Hrun).
  exists cs, cs'. split; [reflexivity | split; [exact Hrun |]].
  apply (cshake_Reset_restores [78; 83] [1; 2; 3] rate128 dsbyteCShake cs cs'
           [OpWrite [5; 6]; OpRead 3] Hnew Hrun).
Defined.

(** ** Lanes and bytes: xorIn and copyOut *)

Lemma length_PutUint64_le (v : Z) : length (Sponge.PutUint64_le v) = 8%nat.
Proof. reflexivity. Qed.

(** Eight bytes written by [PutUint64] are read back by [Uint64]. *)
Lemma Uint64_le_PutUint64_le (v : Z) (rest : list byte) :
  0 <= v < 2 ^ 64 ->
  Sponge.Uint64_le (Sponge.PutUint64_le v ++ rest) = v.
Proof.
  intros Hv. unfold Sponge.Uint64_le, Sponge.PutUint64_le.
  cbn [seq map app firstn fold_right].
  change (8 * Z.of_nat 0) with 0. change (8 * Z.of_nat 1) with 8.
  change (8 * Z.of_nat 2) with 16. change (8 * Z.of_nat 3) with 24.
  change (8 * Z.of_nat 4) with 32. change (8 * Z.of_nat 5) with 40.
  change (8 * Z.of_nat 6) with 48. change (8 * Z.of_nat 7) with 56.
  pose proof (shiftr_digit v 0 ltac:(lia)) as D0.
  pose proof (shiftr_digit v 8 ltac:(lia)) as D1.
  pose proof (shiftr_digit v 16 ltac:(lia)) as D2.
  pose proof (shiftr_digit v 24 ltac:(lia)) as D3.
  pose proof (shiftr_digit v 32 ltac:(lia)) as D4.
  pose proof (shiftr_digit v 40 ltac:(lia)) as D5.
  pose proof (shiftr_digit v 48 ltac:(lia)) as D6.
  pose proof (shiftr_digit v 56 ltac:(lia)) as D7.
  cbn [Z.add Pos.add Pos.succ Pos.add_carry] in D0, D1, D2, D3, D4, D5, D6, D7.
  assert (H64 : Z.shiftr v 64 = 0).
  { rewrite Z.shiftr_div_pow2 by lia. apply Z.div_small. exact Hv. }
  rewrite Z.shiftr_0_r in D0.
  rewrite H64 in D7.
  generalize dependent (to_byte (Z.shiftr v 56)).
  generalize dependent (to_byte (Z.shiftr v 48)).
  generalize dependent (to_byte (Z.shiftr v 40)).
  generalize dependent (to_byte (Z.shiftr v 32)).
  generalize dependent (to_byte (Z.shiftr v 24)).
  generalize dependent (to_byte (Z.shiftr v 16)).
  generalize dependent (to_byte (Z.shiftr v 8)).
  rewrite Z.shiftr_0_r.
  generalize dependent (to_byte v).
  intros. lia.
Qed.

Lemma xorIn_loop_twice (n : nat) (lanes : list Z) (b : list byte) :
  Sponge.xorIn_loop n (Sponge.xorIn_loop n lanes b) b = lanes.
Proof.
  revert lanes b. induction n as [| n IH]; intros lanes b.
  - destruct lanes; reflexivity.
  - destruct lanes as [| x lanes]; [reflexivity |].
    cbn [Sponge.xorIn_loop]. rewrite IH.
    rewrite Z.lxor_assoc, Z.lxor_nilpotent, Z.lxor_0_r. reflexivity.
Qed.

(** X6. [xorIn] is its own inverse: xoring the same buffer into the lanes a
    second time gives back the lanes it started from, and the second call
    panics no more than the first. *)
Theorem xorIn_involutive (lanes lanes' : list Z) (buf : list byte)
  (Hx : Sponge.xorIn lanes buf = Val lanes') :
  Sponge.xorIn lanes' buf = Val lanes.
Proof.
  unfold Sponge.xorIn in *.
  destruct (Z.quot (len buf) 8 >? 25); [discriminate Hx |].
  injection Hx as <-. rewrite xorIn_loop_twice. reflexivity.
Qed.

Lemma xorIn_involutive_witness :
  Sponge.xorIn [1; 2] [3; 0; 0; 0; 0; 0; 0; 0; 9] = Val [2; 2] /\
  Sponge.xorIn [2; 2] [3; 0; 0; 0; 0; 0; 0; 0; 9] = Val [1; 2].
Proof.
  split; [reflexivity |].
  apply (xorIn_involutive [1; 2] [2; 2] [3; 0; 0; 0; 0; 0; 0; 0; 9] eq_refl).
Defined.

Lemma Uint64_le_app (b t : list byte) :
  8 <= len b -> Sponge.Uint64_le (b ++ t) = Sponge.Uint64_le b.
Proof.
  intros Hb. unfold Sponge.Uint64_le. rewrite firstn_app.
  replace (8 - length b)%nat with 0%nat by (unfold len in Hb; lia).
  cbn [firstn]. rewrite app_nil_r. reflexivity.
Qed.

Lemma xorIn_loop_app (n : nat) (lanes : list Z) (b t : list byte) :
  8 * Z.of_nat n <= len b ->
  Sponge.xorIn_loop n lanes (b ++ t) = Sponge.xorIn_loop n lanes b.
Proof.
  revert lanes b. induction n as [| n IH]; intros lanes b Hb; [reflexivity |].
  destruct lanes as [| x lanes]; [reflexivity |].
  cbn [Sponge.xorIn_loop].
  rewrite Uint64_le_app by lia.
  rewrite skipn_app.
  replace (8 - length b)%nat with 0%nat by (unfold len in Hb; lia).
  change (skipn 0 t) with t. rewrite IH; [reflexivity |].
  unfold len in *. rewrite length_skipn. lia.
Qed.

Lemma xorIn_loop_skipn (n : nat) (lanes : list Z) (b : list byte) :
  skipn n (Sponge.xorIn_loop n lanes b) = skipn n lanes.
Proof.
  revert lanes b. induction n as [| n IH]; intros lanes b; [reflexivity |].
  destruct lanes as [| x lanes]; [reflexivity |].
  cbn [Sponge.xorIn_loop skipn]. apply IH.
Qed.

(** X7. [xorIn] works on whole words only. On the 25 lanes it panics
    exactly when the buffer holds 26 words or more, that is 208 bytes;
    otherwise it keeps the number of lanes and changes none beyond the
    first [len(buf)/8]; and up to seven bytes after the last whole word
    are ignored. *)
Theorem xorIn_whole_words (lanes : list Z) (buf tail : list byte)
  (Hl : length lanes = 25%nat) :
  (Sponge.xorIn lanes buf = Fault <-> 208 <= len buf) /\
  (forall lanes',
      Sponge.xorIn lanes buf = Val lanes' ->
      length lanes' = 25%nat /\
      skipn (Z.to_nat (len buf / 8)) lanes' = skipn (Z.to_nat (len buf / 8)) lanes) /\
  (len buf mod 8 = 0 -> len tail < 8 ->
   Sponge.xorIn lanes (buf ++ tail) = Sponge.xorIn lanes buf).
Proof.
  pose proof (len_nonneg buf) as Hb. pose proof (len_nonneg tail) as Ht.
  unfold Sponge.xorIn.
  rewrite !Z.quot_div_nonneg by (try apply len_nonneg; lia).
  split; [| split].
  - destruct (len buf / 8 >? 25) eqn:Hq.
    + split; [intros _ | reflexivity].
      rewrite Z.gtb_ltb in Hq. apply Z.ltb_lt in Hq.
      pose proof (Z.mul_div_le (len buf) 8 ltac:(lia)). lia.
    + split; [intros [= ] | intros Hbig].
      rewrite Z.gtb_ltb in Hq. apply Z.ltb_ge in Hq.
      assert (26 <= len buf / 8) by (apply Z.div_le_lower_bound; lia). lia.
  - intros lanes'. destruct (len buf / 8 >? 25); [intros [= ] |].
    intros [= <-]. rewrite xorIn_loop_length, xorIn_loop_skipn. auto.
  - intros Hmod Htail.
    assert (Hdiv : len (buf ++ tail) / 8 = len buf / 8).
    { rewrite len_app.
      pose proof (Z.div_mod (len buf) 8 ltac:(lia)) as Hdm.
      rewrite Hmod, Z.add_0_r in Hdm.
      rewrite Hdm at 1. rewrite Z.mul_comm, Z.div_add_l by lia.
      rewrite (Z.div_small (len tail) 8) by lia. lia. }
    rewrite Hdiv. destruct (len buf / 8 >? 25); [reflexivity |].
    rewrite xorIn_loop_app; [reflexivity |].
    pose proof (Z.div_pos (len buf) 8 Hb ltac:(lia)).
    rewrite Z2Nat.id by lia.
    apply Z.mul_div_le. lia.
Qed.

Lemma xorIn_whole_words_witness :
  Sponge.xorIn (repeat 0 25) ([1; 0; 0; 0; 0; 0; 0; 0] ++ [7; 7])
  = Sponge.xorIn (repeat 0 25) [1; 0; 0; 0; 0; 0; 0; 0].
Proof.
  destruct (xorIn_whole_words (repeat 0 25) [1; 0; 0; 0; 0; 0; 0; 0] [7; 7] eq_refl)
    as (_ & _ & Htail).
  apply Htail; reflexivity.
Defined.

Lemma copyOut_loop_shape (k fuel : nat) (lanes : list Z) (b : list byte) :
  (k <= fuel)%nat -> (k <= length lanes)%nat ->
  8 * Z.of_nat k <= len b < 8 * Z.of_nat k + 8 ->
  Sponge.copyOut_loop fuel lanes b
  = Val (flat_map Sponge.PutUint64_le (firstn k lanes) ++ skipn (8 * k) b).
Proof.
  revert fuel lanes b. induction k as [| k IH]; intros fuel lanes b Hf Hl Hb.
  - cbn [firstn flat_map app Nat.mul skipn].
    destruct fuel as [| fuel]; [reflexivity |].
    cbn [Sponge.copyOut_loop].
    replace (8 <=? len b) with false by (symmetry; apply Z.leb_gt; lia).
    reflexivity.
  - destruct fuel as [| fuel]; [lia |].
    destruct lanes as [| x lanes]; [cbn in Hl; lia |].
    cbn [Sponge.copyOut_loop].
    replace (8 <=? len b) with true by (symmetry; apply Z.leb_le; lia).
    rewrite (IH fuel lanes (skipn 8 b)).
    + cbn [bind firstn flat_map]. rewrite <- app_assoc.
      rewrite skipn_skipn.
      replace (8 * k + 8)%nat with (8 * S k)%nat by lia. reflexivity.
    + lia.
    + cbn in Hl. lia.
    + unfold len in *. rewrite length_skipn. lia.
Qed.

(** X8. [copyOut] writes the lanes into the buffer word by word, least
    significant byte first, and leaves what follows the last whole word as
    it was. A buffer of [8k] bytes filled from the 25 lanes and xored into
    zeroed lanes gives back the first [k] lanes: [xorIn] reads what
    [copyOut] wrote. On the 25 lanes [copyOut] panics on a buffer of 208
    bytes. *)
Theorem copyOut_xorIn_roundtrip (lanes : list Z) (k : nat) (b : list byte)
  (Hl : length lanes = 25%nat)
  (Hrange : Forall (fun x => 0 <= x < 2 ^ 64) lanes)
  (Hk : (k <= 25)%nat)
  (Hb : 8 * Z.of_nat k <= len b < 8 * Z.of_nat k + 8) :
  Sponge.copyOut lanes b
  = Val (flat_map Sponge.PutUint64_le (firstn k lanes) ++ skipn (8 * k) b) /\
  (exists out,
      Sponge.copyOut lanes (zeros (8 * Z.of_nat k)) = Val out /\
      len out = 8 * Z.of_nat k /\
      Sponge.xorIn (repeat 0 25) out = Val (firstn k lanes ++ repeat 0 (25 - k))) /\
  Sponge.copyOut lanes (zeros 208) = Fault.
Proof.
  split; [| split].
  - unfold Sponge.copyOut. apply copyOut_loop_shape; [| lia | exact Hb].
    unfold len in Hb. lia.
  - exists (flat_map Sponge.PutUint64_le (firstn k lanes)).
    assert (Hlen : forall l : list Z,
               length (flat_map Sponge.PutUint64_le l) = (8 * length l)%nat).
    { induction l as [| x l IHl]; [reflexivity |].
      cbn [flat_map]. rewrite length_app, IHl, length_PutUint64_le. cbn [length]. lia. }
    assert (Hout : len (flat_map Sponge.PutUint64_le (firstn k lanes)) = 8 * Z.of_nat k).
    { unfold len. rewrite Hlen, length_firstn. lia. }
    split; [| split; [exact Hout |]].
    + unfold Sponge.copyOut.
      rewrite (copyOut_loop_shape k);
        [| unfold zeros; rewrite repeat_length; lia | lia
         | rewrite len_zeros by lia; lia].
      rewrite skipn_all2 by (unfold zeros; rewrite repeat_length; lia).
      rewrite app_nil_r. reflexivity.
    + unfold Sponge.xorIn. rewrite Hout.
      rewrite Z.quot_div_nonneg by lia.
      rewrite Z.mul_comm, Z.div_mul by lia.
      replace (Z.of_nat k >? 25) with false
        by (symmetry; rewrite Z.gtb_ltb; apply Z.ltb_ge; lia).
      rewrite Nat2Z.id. f_equal.
      clear Hout Hb. replace 25%nat with (k + (25 - k))%nat at 1 by lia.
      assert (Hk' : (k <= length lanes)%nat) by lia.
      clear Hl Hk. generalize (25 - k)%nat as m. intros m.
      revert lanes Hrange Hk'. induction k as [| k IH]; intros lanes Hrange Hk'.
      * cbn. destruct m; reflexivity.
      * destruct lanes as [| x lanes]; [cbn in Hk'; lia |].
        inversion Hrange as [| ? ? Hx Hrest]; subst.
        cbn [Nat.add repeat firstn flat_map Sponge.xorIn_loop app].
        rewrite Uint64_le_PutUint64_le by exact Hx.
        rewrite Z.lxor_0_l. f_equal.
        replace (skipn 8 (Sponge.PutUint64_le x
                          ++ flat_map Sponge.PutUint64_le (firstn k lanes)))
          with (flat_map Sponge.PutUint64_le (firstn k lanes)) by reflexivity.
        apply IH; [exact Hrest | cbn in Hk'; lia].
  - unfold Sponge.copyOut.
    do 25 (destruct lanes as [| ? lanes]; [discriminate Hl |]).
    destruct lanes; [| discriminate Hl].
    reflexivity.
Qed.

Lemma copyOut_xorIn_roundtrip_witness :
  exists out,
    Sponge.copyOut (map Z.of_nat (seq 1 25)) (zeros (8 * Z.of_nat 2)) = Val out /\
    Sponge.xorIn (repeat 0 25) out = Val ([1; 2] ++ repeat 0 23).
Proof.
  destruct (copyOut_xorIn_roundtrip (map Z.of_nat (seq 1 25)) 2 (zeros 16) eq_refl)
    as (_ & (out & Hout & _ & Hx) & _).
  - apply Forall_forall. intros x Hx.
    apply in_map_iff in Hx. destruct Hx as (n & <- & Hn).
    apply in_seq in Hn. split; [lia |].
    apply Z.lt_trans with 256; [lia | reflexivity].
  - lia.
  - vm_compute. split; [discriminate | reflexivity].
  - exists out. split; [exact Hout | exact Hx].
Defined.

(** ** The helpers of the engine: gen10x01Pad, getStartFrom, createMask *)

Lemma set_nth_repeat_last (m : nat) (v : byte) :
  set_nth (repeat 0 (S m)) m v = repeat 0 m ++ [v].
Proof.
  induction m as [| m IH]; [reflexivity |].
  change (repeat 0 (S (S m))) with (0 :: repeat 0 (S m)).
  cbn [set_nth]. rewrite IH. reflexivity.
Qed.

Lemma gen10x01Pad_long (n : Z) :
  2 <= n -> gen10x01Pad n = 0x1f :: zeros (n - 2) ++ [0x80].
Proof.
  intros Hn. unfold gen10x01Pad, zeros.
  replace (n <=? 0) with false by (symmetry; apply Z.leb_gt; lia).
  replace (Z.to_nat n) with (S (S (Z.to_nat (n - 2)))) by lia.
  replace (Z.to_nat (n - 1)) with (S (Z.to_nat (n - 2))) by lia.
  generalize (Z.to_nat (n - 2)) as m. intros m.
  change (repeat 0 (S (S m))) with (0 :: repeat 0 (S m)).
  cbn [set_nth nth].
  rewrite nth_repeat, set_nth_repeat_last. reflexivity.
Qed.

(** X9. The pad [gen10x01Pad] returns: nothing for a length that is not
    positive, the single byte [0x9f] for one byte, where the domain bits
    and the closing bit share the byte, and otherwise [0x1f], zeros and a
    closing [0x80]. For a positive length the pad has that length. *)
Theorem gen10x01Pad_shape (n : Z) :
  (n <= 0 -> gen10x01Pad n = []) /\
  (n = 1 -> gen10x01Pad n = [0x9f]) /\
  (2 <= n -> gen10x01Pad n = 0x1f :: zeros (n - 2) ++ [0x80]) /\
  (0 <= n -> len (gen10x01Pad n) = n) /\
  Forall is_byte (gen10x01Pad n).
Proof.
  split; [| split; [| split; [| split]]].
  - intros Hn. unfold gen10x01Pad.
    replace (n <=? 0) with true by (symmetry; apply Z.leb_le; lia). reflexivity.
  - intros ->. reflexivity.
  - apply gen10x01Pad_long.
  - intros Hn.
    destruct (Z.eq_dec n 0) as [-> | H0]; [reflexivity |].
    destruct (Z.eq_dec n 1) as [-> | H1]; [reflexivity |].
    rewrite gen10x01Pad_long by lia.
    unfold len. cbn [length]. rewrite length_app. cbn [length].
    unfold zeros. rewrite repeat_length. lia.
  - destruct (Z_le_gt_dec n 0) as [Hle | Hgt].
    + unfold gen10x01Pad.
      replace (n <=? 0) with true by (symmetry; apply Z.leb_le; lia). constructor.
    + destruct (Z.eq_dec n 1) as [-> | H1].
      * change (gen10x01Pad 1) with [0x9f].
        constructor; [unfold is_byte; lia | constructor].
      * rewrite gen10x01Pad_long by lia.
        constructor; [unfold is_byte; lia |].
        apply Forall_app. split.
        -- unfold zeros. apply Forall_forall. intros x Hx.
           apply repeat_spec in Hx. subst x. unfold is_byte. lia.
        -- constructor; [unfold is_byte; lia | constructor].
Qed.

Lemma gen10x01Pad_shape_witness :
  gen10x01Pad 0 = [] /\ gen10x01Pad 4 = [0x1f; 0; 0; 0x80] /\ len (gen10x01Pad 4) = 4.
Proof.
  destruct (gen10x01Pad_shape 0) as (H0 & _).
  destruct (gen10x01Pad_shape 4) as (_ & _ & H4 & Hlen & _).
  split; [apply H0; lia |].
  split; [apply H4; lia | apply Hlen; lia].
Defined.

Lemma fold_lxor_acc (l : list byte) (acc : Z) :
  fold_left (fun sum x => Z.lxor sum x) l acc
  = Z.lxor acc (fold_left (fun sum x => Z.lxor sum x) l 0).
Proof.
  revert acc. induction l as [| x l IH]; intros acc; cbn [fold_left].
  - rewrite Z.lxor_0_r. reflexivity.
  - rewrite (IH (Z.lxor acc x)), (IH (Z.lxor 0 x)).
    rewrite Z.lxor_0_l, Z.lxor_assoc. reflexivity.
Qed.

Lemma fold_lxor_app (l1 l2 : list byte) :
  fold_left (fun sum x => Z.lxor sum x) (l1 ++ l2) 0
  = Z.lxor (fold_left (fun sum x => Z.lxor sum x) l1 0)
           (fold_left (fun sum x => Z.lxor sum x) l2 0).
Proof. rewrite fold_left_app. apply fold_lxor_acc. Qed.

(** X10. [getStartFrom] sees the buffer only through the XOR of its bytes:
    the order of the bytes does not matter, and a byte that occurs twice
    cancels, wherever the two occurrences are. The result is a byte. So two
    additional inputs or seeds that differ in this way get the same
    pre-pad. *)
Theorem getStartFrom_xor_only {H : Type} (s : ShakePRNG H) (a b m : list byte) (x : byte) :
  getStartFrom s (a ++ b) = getStartFrom s (b ++ a) /\
  getStartFrom s (a ++ x :: m ++ x :: b) = getStartFrom s (a ++ m ++ b) /\
  is_byte (getStartFrom s (a ++ b)).
Proof.
  split; [| split].
  - unfold getStartFrom. cbv zeta.
    rewrite !fold_lxor_app, Z.lxor_comm. reflexivity.
  - unfold getStartFrom. cbv zeta.
    do 2 f_equal. f_equal.
    rewrite !fold_lxor_app.
    change (x :: m ++ x :: b) with ([x] ++ m ++ [x] ++ b).
    rewrite !fold_lxor_app. cbn [fold_left].
    rewrite Z.lxor_0_l.
    generalize (fold_left (fun sum x0 : Z => Z.lxor sum x0) a 0) as A.
    generalize (fold_left (fun sum x0 : Z => Z.lxor sum x0) m 0) as M.
    generalize (fold_left (fun sum x0 : Z => Z.lxor sum x0) b 0) as B.
    intros B M A. f_equal.
    rewrite (Z.lxor_comm M (Z.lxor x B)), <- !Z.lxor_assoc.
    rewrite Z.lxor_nilpotent, Z.lxor_0_l. apply Z.lxor_comm.
  - apply getStartFrom_byte.
Qed.

Lemma lxor_byte (x y : Z) : is_byte x -> is_byte y -> is_byte (Z.lxor x y).
Proof.
  unfold is_byte. intros Hx Hy.
  assert (Hn : 0 <= Z.lxor x y) by (apply Z.lxor_nonneg; lia).
  split; [exact Hn |].
  destruct (Z.eq_dec (Z.lxor x y) 0) as [-> | Hnz]; [lia |].
  change 256 with (2 ^ 8).
  apply Z.log2_lt_pow2; [lia |].
  apply Z.le_lt_trans with (Z.max (Z.log2 x) (Z.log2 y));
    [apply Z.log2_lxor; lia |].
  apply Z.max_lub_lt.
  - destruct (Z.eq_dec x 0) as [-> | Hx0]; [cbn; lia |].
    apply Z.log2_lt_pow2; [lia |]. change (2 ^ 8) with 256. lia.
  - destruct (Z.eq_dec y 0) as [-> | Hy0]; [cbn; lia |].
    apply Z.log2_lt_pow2; [lia |]. change (2 ^ 8) with 256. lia.
Qed.

Lemma nth_byte (l : list byte) (i : nat) : Forall is_byte l -> is_byte (nth i l 0).
Proof.
  intros Hl. destruct (Nat.lt_ge_cases i (length l)) as [Hlt | Hge].
  - rewrite Forall_forall in Hl. apply Hl, nth_In, Hlt.
  - rewrite nth_overflow by exact Hge. unfold is_byte. lia.
Qed.

Lemma createMask_step_byte (l : nat) (tmp : list byte) (i : nat) (sum : byte) (j : nat) :
  Forall is_byte tmp -> is_byte sum -> is_byte (createMask_step l tmp i sum j).
Proof.
  intros Ht Hs. unfold createMask_step. cbv zeta.
  pose proof (nth_byte tmp ((i + j) mod l) Ht) as Hn.
  destruct (Z.land (Z.of_nat j) 7 =? 0).
  - apply lxor_byte; [exact Hs |].
    apply lxor_byte; [exact Hn | unfold is_byte; lia].
  - apply lxor_byte; [exact Hs |]. apply RotateLeft8_byte, Hn.
Qed.

(** X11. [createMask] keeps the length of the buffer and, on bytes, yields
    bytes. An empty buffer and a buffer of one byte are left as they are:
    with one byte the rotate-and-XOR loop has no other position to mix
    in. *)
Theorem createMask_bytes (b : list byte) (x : byte) :
  length (createMask b) = length b /\
  (Forall is_byte b -> Forall is_byte (createMask b)) /\
  createMask [] = [] /\
  createMask [x] = [x].
Proof.
  split; [apply createMask_length |].
  split; [| split; reflexivity].
  intros Hb. unfold createMask.
  destruct b as [| b0 rest]; [constructor |].
  cbv zeta.
  set (bb := b0 :: rest) in *.
  set (notAllSame := existsb (fun x0 => negb (x0 =? b0)) rest).
  set (tmp := map (fun i => if notAllSame then nth i bb 0
                            else to_byte (nth i bb 0 + to_byte (Z.of_nat i + 1)))
                  (seq 0 (length bb))).
  assert (Htmp : Forall is_byte tmp).
  { unfold tmp. apply Forall_forall. intros y Hy.
    apply in_map_iff in Hy. destruct Hy as (i & <- & _).
    destruct notAllSame; [apply nth_byte, Hb | apply to_byte_range]. }
  apply Forall_forall. intros y Hy.
  apply in_map_iff in Hy. destruct Hy as (i & <- & _).
  generalize (seq 1 (length bb - 1)) as js.
  assert (Hs : is_byte (nth i bb 0)) by (apply nth_byte, Hb).
  revert Hs. generalize (nth i bb 0) as sum.
  intros sum Hs js. revert sum Hs.
  induction js as [| j js IH]; intros sum Hs; cbn [fold_left]; [exact Hs |].
  apply IH. apply createMask_step_byte; assumption.
Qed.

Lemma createMask_bytes_witness :
  Forall is_byte (createMask [1; 2; 3]) /\ length (createMask [1; 2; 3]) = 3%nat.
Proof.
  destruct (createMask_bytes [1; 2; 3] 0) as (Hlen & Hbytes & _).
  split; [apply Hbytes | exact Hlen].
  apply Forall_forall. intros y Hy. unfold is_byte.
  cbn [In] in Hy. lia.
Defined.

(** ** What a call of the engine can return *)

Section EngineOutcomes.

Context {H E : Type} `{HashOps : ShakeHash H E}.

Lemma early_reseed (msg : string) :
  IsEarlyError (E:=E) (Wrapf msg [] ErrDRBGReseed) = true.
Proof. reflexivity. Qed.

Lemma late_wrapped (msg : string) (e0 : error E) :
  IsErrDRBGReseed e0 = false -> IsEarlyError (Wrapf msg [] e0) = false.
Proof. intros He. unfold IsEarlyError. cbn. exact He. Qed.

(** X12. The three ways [Generate] returns. Without an error: the request
    passed the checks, the engine keeps its rate and seed length, holds a
    context and has counted the call. With an error of the checks (a bad
    length, or a reseed that is due): the engine and the buffer are the
    ones passed in. With any other error: the engine is destroyed; the
    buffer may hold the bytes read by then. The buffer keeps its length in
    all three. *)
Theorem Generate_outcomes (s s' : ShakePRNG H) (out additionalIn out' : list byte)
  (e : option (error E))
  (Hg : Generate s out additionalIn = Val (s', out', e)) :
  length out' = length out /\
  ((e = None /\
    counter s <= 2 ^ 48 /\ 1 <= len out <= 2 ^ 32 /\ len additionalIn <= 2 ^ 32 /\
    (exists h, c s' = Some h) /\
    rate s' = rate s /\ seedLen s' = seedLen s /\
    counter s' = wrap_int (counter s + 1)) \/
   (exists err,
       e = Some err /\ IsEarlyError err = true /\ s' = s /\ out' = out /\
       (counter s > 2 ^ 48 \/ len out = 0 \/ 2 ^ 32 < len out \/
        2 ^ 32 < len additionalIn)) \/
   (exists err,
       e = Some err /\ IsEarlyError err = false /\ s' = destroyed /\
       counter s <= 2 ^ 48 /\ 1 <= len out <= 2 ^ 32 /\
       len additionalIn <= 2 ^ 32)).
Proof.
  pose proof Hg as Hinv.
  apply Generate_inv in Hinv
    as [Hret | (Hv & [Hret | (s1 & dup & buf & out1 & Hsq &
           [Hret | (dup2 & nq & start & offset & b & Hrp & Hwin & Hrm)])])].
  - (* returned by the checks *)
    destruct (Generate_validate_cases (E:=E) s out additionalIn)
      as [(Hc & msg & Hv) | [(Hc & Hbad & msg & args & Hv) | (_ & _ & _ & Hv)]];
      rewrite Hv in Hret; [| | discriminate Hret].
    + injection Hret as <- <- <-. split; [reflexivity |].
      right. left. eexists. split; [reflexivity |].
      split; [apply early_reseed |]. auto.
    + injection Hret as <- <- <-. split; [reflexivity |].
      right. left. eexists. split; [reflexivity |].
      split; [reflexivity |]. split; [reflexivity |]. split; [reflexivity |]. lia.
  - (* the write of the additional input or the read failed *)
    assert (Hok : counter s <= 2 ^ 48 /\ 1 <= len out <= 2 ^ 32 /\
                  len additionalIn <= 2 ^ 32).
    { destruct (Generate_validate_cases (E:=E) s out additionalIn)
        as [(_ & msg & Hv') | [(_ & _ & msg & args & Hv') | (? & ? & ? & _)]];
        [congruence | congruence | auto]. }
    apply Generate_squeeze_return in Hret as (msg & e0 & [= -> -> ->] & He0).
    split; [reflexivity |].
    right. right. eexists. split; [reflexivity |].
    split; [apply late_wrapped, He0 |]. split; [reflexivity | exact Hok].
  - (* a write of the replay failed *)
    assert (Hok : counter s <= 2 ^ 48 /\ 1 <= len out <= 2 ^ 32 /\
                  len additionalIn <= 2 ^ 32).
    { destruct (Generate_validate_cases (E:=E) s out additionalIn)
        as [(_ & msg & Hv') | [(_ & _ & msg & args & Hv') | (? & ? & ? & _)]];
        [congruence | congruence | auto]. }
    apply Generate_squeeze_next in Hsq as (_ & _ & _ & _ & _ & _ & _ & Hout1 & _).
    apply Generate_replay_return in Hret as (msg & e0 & [= -> -> ->] & He0).
    split; [rewrite Hout1; apply copy_length |].
    right. right. eexists. split; [reflexivity |].
    split; [apply late_wrapped, He0 |]. split; [reflexivity | exact Hok].
  - (* the remix *)
    assert (Hok : counter s <= 2 ^ 48 /\ 1 <= len out <= 2 ^ 32 /\
                  len additionalIn <= 2 ^ 32).
    { destruct (Generate_validate_cases (E:=E) s out additionalIn)
        as [(_ & msg & Hv') | [(_ & _ & msg & args & Hv') | (? & ? & ? & _)]];
        [congruence | congruence | auto]. }
    apply Generate_squeeze_next in Hsq
      as (Hrate & Hsl & Hcnt & _ & _ & _ & _ & Hout1 & _).
    apply Generate_window_inv in Hwin as (_ & _ & _ & Hb).
    assert (Hcases :
              (exists msg msg' args e0,
                  (s', out', e)
                  = (destroyed, out1,
                     Some (Wrapf msg [] (Wrapf msg' args (HashError e0))))) \/
              (exists d,
                  (s', out', e)
                  = (mkShakePRNG (Some d) (rate s1) (seedLen s1)
                       (wrap_int (counter s1 + 1)) (wrap_int (nw s1 + 1)),
                     out1, None))).
    { destruct Hrm as [Hrm | Hrm];
        apply (Generate_remix_inv _ _ _ _ _ _ Hb) in Hrm
          as [(msg & msg' & args & e0 & Heq) | (d & Heq)];
        try discriminate Heq; injection Heq as -> -> ->;
        [left; do 4 eexists; reflexivity | right; eexists; reflexivity]. }
    destruct Hcases as [(msg & msg' & args & e0 & [= -> -> ->]) | (d & [= -> -> ->])].
    + split; [rewrite Hout1; apply copy_length |].
      right. right. eexists. split; [reflexivity |].
      split; [reflexivity |]. split; [reflexivity | exact Hok].
    + split; [rewrite Hout1; apply copy_length |].
      left. split; [reflexivity |].
      destruct Hok as (? & ? & ?). cbn [c rate seedLen counter].
      rewrite Hrate, Hsl, Hcnt. repeat split; try lia. eauto.
Qed.

(** X13. The reseed interval is inclusive. A call that succeeds on a
    counter that is not negative adds one to it, and it can only succeed on
    a counter of at most [2^48]; on a counter of exactly [2^48] no call is
    refused for want of a reseed, so [2^48 + 1] requests are served between
    two reseeds, and the engine then asks for one. *)
Theorem Generate_reseed_interval (s : ShakePRNG H) (out additionalIn : list byte)
  (Hc : 0 <= counter s) :
  (forall s' out',
      Generate (E:=E) s out additionalIn = Val (s', out', None) ->
      counter s <= 2 ^ 48 /\ counter s' = counter s + 1 /\
      (NeedReseed s' = true <-> counter s = 2 ^ 48)) /\
  (counter s = 2 ^ 48 ->
   forall s' out' (e : error E),
     Generate s out additionalIn = Val (s', out', Some e) ->
     IsErrDRBGReseed e = false).
Proof.
  split.
  - intros s' out' Hg.
    pose proof (Generate_success _ _ _ _ _ Hg) as (_ & _ & _ & Hcnt & _).
    assert (Hle : counter s <= 2 ^ 48).
    { destruct (Generate_validate_cases (E:=E) s out additionalIn)
        as [(_ & msg & Hv) | [(Hle & _) | (Hle & _)]]; try exact Hle.
      unfold Generate in Hg. rewrite Hv in Hg. discriminate Hg. }
    rewrite wrap_int_id in Hcnt by lia.
    split; [exact Hle |]. split; [exact Hcnt |].
    rewrite NeedReseed_spec, Hcnt. lia.
  - intros Heq s' out' e Hg.
    destruct (IsErrDRBGReseed e) eqn:He; [| reflexivity].
    destruct (Generate_validate_cases (E:=E) s out additionalIn)
      as [(Hgt & _) | [(_ & _ & msg & args & Hv) | (_ & _ & _ & Hv)]]; [lia | |].
    + unfold Generate in Hg. rewrite Hv in Hg. cbn in Hg.
      injection Hg as _ _ <-. discriminate He.
    + apply (Generate_late_error _ _ _ _ _ _ Hv) in Hg as (Hne & _). congruence.
Qed.

(** X14. [Reset] is not all or nothing. It panics on an engine without a
    context. On an engine with one, a seed the length check refuses gets a
    validation error, yet by then the context has been reset and the
    absorb counter is zero: the engine that is left is the unseeded one of
    its rate, not the one passed in and not a destroyed one. Any other
    error leaves the engine destroyed. *)
Theorem PRNG_Reset_not_atomic (s : ShakePRNG H) (seed : list byte) :
  (c s = None -> PRNG_Reset (E:=E) s seed = Fault) /\
  (forall h,
      c s = Some h ->
      len seed < Z.quot (seedLen s) 2 \/ 2 ^ 32 < len seed ->
      exists e : error E,
        PRNG_Reset s seed
        = Val (mkShakePRNG (Some (Reset h)) (rate s) (seedLen s) (counter s) 0,
               Some e) /\
        IsValidationError e = true) /\
  (forall s' (e : error E),
      PRNG_Reset s seed = Val (s', Some e) ->
      IsValidationError e = false -> s' = destroyed).
Proof.
  split; [| split].
  - intros Hc. unfold PRNG_Reset. rewrite Hc. reflexivity.
  - intros h Hc Hbad. unfold PRNG_Reset. rewrite Hc.
    destruct (Reseed_cases (E:=E) (set_nw (set_c s (Some (Reset h))) 0) seed)
      as [(_ & msg & args & Hr) | (Hok & _)].
    + rewrite Hr. eexists. split; [reflexivity | reflexivity].
    + cbn [seedLen set_nw set_c] in Hok. lia.
  - intros s' e. unfold PRNG_Reset.
    destruct (c s) as [h |]; [| intros [= ]].
    intros Hr Hne.
    destruct (Reseed_cases (E:=E) (set_nw (set_c s (Some (Reset h))) 0) seed)
      as [(_ & msg & args & Hr') | (Hok & _)].
    + rewrite Hr' in Hr. injection Hr as _ <-. discriminate Hne.
    + apply (Reseed_late_error _ _ _ _ Hok) in Hr. apply Hr.
Qed.

(** X15. [Reseed] mixes the seed into the context the engine holds; it does
    not start from a fresh one. On an engine of positive rate, a call that
    succeeds on a seed that is not empty leaves the context in which
    [getStartFrom] zero bytes and the seed, then zeros up to the next
    multiple of the rate, have been written into the context held
    before. *)
Theorem Reseed_absorbs_on_top (s s' : ShakePRNG H) (seed : list byte)
  (Hrate : 0 < rate s) (Hseed : seed <> [])
  (Hr : Reseed (E:=E) s seed = Val (s', None)) :
  let data := zeros (getStartFrom s seed) ++ seed in
  exists h h',
    c s = Some h /\ c s' = Some h' /\
    WriteAll h [data; zeros (rate s - len data mod rate s)] = Val (h', None) /\
    counter s' = 0 /\ nw s' = wrap_int (nw s + 1).
Proof.
  intros data.
  destruct (Reseed_cases (E:=E) s seed) as [(_ & msg & args & Hbad) | (_ & Hun)];
    [congruence |].
  rewrite Hun in Hr. clear Hun.
  destruct (c s) as [h |] eqn:Hc.
  2:{ exfalso. unfold writeWithPad in Hr.
      replace (len seed =? 0) with false in Hr.
      - discriminate Hr.
      - symmetry. apply Z.eqb_neq. destruct seed; [contradiction |].
        unfold len. cbn [length]. lia. }
  pose proof (getStartFrom_byte s seed) as Hst. unfold is_byte in Hst.
  rewrite (writeWithPad_unfold s h seed (getStartFrom s seed)) in Hr
    by (auto; lia).
  cbv zeta in Hr. fold data in Hr.
  destruct (Write h data) as [| [h1 [e1 |]]] eqn:Hw1; cbn [bind] in Hr;
    [discriminate Hr | |].
  { destruct (Destroy _) in Hr; discriminate Hr. }
  destruct (Write h1 _) as [| [h2 [e2 |]]] eqn:Hw2; cbn [bind] in Hr;
    [discriminate Hr | |].
  { destruct (Destroy _) in Hr; discriminate Hr. }
  injection Hr as <-.
  exists h, h2. cbn [c counter nw set_counter set_c set_nw WriteAll].
  rewrite Hw1. cbn [bind]. rewrite Hw2. cbn [bind]. auto.
Qed.

End EngineOutcomes.

(** ** Creation, for any hash *)

Section CreationOutcomes.

Context {H E : Type} `{HashOps : ShakeHash H E} `{HashNew : ShakeNew H}.

Lemma NewShakeDRBG_bad_bits (bits : Z) (seed : list byte) :
  bits <> 128 -> bits <> 256 ->
  exists e : error E,
    NewShakeDRBG bits seed = Val (None, Some e) /\ IsValidationError e = true.
Proof.
  intros H1 H2. unfold NewShakeDRBG.
  replace (bits =? 128) with false by (symmetry; apply Z.eqb_neq; exact H1).
  replace (bits =? 256) with false by (symmetry; apply Z.eqb_neq; exact H2).
  eexists. split; reflexivity.
Qed.

Lemma NewShakeDRBG_bad_seed (bits : Z) (seed : list byte) :
  (bits = 128 /\ (len seed < 16 \/ 2 ^ 32 < len seed)) \/
  (bits = 256 /\ (len seed < 32 \/ 2 ^ 32 < len seed)) ->
  exists msg (e : error E),
    NewShakeDRBG bits seed = Val (None, Some (Wrapf msg [bits] e)) /\
    IsValidationError e = true.
Proof.
  assert (Hinit : forall s0 h,
             c s0 = Some h ->
             len seed < Z.quot (seedLen s0) 2 \/ 2 ^ 32 < len seed ->
             exists msg (e : error E),
               ('(drbg, e) <- PRNG_Reset (E:=E) s0 seed ;;
                match e with
                | Some e1 =>
                    Val (None, Some (WrapTraceableErrorf (Some e1)
                                       "failed to initialize the SHAKE%d DRBG"
                                       [bits]))
                | None => Val (Some drbg, None)
                end) = Val (None, Some (Wrapf msg [bits] e)) /\
               IsValidationError e = true).
  { intros s0 h Hc Hbad. unfold PRNG_Reset. rewrite Hc.
    destruct (Reseed_cases (E:=E) (set_nw (set_c s0 (Some (Reset h))) 0) seed)
      as [(_ & msg & args & Hr) | (Hok & _)].
    - rewrite Hr. cbn [bind WrapTraceableErrorf].
      do 2 eexists. split; reflexivity.
    - cbn [seedLen set_nw set_c] in Hok. lia. }
  intros [(-> & Hlen) | (-> & Hlen)]; unfold NewShakeDRBG; cbn [Z.eqb Pos.eqb].
  - eapply Hinit; [reflexivity |]. cbn [seedLen]. exact Hlen.
  - eapply Hinit; [reflexivity |]. cbn [seedLen]. exact Hlen.
Qed.

(** X16. What [NewShakeDRBG] returns when it returns an error. A strength
    other than 128 and 256 is refused with a plain message before any hash
    is made. For 128 and 256 a seed shorter than 16 respectively 32 bytes,
    or longer than [2^32], is refused by the length check of [Reseed], and
    the error returned wraps that validation error. In all these cases the
    engine returned is [nil], and no hash implementation can make the call
    panic. A call never returns both an engine and an error, nor
    neither. *)
Theorem NewShakeDRBG_refusals (bits : Z) (seed : list byte) :
  (bits <> 128 -> bits <> 256 ->
   exists e : error E,
     NewShakeDRBG bits seed = Val (None, Some e) /\ IsValidationError e = true) /\
  ((bits = 128 /\ (len seed < 16 \/ 2 ^ 32 < len seed)) \/
   (bits = 256 /\ (len seed < 32 \/ 2 ^ 32 < len seed)) ->
   exists msg (e : error E),
     NewShakeDRBG bits seed = Val (None, Some (Wrapf msg [bits] e)) /\
     IsValidationError e = true) /\
  (forall o (e : option (error E)),
      NewShakeDRBG bits seed = Val (o, e) ->
      (o = None /\ e <> None) \/ (o <> None /\ e = None)).
Proof.
  split; [apply NewShakeDRBG_bad_bits | split; [apply NewShakeDRBG_bad_seed |]].
  intros o e. unfold NewShakeDRBG.
  assert (Hinit : forall s0,
             ('(drbg, e) <- PRNG_Reset (E:=E) s0 seed ;;
              match e with
              | Some e1 =>
                  Val (None, Some (WrapTraceableErrorf (Some e1)
                                     "failed to initialize the SHAKE%d DRBG"
                                     [bits]))
              | None => Val (Some drbg, None)
              end) = Val (o, e) ->
             (o = None /\ e <> None) \/ (o <> None /\ e = None)).
  { intros s0. destruct (PRNG_Reset s0 seed) as [| [s1 [e1 |]]]; cbn [bind];
      [intros [= ] | |]; intros [= <- <-].
    - left. split; [reflexivity | discriminate].
    - right. split; [discriminate | reflexivity]. }
  destruct (bits =? 128); [apply Hinit |].
  destruct (bits =? 256); [apply Hinit |].
  intros [= <- <-]. left. split; [reflexivity | discriminate].
Qed.

End CreationOutcomes.

Lemma Generate_outcomes_witness :
  exists (s s' : ShakePRNG Sponge.state) out',
    Generate (E:=Empty_set) s main_buf main_additionalIn = Val (s', out', None) /\
    length out' = length main_buf.
Proof.
  destruct main_generate as (s & s' & out' & _ & _ & _ & Hg).
  exists s, s', out'. split; [exact Hg |].
  apply (Generate_outcomes s s' main_buf main_additionalIn out' None Hg).
Defined.

Lemma Generate_reseed_interval_witness :
  exists (s s' : ShakePRNG Sponge.state) out',
    0 <= counter s /\
    Generate (E:=Empty_set) s main_buf main_additionalIn = Val (s', out', None) /\
    counter s' = counter s + 1.
Proof.
  destruct main_generate as (s & s' & out' & _ & _ & Hc & Hg).
  exists s, s', out'.
  assert (H0 : 0 <= counter s) by (rewrite Hc; lia).
  split; [exact H0 |]. split; [exact Hg |].
  destruct (Generate_reseed_interval (E:=Empty_set) s main_buf main_additionalIn H0)
    as (Hstep & _).
  apply (Hstep s' out' Hg).
Defined.

Lemma Reseed_absorbs_on_top_witness :
  exists (s s' : ShakePRNG Sponge.state) h h',
    0 < rate s /\ main_seed <> [] /\
    Reseed (E:=Empty_set) s main_seed = Val (s', None) /\
    c s = Some h /\ c s' = Some h'.
Proof.
  destruct main_reseed_reset as (s & s1 & _ & Hnew & _ & _ & Hr & _).
  destruct main_engine as (s0 & Hnew0 & Hrate & _).
  assert (Hs : s0 = s) by congruence.
  subst s0.
  assert (Hpos : 0 < rate s) by (rewrite Hrate; lia).
  assert (Hne : main_seed <> []) by discriminate.
  destruct (Reseed_absorbs_on_top s s1 main_seed Hpos Hne Hr)
    as (h & h' & Hc & Hc' & _).
  exists s, s1, h, h'. auto.
Defined.

Lemma PRNG_Reset_not_atomic_witness :
  exists e : error Empty_set,
    PRNG_Reset (engine256 3 5) [1]
    = Val (mkShakePRNG (Some (Reset Sponge.NewShake256)) rate256 64 3 0, Some e) /\
    IsValidationError e = true.
Proof.
  destruct (PRNG_Reset_not_atomic (E:=Empty_set) (engine256 3 5) [1]) as (_ & Hv & _).
  apply (Hv Sponge.NewShake256 eq_refl). left. reflexivity.
Defined.

Lemma NewShakeDRBG_refusals_witness :
  exists e : error Empty_set,
    NewShakeDRBG (H:=Sponge.state) 512 main_seed = Val (None, Some e) /\
    IsValidationError e = true.
Proof.
  destruct (NewShakeDRBG_refusals (H:=Sponge.state) (E:=Empty_set) 512 main_seed)
    as (Hbits & _).
  apply Hbits; discriminate.
Defined.

(** ** The sponge at a block boundary *)

Lemma Uint64_le_zeros (k : nat) : Sponge.Uint64_le (repeat 0 k) = 0.
Proof.
  unfold Sponge.Uint64_le. generalize 8%nat as n. intros n.
  revert k. induction n as [| n IH]; intros k; [reflexivity |].
  destruct k as [| k]; [reflexivity |].
  cbn [repeat firstn fold_right]. rewrite IH. reflexivity.
Qed.

Lemma skipn_repeat (k n : nat) : skipn n (repeat 0 k) = repeat 0 (k - n).
Proof.
  revert n. induction k as [| k IH]; intros n.
  - destruct n; reflexivity.
  - destruct n; [reflexivity |]. cbn [repeat skipn Nat.sub]. apply IH.
Qed.

Lemma xorIn_loop_zeros (n k : nat) (lanes : list Z) :
  Sponge.xorIn_loop n lanes (repeat 0 k) = lanes.
Proof.
  revert k lanes. induction n as [| n IH]; intros k lanes.
  - destruct lanes; reflexivity.
  - destruct lanes as [| x lanes]; [reflexivity |].
    cbn [Sponge.xorIn_loop].
    rewrite Uint64_le_zeros, Z.lxor_0_r, skipn_repeat, IH. reflexivity.
Qed.

(** Xoring a block of zeros changes no lane. *)
Lemma xorIn_zeros (lanes : list Z) (r : Z) :
  r <= 200 -> Sponge.xorIn lanes (zeros r) = Val lanes.
Proof.
  intros Hr. unfold Sponge.xorIn.
  replace (Z.quot (len (zeros r)) 8 >? 25) with false.
  - unfold zeros. rewrite xorIn_loop_zeros. reflexivity.
  - symmetry. rewrite Z.gtb_ltb. apply Z.ltb_ge.
    pose proof (len_nonneg (zeros r)).
    rewrite Z.quot_div_nonneg by lia.
    apply Z.div_le_upper_bound; [lia |].
    unfold len, zeros. rewrite repeat_length. lia.
Qed.

Lemma absorb_one_block (r : Z) (lanes lanes1 : list Z) (p : list byte) :
  0 < r -> len p = r ->
  Sponge.xorIn lanes p = Val lanes1 ->
  Sponge.absorb (length p) r lanes p = Val (Sponge.permute lanes1, []).
Proof.
  intros Hr Hp Hx.
  destruct (length p) as [| f] eqn:Hlen; [unfold len in Hp; lia |].
  cbn [Sponge.absorb].
  replace (r <=? len p) with true by (symmetry; apply Z.leb_le; lia).
  rewrite firstn_all2 by (unfold len in Hp; lia).
  rewrite Hx. cbn [bind].
  rewrite skipn_all2 by (unfold len in Hp; lia).
  destruct f as [| f]; [reflexivity |].
  cbn [Sponge.absorb].
  replace (r <=? len (@nil byte)) with false
    by (symmetry; apply Z.leb_gt; unfold len; cbn; lia).
  reflexivity.
Qed.

(** A write of one whole block into a sponge at a block boundary: the block
    is xored in, the lanes are permuted once and the cursor is back at the
    boundary. *)
Lemma state_Write_one_block (d : Sponge.state) (p : list byte) (lanes1 : list Z) :
  Sponge.direction d = Sponge.spongeAbsorbing -> Sponge.buf d = [] ->
  0 < Sponge.rate d -> len p = Sponge.rate d ->
  Sponge.xorIn (Sponge.a d) p = Val lanes1 ->
  Sponge.state_Write d p
  = Val (Sponge.mkState (Sponge.permute lanes1) [] (Sponge.rate d) (Sponge.dsbyte d)
           Sponge.spongeAbsorbing, None).
Proof.
  intros Hdir Hbuf Hr Hp Hx. unfold Sponge.state_Write.
  rewrite Hdir, Hbuf.
  replace (Sponge.rate d <=? 0) with false by (symmetry; apply Z.leb_gt; lia).
  cbn [app]. rewrite (absorb_one_block _ _ lanes1) by assumption.
  reflexivity.
Qed.

Lemma atBoundary_absorbing (d : Sponge.state) : atBoundary d -> absorbing d.
Proof. intros (Hd & _). exact Hd. Qed.

(** A write of a whole number of blocks keeps the sponge at a boundary. *)
Lemma state_Write_boundary (d : Sponge.state) (p : list byte) :
  atBoundary d -> len p mod Sponge.rate d = 0 ->
  exists d',
    Sponge.state_Write d p = Val (d', None) /\
    atBoundary d' /\ Sponge.rate d' = Sponge.rate d.
Proof.
  intros (Hd & Hbuf & Hds) Hp.
  destruct (state_Write_ok d p Hd) as (d' & Hw & Hd' & Hr' & Hds').
  exists d'. split; [exact Hw |].
  assert (Hr : 0 < Sponge.rate d) by (destruct Hd as (_ & Hr & _); lia).
  apply state_Write_cursor in Hw; [| exact Hr].
  destruct Hw as (_ & _ & _ & _ & Hcur).
  rewrite Hbuf in Hcur. change (len (@nil byte)) with 0 in Hcur.
  rewrite Z.add_0_l, Hp in Hcur.
  split; [| exact Hr'].
  split; [exact Hd' |]. split; [| congruence].
  destruct (Sponge.buf d'); [reflexivity | unfold len in Hcur; cbn in Hcur; lia].
Qed.

(** Two writes that together make a whole number of blocks. *)
Lemma state_Write_twice_boundary (d : Sponge.state) (p q : list byte) :
  atBoundary d -> (len p + len q) mod Sponge.rate d = 0 ->
  exists d1 d2,
    Sponge.state_Write d p = Val (d1, None) /\
    Sponge.state_Write d1 q = Val (d2, None) /\
    atBoundary d2 /\ Sponge.rate d2 = Sponge.rate d.
Proof.
  intros (Hd & Hbuf & Hds) Hpq.
  assert (Hr : 0 < Sponge.rate d) by (destruct Hd as (_ & Hr & _); lia).
  destruct (state_Write_ok d p Hd) as (d1 & Hw1 & Hd1 & Hr1 & Hds1).
  destruct (state_Write_ok d1 q Hd1) as (d2 & Hw2 & Hd2 & Hr2 & Hds2).
  exists d1, d2. split; [exact Hw1 |]. split; [exact Hw2 |].
  apply state_Write_cursor in Hw1; [| exact Hr].
  apply state_Write_cursor in Hw2; [| lia].
  destruct Hw1 as (_ & _ & _ & _ & Hcur1). destruct Hw2 as (_ & _ & _ & _ & Hcur2).
  rewrite Hbuf in Hcur1. change (len (@nil byte)) with 0 in Hcur1.
  rewrite Z.add_0_l in Hcur1.
  rewrite Hcur1, Hr1, Z.add_mod_idemp_l, Hpq in Hcur2 by lia.
  split; [| congruence].
  split; [exact Hd2 |]. split; [| congruence].
  destruct (Sponge.buf d2); [reflexivity | unfold len in Hcur2; cbn in Hcur2; lia].
Qed.

(** [writeWithPad] on a sponge at a block boundary leaves it at one. *)
Lemma writeWithPad_boundary (s : ShakePRNG Sponge.state) (d : Sponge.state)
  (p : list byte) (start : byte) :
  0 < rate s -> 0 <= start -> atBoundary d -> Sponge.rate d = rate s ->
  exists s' d',
    writeWithPad (E:=Empty_set) s (Some d) p start = Val (s', Some d', None) /\
    atBoundary d' /\ Sponge.rate d' = Sponge.rate d /\
    rate s' = rate s /\ seedLen s' = seedLen s /\ counter s' = counter s /\
    c s' = c s.
Proof.
  intros Hr Hs Hd Hrd.
  destruct p as [| x p].
  { exists s, d. rewrite writeWithPad_empty.
    split; [reflexivity | split; [exact Hd | auto]]. }
  rewrite (writeWithPad_unfold (E:=Empty_set) s d (x :: p) start) by (auto; discriminate).
  cbn [Write state_ShakeHash].
  set (data := zeros start ++ x :: p).
  destruct (state_Write_twice_boundary d data (zeros (rate s - len data mod rate s)) Hd)
    as (d1 & d2 & -> & Hw2 & Hd2 & Hr2).
  { pose proof (Z.mod_pos_bound (len data) (rate s) Hr) as Hm.
    rewrite len_zeros, Hrd by lia.
    replace (len data + (rate s - len data mod rate s))
      with (len data - len data mod rate s + 1 * rate s) by lia.
    rewrite Z.mod_add by lia.
    rewrite Zminus_mod_idemp_r, Z.sub_diag. apply Zmod_0_l. }
  cbn [bind]. rewrite Hw2. cbn [bind].
  exists (set_nw s (wrap_int (nw s + 1))), d2.
  split; [reflexivity | split; [exact Hd2 | split; [exact Hr2 | cbn; auto]]].
Qed.

Lemma aligned_live (s : ShakePRNG Sponge.state) : aligned s -> live s.
Proof.
  intros (Hr & d & Hc & (Hd & _) & Hrd). split; [exact Hr |].
  exists d. auto.
Qed.

(** On an engine whose context is at a block boundary [Reseed] accepts
    every seed of [seedLen/2] to [2^32] bytes and leaves the context at a
    boundary. *)
Lemma Reseed_aligned (s : ShakePRNG Sponge.state) (seed : list byte) :
  aligned s ->
  Z.quot (seedLen s) 2 <= len seed <= 2 ^ 32 ->
  exists s',
    Reseed (E:=Empty_set) s seed = Val (s', None) /\
    aligned s' /\ counter s' = 0 /\ seedLen s' = seedLen s /\ rate s' = rate s.
Proof.
  intros (Hr & d & Hc & Hd & Hrd) Hrange.
  destruct (Reseed_cases (E:=Empty_set) s seed) as [(Hbad & _) | (_ & ->)]; [lia |].
  rewrite Hc.
  pose proof (getStartFrom_byte s seed) as Hst. unfold is_byte in Hst.
  destruct (writeWithPad_boundary s d seed (getStartFrom s seed))
    as (s0 & d' & -> & Hd' & Hrd' & Hr0 & Hsl0 & Hc0 & _);
    [lia | lia | exact Hd | exact Hrd |].
  cbn [bind]. eexists. split; [reflexivity |].
  unfold aligned. cbn [rate seedLen counter c set_counter set_c].
  split; [split; [lia | exists d'; split; [reflexivity | split; [exact Hd' | congruence]]] |].
  auto.
Qed.

Lemma newState_atBoundary (r : Z) :
  0 < r <= 200 -> atBoundary (Sponge.newState r dsbyteShake).
Proof.
  intros Hr. split; [apply newState_absorbing, Hr | split; reflexivity].
Qed.

Lemma state_Reset_atBoundary (d : Sponge.state) :
  0 < Sponge.rate d <= 200 -> Sponge.dsbyte d = dsbyteShake ->
  atBoundary (Sponge.state_Reset d).
Proof.
  intros Hr Hds. split; [apply state_Reset_absorbing, Hr |].
  split; [reflexivity | exact Hds].
Qed.

(** ** The read and its replay *)

Lemma copyOut_loop_length (fuel : nat) (lanes : list Z) (b out : list byte) :
  Sponge.copyOut_loop fuel lanes b = Val out -> length out = length b.
Proof.
  revert lanes b out. induction fuel as [| fuel IH]; intros lanes b out.
  - cbn [Sponge.copyOut_loop]. intros [= <-]. reflexivity.
  - cbn [Sponge.copyOut_loop]. destruct (8 <=? len b) eqn:H8; [| intros [= <-]; reflexivity].
    apply Z.leb_le in H8.
    destruct lanes as [| x lanes]; [intros [= ] |].
    destruct (Sponge.copyOut_loop fuel lanes (skipn 8 b)) as [| rest] eqn:Hrec;
      cbn [bind]; [intros [= ] |].
    intros Heq.
    assert (Hout : out = Sponge.PutUint64_le x ++ rest) by congruence.
    subst out. apply IH in Hrec.
    rewrite length_app, Hrec, length_skipn.
    change (length (Sponge.PutUint64_le x)) with 8%nat.
    unfold len in H8. lia.
Qed.

(** A block of output: [copyOut] of the lanes into [r] fresh bytes. *)
Lemma copyOut_block (lanes : list Z) (r : Z) :
  length lanes = 25%nat -> 0 <= r <= 200 ->
  exists blk, Sponge.copyOut lanes (zeros r) = Val blk /\ len blk = r.
Proof.
  intros Hl Hr. destruct (copyOut_ok lanes r Hl ltac:(lia)) as (blk & Hblk).
  exists blk. split; [exact Hblk |].
  apply copyOut_loop_length in Hblk. unfold len. rewrite Hblk.
  fold (len (zeros r)). apply len_zeros. lia.
Qed.

Lemma iter_permute_length (q : nat) (lanes : list Z) :
  length lanes = 25%nat -> length (Nat.iter q Sponge.permute lanes) = 25%nat.
Proof.
  intros Hl. induction q as [| q IH]; [exact Hl |].
  cbn [Nat.iter]. unfold Sponge.permute at 1. apply keccakF1600_length, IH.
Qed.

(** Reading [q] whole blocks and all but one byte of the next, from the
    start of a block: the lanes are permuted [q] times and one byte of the
    current block is left. *)
Lemma squeeze_short_of_block (q : nat) (fuel : nat) (r : Z) (lanes : list Z)
  (cur : list byte) :
  1 < r <= 200 -> length lanes = 25%nat -> len cur = r ->
  (q + 1 <= fuel)%nat ->
  exists cur' out,
    Sponge.squeeze fuel r lanes cur (Z.of_nat q * r + (r - 1))
    = Val (Nat.iter q Sponge.permute lanes, cur', out) /\
    len cur' = 1.
Proof.
  intros Hr. revert fuel lanes cur.
  induction q as [| q IH]; intros fuel lanes cur Hl Hcur Hf.
  - destruct fuel as [| fuel]; [lia |].
    cbn [Sponge.squeeze Nat.iter].
    replace (Z.of_nat 0 * r + (r - 1)) with (r - 1) by lia.
    replace (r - 1 <=? 0) with false by (symmetry; apply Z.leb_gt; lia).
    cbv zeta.
    replace (Z.min (r - 1) (len cur)) with (r - 1) by lia.
    assert (Hsk : len (skipn (Z.to_nat (r - 1)) cur) = 1).
    { unfold len in *. rewrite length_skipn. lia. }
    rewrite Hsk. cbn [Z.eqb bind].
    replace (r - 1 - Z.of_nat (Z.to_nat (r - 1))) with 0 by lia.
    assert (Hrest : Sponge.squeeze fuel r lanes (skipn (Z.to_nat (r - 1)) cur) 0
                    = Val (lanes, skipn (Z.to_nat (r - 1)) cur, [])).
    { destruct fuel; reflexivity. }
    rewrite Hrest. cbn [bind]. do 2 eexists. split; [reflexivity | exact Hsk].
  - destruct fuel as [| fuel]; [lia |].
    cbn [Sponge.squeeze].
    set (n := Z.of_nat (S q) * r + (r - 1)).
    assert (Hn : r <= n) by (unfold n; nia).
    replace (n <=? 0) with false by (symmetry; apply Z.leb_gt; lia).
    cbv zeta.
    replace (Z.min n (len cur)) with r by lia.
    assert (Hsk : skipn (Z.to_nat r) cur = []).
    { apply skipn_all2. unfold len in Hcur. lia. }
    rewrite Hsk. change (len (@nil byte) =? 0) with true. cbv iota.
    assert (Hlp : length (Sponge.permute lanes) = 25%nat)
      by (unfold Sponge.permute; apply keccakF1600_length, Hl).
    destruct (copyOut_block (Sponge.permute lanes) r Hlp ltac:(lia)) as (blk & -> & Hblk).
    cbn [bind].
    replace (n - Z.of_nat (Z.to_nat r)) with (Z.of_nat q * r + (r - 1))
      by (unfold n; lia).
    destruct (IH fuel (Sponge.permute lanes) blk Hlp Hblk ltac:(lia))
      as (cur' & out & -> & Hcur').
    cbn [bind]. rewrite Nat.iter_succ_r.
    do 2 eexists. split; [reflexivity | exact Hcur'].
Qed.

(** At a block boundary of a SHAKE sponge the block the finalization xors
    in is the pad [gen10x01Pad] builds. *)
Lemma final_block_is_pad (r : Z) :
  2 <= r ->
  set_nth (([] ++ [dsbyteShake]) ++ zeros (r - len ([] ++ [dsbyteShake])))
    (Z.to_nat (r - 1))
    (Z.lxor (nth (Z.to_nat (r - 1))
               (([] ++ [dsbyteShake]) ++ zeros (r - len ([] ++ [dsbyteShake]))) 0)
            0x80)
  = gen10x01Pad r.
Proof.
  intros Hr. rewrite gen10x01Pad_long by exact Hr.
  cbn [app]. change (len [dsbyteShake]) with 1. unfold zeros.
  replace (Z.to_nat (r - 1)) with (S (Z.to_nat (r - 2))) by lia.
  generalize (Z.to_nat (r - 2)) as m. intros m.
  cbn [set_nth nth].
  rewrite nth_repeat, set_nth_repeat_last. reflexivity.
Qed.

(** The first read from a sponge at a block boundary, of [q] blocks and all
    but one byte of the next. *)
Lemma state_Read_boundary (d : Sponge.state) (q : nat) :
  atBoundary d -> 1 < Sponge.rate d ->
  exists lanes1 h1 data,
    Sponge.xorIn (Sponge.a d) (gen10x01Pad (Sponge.rate d)) = Val lanes1 /\
    length lanes1 = 25%nat /\
    Sponge.state_Read d (Z.of_nat q * Sponge.rate d + (Sponge.rate d - 1))
    = Val (h1, data, None) /\
    Sponge.a h1 = Nat.iter q Sponge.permute (Sponge.permute lanes1) /\
    Sponge.direction h1 = Sponge.spongeSqueezing /\
    len (Sponge.buf h1) = 1 /\
    Sponge.rate h1 = Sponge.rate d.
Proof.
  intros ((Hdir & Hr & Hl & Hb) & Hbuf & Hds) Hr1.
  set (r := Sponge.rate d) in *.
  assert (Hpad : len (gen10x01Pad r) = r).
  { rewrite gen10x01Pad_long by lia. unfold len. cbn [length].
    rewrite length_app. cbn [length]. unfold zeros. rewrite repeat_length. lia. }
  destruct (xorIn_ok (Sponge.a d) (gen10x01Pad r) ltac:(lia)) as (lanes1 & Hx & Hl1).
  rewrite Hl in Hl1.
  assert (Hlp : length (Sponge.permute lanes1) = 25%nat)
    by (unfold Sponge.permute; apply keccakF1600_length, Hl1).
  destruct (copyOut_block (Sponge.permute lanes1) r Hlp ltac:(lia)) as (blk & Hblk & Hlen).
  destruct (squeeze_short_of_block q (Z.to_nat (Z.of_nat q * r + (r - 1))) r
              (Sponge.permute lanes1) blk ltac:(lia) Hlp Hlen)
    as (cur' & out & Hsq & Hcur'); [nia |].
  exists lanes1. do 2 eexists.
  split; [exact Hx |]. split; [exact Hl1 |].
  unfold Sponge.state_Read. rewrite Hdir. unfold Sponge.padAndPermute.
  fold r. replace (r <=? 0) with false by (symmetry; apply Z.leb_gt; lia).
  cbv zeta. rewrite Hbuf, Hds, (final_block_is_pad r) by lia.
  rewrite Hx. cbn [bind]. rewrite Hblk. cbn [bind].
  cbn [Sponge.rate Sponge.a Sponge.buf Sponge.dsbyte].
  rewrite Hsq. cbn [bind].
  split; [reflexivity |].
  cbn [Sponge.a Sponge.direction Sponge.buf Sponge.rate]. auto.
Qed.

(** The replay loop on a sponge at a block boundary: [q] blocks of zeros
    permute the lanes [q] times. *)
Lemma Generate_replay_loop_boundary (q : nat) (dup : Sponge.state) :
  atBoundary dup ->
  Generate_replay_loop q dup (zeros (Sponge.rate dup)) (Z.of_nat q)
  = Val (Sponge.mkState (Nat.iter q Sponge.permute (Sponge.a dup)) []
           (Sponge.rate dup) (Sponge.dsbyte dup) Sponge.spongeAbsorbing,
         0, None : option Empty_set).
Proof.
  revert dup. induction q as [| q IH]; intros dup Hd.
  - destruct Hd as ((Hdir & _) & Hbuf & _).
    cbn [Generate_replay_loop Nat.iter Z.of_nat].
    destruct dup as [lanes b r ds dir]. cbn in *. subst. reflexivity.
  - pose proof Hd as ((Hdir & Hr & Hl & _) & Hbuf & Hds).
    cbn [Generate_replay_loop].
    replace (Z.of_nat (S q) >? 0) with true by (symmetry; rewrite Z.gtb_ltb; apply Z.ltb_lt; lia).
    cbn [Write state_ShakeHash].
    rewrite (state_Write_one_block dup (zeros (Sponge.rate dup)) (Sponge.a dup));
      [| exact Hdir | exact Hbuf | lia | apply len_zeros; lia | apply xorIn_zeros; lia].
    cbn [bind].
    replace (Z.of_nat (S q) - 1) with (Z.of_nat q) by lia.
    set (dup1 := Sponge.mkState (Sponge.permute (Sponge.a dup)) [] (Sponge.rate dup)
                   (Sponge.dsbyte dup) Sponge.spongeAbsorbing).
    assert (Hd1 : atBoundary dup1).
    { split; [| split; [reflexivity | exact Hds]].
      unfold absorbing, dup1. cbn [Sponge.direction Sponge.rate Sponge.a Sponge.buf].
      split; [reflexivity |]. split; [exact Hr |].
      split; [unfold Sponge.permute; apply keccakF1600_length, Hl |].
      change (len (@nil byte)) with 0. lia. }
    change (Sponge.rate dup) with (Sponge.rate dup1) at 1.
    rewrite (IH dup1 Hd1). unfold dup1.
    cbn [Sponge.a Sponge.rate Sponge.dsbyte].
    rewrite Nat.iter_succ_r. reflexivity.
Qed.

(** The two stages of [Generate] that read and replay, on an engine whose
    context is at a block boundary. *)
Lemma Generate_read_and_replay (s : ShakePRNG Sponge.state) (out additionalIn : list byte) :
  aligned s ->
  exists s1 dup buf dup2 h1,
    Generate_squeeze (E:=Empty_set) s out additionalIn
    = Val (Next (s1, dup, buf, copy out buf)) /\
    Generate_replay (E:=Empty_set) s1 dup buf (copy out buf) = Val (Next (dup2, 0)) /\
    rate s1 = rate s /\ seedLen s1 = seedLen s /\ counter s1 = counter s /\
    c s1 = Some h1 /\
    len buf = scratchLen (len out) (rate s) /\
    atBoundary dup /\ Sponge.rate dup = rate s /\
    Sponge.direction h1 = Sponge.spongeSqueezing /\
    len (Sponge.buf h1) = 1 /\
    atBoundary dup2 /\ Sponge.rate dup2 = rate s /\
    Sponge.a dup2 = Sponge.a h1.
Proof.
  intros (Hr & d & Hc & Hd & Hrd).
  pose proof (getStartFrom_byte s additionalIn) as Hst. unfold is_byte in Hst.
  pose proof (len_nonneg out) as Hlo.
  unfold Generate_squeeze. rewrite Hc.
  destruct (writeWithPad_boundary s d additionalIn (getStartFrom s additionalIn))
    as (s0 & d0 & -> & Hd0 & Hrd0 & Hr0 & Hsl0 & Hc0 & _);
    [lia | lia | exact Hd | exact Hrd |].
  cbn [bind c set_c rate]. rewrite Hr0.
  replace (rate s =? 0) with false by (symmetry; apply Z.eqb_neq; lia).
  fold (scratchLen (len out) (rate s)).
  destruct (scratchLen_covers (len out) (rate s)) as (Hcov & Hcov1); [lia | lia |].
  replace (scratchLen (len out) (rate s) <? 0) with false
    by (symmetry; apply Z.ltb_ge; lia).
  cbn [Read Clone state_ShakeHash].
  (* the read *)
  assert (Hrate0 : Sponge.rate d0 = rate s) by congruence.
  set (q := Z.to_nat (len out / rate s)).
  assert (Hq : 0 <= len out / rate s) by (apply Z.div_pos; lia).
  assert (Hn : scratchLen (len out) (rate s)
               = Z.of_nat q * Sponge.rate d0 + (Sponge.rate d0 - 1)).
  { unfold scratchLen, q. rewrite Z.quot_div_nonneg, Z2Nat.id, Hrate0 by lia. lia. }
  destruct (state_Read_boundary d0 q Hd0 ltac:(lia))
    as (lanes1 & h1 & data & Hx & Hl1 & Hread & Hah1 & Hdir1 & Hbuf1 & Hrh1).
  rewrite Hn, Hread. rewrite <- Hn.
  cbn [bind]. unfold Sponge.clone.
  set (buf := copy (zeros (scratchLen (len out) (rate s))) data).
  assert (Hbuf : len buf = scratchLen (len out) (rate s)).
  { unfold buf. rewrite len_copy. apply len_zeros. lia. }
  set (s1 := set_c (set_c s0 (Some d0)) (Some h1)).
  exists s1, d0, buf.
  (* the replay *)
  pose proof Hd0 as ((Hdir0 & Hrr0 & Hl0 & _) & Hbuf0 & Hds0).
  assert (Hpad : len (gen10x01Pad (rate s)) = rate s).
  { rewrite gen10x01Pad_long by lia. unfold len. cbn [length].
    rewrite length_app. cbn [length]. unfold zeros. rewrite repeat_length. lia. }
  set (dup1 := Sponge.mkState (Sponge.permute lanes1) [] (Sponge.rate d0)
                 (Sponge.dsbyte d0) Sponge.spongeAbsorbing).
  assert (Hd1 : atBoundary dup1).
  { split; [| split; [reflexivity | exact Hds0]].
    unfold absorbing, dup1. cbn [Sponge.direction Sponge.rate Sponge.a Sponge.buf].
    split; [reflexivity |]. split; [exact Hrr0 |].
    split; [unfold Sponge.permute; apply keccakF1600_length, Hl1 |].
    change (len (@nil byte)) with 0. lia. }
  assert (Hnq : Z.quot (len buf) (rate s) = Z.of_nat q).
  { rewrite Hbuf, Z.quot_div_nonneg by lia.
    unfold scratchLen, q. rewrite Z.quot_div_nonneg, Z2Nat.id by lia.
    replace ((len out / rate s + 1) * rate s - 1)
      with (rate s - 1 + (len out / rate s) * rate s) by lia.
    rewrite Z.div_add by lia. rewrite Z.div_small by lia. lia. }
  assert (Hreplay : Generate_replay (E:=Empty_set) s1 d0 buf (copy out buf)
                    = Val (Next (Sponge.mkState
                                   (Nat.iter q Sponge.permute (Sponge.permute lanes1)) []
                                   (Sponge.rate d0) (Sponge.dsbyte d0)
                                   Sponge.spongeAbsorbing, 0))).
  { unfold Generate_replay.
    replace (rate s1) with (rate s) by (unfold s1; cbn; congruence).
    cbn [Write state_ShakeHash].
    rewrite (state_Write_one_block d0 (gen10x01Pad (rate s)) lanes1);
      [| exact Hdir0 | exact Hbuf0 | lia | congruence | rewrite <- Hrate0; exact Hx].
    cbn [bind].
    replace (rate s =? 0) with false by (symmetry; apply Z.eqb_neq; lia).
    replace (rate s <? 0) with false by (symmetry; apply Z.ltb_ge; lia).
    rewrite Hnq, Nat2Z.id. fold dup1.
    replace (rate s) with (Sponge.rate dup1) by (unfold dup1; cbn; exact Hrate0).
    rewrite (Generate_replay_loop_boundary q dup1 Hd1).
    cbn [bind]. reflexivity. }
  do 2 eexists.
  split; [reflexivity |]. split; [exact Hreplay |].
  unfold s1. cbn [rate seedLen counter c set_c].
  repeat (split; [first [assumption | reflexivity | congruence] |]).
  split.
  { split; [| split; [reflexivity | exact Hds0]].
    unfold absorbing. cbn [Sponge.direction Sponge.rate Sponge.a Sponge.buf].
    split; [reflexivity |]. split; [exact Hrr0 |].
    split; [apply iter_permute_length; unfold Sponge.permute;
            apply keccakF1600_length, Hl1 |].
    change (len (@nil byte)) with 0. lia. }
  cbn [Sponge.rate Sponge.a]. split; [exact Hrate0 | congruence].
Qed.

(** ** The engine on the sponge, call after call *)

(** X17. The simulated read is exact. On an engine whose context is at a
    block boundary, [Generate] reads all but the last byte of a whole
    number of blocks, so that the context it read from stops one byte
    short of a permutation; and the clone, after the pad of
    [gen10x01Pad] and one block of zeros per block read, is at a block
    boundary with the very lanes of the context that was read. *)
Theorem Generate_replay_tracks_read (s : ShakePRNG Sponge.state)
  (out additionalIn : list byte) (Hs : aligned s) :
  exists s1 dup buf out1 dup2 h1,
    Generate_squeeze (E:=Empty_set) s out additionalIn
    = Val (Next (s1, dup, buf, out1)) /\
    Generate_replay (E:=Empty_set) s1 dup buf out1 = Val (Next (dup2, 0)) /\
    c s1 = Some h1 /\
    len buf = (len out / rate s + 1) * rate s - 1 /\
    Sponge.direction h1 = Sponge.spongeSqueezing /\
    len (Sponge.buf h1) = 1 /\
    Sponge.direction dup2 = Sponge.spongeAbsorbing /\
    Sponge.buf dup2 = [] /\
    Sponge.a dup2 = Sponge.a h1.
Proof.
  destruct (Generate_read_and_replay s out additionalIn Hs)
    as (s1 & dup & buf & dup2 & h1 & Hsq & Hrp & _ & _ & _ & Hc1 & Hbuf & _ & _
        & Hdir1 & Hb1 & Hd2 & _ & Ha).
  exists s1, dup, buf, (copy out buf), dup2, h1.
  split; [exact Hsq |]. split; [exact Hrp |]. split; [exact Hc1 |].
  split.
  { rewrite Hbuf. unfold scratchLen.
    destruct Hs as (Hr & _). pose proof (len_nonneg out).
    rewrite Z.quot_div_nonneg by lia. reflexivity. }
  destruct Hd2 as ((Hdir2 & _) & Hbuf2 & _). auto.
Qed.

Lemma Generate_replay_tracks_read_witness :
  exists s1 dup buf out1 dup2 h1,
    Generate_squeeze (E:=Empty_set) (engine256 0 1) main_buf main_additionalIn
    = Val (Next (s1, dup, buf, out1)) /\
    Generate_replay (E:=Empty_set) s1 dup buf out1 = Val (Next (dup2, 0)) /\
    c s1 = Some h1 /\
    Sponge.a dup2 = Sponge.a h1.
Proof.
  assert (Hs : aligned (engine256 0 1)).
  { split; [reflexivity |].
    exists Sponge.NewShake256. split; [reflexivity |].
    split; [| reflexivity].
    apply newState_atBoundary. unfold rate256. lia. }
  destruct (Generate_replay_tracks_read (engine256 0 1) main_buf main_additionalIn Hs)
    as (s1 & dup & buf & out1 & dup2 & h1 & Hsq & Hrp & Hc & _ & _ & _ & _ & _ & Ha).
  exists s1, dup, buf, out1, dup2, h1. auto.
Defined.

(** On an engine whose context is at a block boundary [Generate] succeeds
    on every request that passes the checks, and leaves the context at a
    boundary. *)
Lemma Generate_aligned (s : ShakePRNG Sponge.state) (out additionalIn : list byte) :
  aligned s -> counter s <= 2 ^ 48 ->
  1 <= len out <= 2 ^ 32 -> len additionalIn <= 2 ^ 32 ->
  exists s' out',
    Generate (E:=Empty_set) s out additionalIn = Val (s', out', None) /\
    aligned s' /\ rate s' = rate s /\ seedLen s' = seedLen s /\
    counter s' = wrap_int (counter s + 1) /\ length out' = length out.
Proof.
  intros Hs Hcnt Hlo Hli. pose proof Hs as (Hr & _).
  unfold Generate.
  destruct (Generate_validate_cases (E:=Empty_set) s out additionalIn)
    as [(Hgt & _) | [(_ & Hbad & _) | (_ & _ & _ & ->)]]; [lia | lia |].
  cbn [andThen].
  destruct (Generate_read_and_replay s out additionalIn Hs)
    as (s1 & dup & buf & dup2 & h1 & -> & Hrp & Hr1 & Hsl1 & Hc1 & Hch1 & Hbuf & _ & _
        & _ & _ & Hd2 & Hrd2 & _).
  cbn [andThen]. rewrite Hrp. cbn [andThen].
  destruct (scratchLen_covers (len out) (rate s)) as (_ & Hcov1); [lia | lia |].
  destruct (Generate_window_ok s1 buf)
    as (start & b & -> & _ & Hstart & _ & _ & _ & Hb); [lia | lia |].
  cbn [bind]. unfold Generate_remix.
  pose proof (to_byte_range start) as Hsb. unfold is_byte in Hsb.
  destruct (writeWithPad_boundary s1 dup2 (createMask b) (to_byte start))
    as (s2 & d3 & -> & Hd3 & Hrd3 & Hr2 & Hsl2 & Hc2 & Hcc2);
    [lia | lia | exact Hd2 | congruence |].
  cbn [bind]. rewrite Hcc2, Hch1. cbn [finish].
  do 2 eexists. split; [reflexivity |].
  unfold aligned. cbn [rate seedLen counter c set_counter set_c].
  split.
  { split; [lia |].
    exists d3. split; [reflexivity |]. split; [exact Hd3 | congruence]. }
  split; [congruence |]. split; [congruence |].
  split; [congruence | apply copy_length].
Qed.

(** [Reset] on the sponge: the context it resets needs no more than the
    rate and the domain byte of the engine. *)
Lemma PRNG_Reset_aligned (s : ShakePRNG Sponge.state) (seed : list byte) :
  aligned s ->
  Z.quot (seedLen s) 2 <= len seed <= 2 ^ 32 ->
  exists s',
    PRNG_Reset (E:=Empty_set) s seed = Val (s', None) /\
    aligned s' /\ counter s' = 0 /\ seedLen s' = seedLen s /\ rate s' = rate s.
Proof.
  intros (Hr & d & Hc & ((_ & Hrr & _) & _ & Hds) & Hrd) Hrange.
  unfold PRNG_Reset. rewrite Hc.
  destruct (Reseed_aligned (set_nw (set_c s (Some (Reset d))) 0) seed)
    as (s' & Hrs & Hs' & Hcnt & Hsl & Hrate).
  - split; [exact Hr |]. cbn [c rate set_nw set_c Reset state_ShakeHash].
    eexists. split; [reflexivity |].
    split; [apply state_Reset_atBoundary; assumption | exact Hrd].
  - exact Hrange.
  - exists s'. cbn [rate seedLen set_nw set_c] in Hsl, Hrate. auto.
Qed.

(** One call on an engine whose context is at a block boundary. *)
Lemma doCall_aligned (s : ShakePRNG Sponge.state) (cl : call) :
  aligned s ->
  exists s1 e,
    doCall (E:=Empty_set) s cl = Val (s1, e) /\
    aligned s1 /\ rate s1 = rate s /\ seedLen s1 = seedLen s /\
    (forall err, e = Some err -> IsEarlyError err = true).
Proof.
  intros Hs. destruct cl as [out additionalIn | seed | seed]; cbn [doCall].
  - destruct (Generate_validate_cases (E:=Empty_set) s out additionalIn)
      as [(_ & msg & Hv) | [(_ & _ & msg & args & Hv) | (Hcnt & Hlo & Hli & _)]].
    + unfold Generate. rewrite Hv. cbn [andThen finish bind].
      do 2 eexists. split; [reflexivity |]. split; [exact Hs |].
      split; [reflexivity |]. split; [reflexivity |].
      intros err [= <-]. reflexivity.
    + unfold Generate. rewrite Hv. cbn [andThen finish bind].
      do 2 eexists. split; [reflexivity |]. split; [exact Hs |].
      split; [reflexivity |]. split; [reflexivity |].
      intros err [= <-]. reflexivity.
    + destruct (Generate_aligned s out additionalIn Hs Hcnt Hlo Hli)
        as (s' & out' & -> & Hs' & Hr' & Hsl' & _).
      cbn [bind]. do 2 eexists. split; [reflexivity |].
      split; [exact Hs' |]. split; [exact Hr' |]. split; [exact Hsl' |].
      intros err [= ].
  - destruct (Reseed_cases (E:=Empty_set) s seed) as [(_ & msg & args & ->) | (Hok & _)].
    + do 2 eexists. split; [reflexivity |]. split; [exact Hs |].
      split; [reflexivity |]. split; [reflexivity |].
      intros err [= <-]. reflexivity.
    + destruct (Reseed_aligned s seed Hs Hok) as (s' & -> & Hs' & _ & Hsl' & Hr').
      do 2 eexists. split; [reflexivity |].
      split; [exact Hs' |]. split; [exact Hr' |]. split; [exact Hsl' |].
      intros err [= ].
  - pose proof Hs as (Hr & d & Hc & ((_ & Hrr & _) & _ & Hds) & Hrd).
    destruct (Z_lt_le_dec (len seed) (Z.quot (seedLen s) 2)) as [Hshort | Hlong];
      [| destruct (Z_lt_le_dec (2 ^ 32) (len seed)) as [Hbig | Hfit]].
    + unfold PRNG_Reset. rewrite Hc.
      destruct (Reseed_cases (E:=Empty_set) (set_nw (set_c s (Some (Reset d))) 0) seed)
        as [(_ & msg & args & ->) | (Hok & _)]; [| cbn [seedLen set_nw set_c] in Hok; lia].
      do 2 eexists. split; [reflexivity |].
      split; [| split; [reflexivity | split; [reflexivity |]]].
      * split; [exact Hr |]. cbn [c rate set_nw set_c Reset state_ShakeHash].
        eexists. split; [reflexivity |].
        split; [apply state_Reset_atBoundary; assumption | exact Hrd].
      * intros err [= <-]. reflexivity.
    + unfold PRNG_Reset. rewrite Hc.
      destruct (Reseed_cases (E:=Empty_set) (set_nw (set_c s (Some (Reset d))) 0) seed)
        as [(_ & msg & args & ->) | (Hok & _)]; [| cbn [seedLen set_nw set_c] in Hok; lia].
      do 2 eexists. split; [reflexivity |].
      split; [| split; [reflexivity | split; [reflexivity |]]].
      * split; [exact Hr |]. cbn [c rate set_nw set_c Reset state_ShakeHash].
        eexists. split; [reflexivity |].
        split; [apply state_Reset_atBoundary; assumption | exact Hrd].
      * intros err [= <-]. reflexivity.
    + destruct (PRNG_Reset_aligned s seed Hs ltac:(lia)) as (s' & -> & Hs' & _ & Hsl' & Hr').
      do 2 eexists. split; [reflexivity |].
      split; [exact Hs' |]. split; [exact Hr' |]. split; [exact Hsl' |].
      intros err [= ].
Qed.

(** [NewShakeDRBG] on the sponge returns an engine whose context is at a
    block boundary. *)
Lemma NewShakeDRBG_aligned (bits : Z) (seed : list byte) :
  (bits = 128 /\ 16 <= len seed <= 2 ^ 32) \/
  (bits = 256 /\ 32 <= len seed <= 2 ^ 32) ->
  exists s,
    NewShakeDRBG (E:=Empty_set) bits seed = Val (Some s, None) /\ aligned s /\
    counter s = 0.
Proof.
  intros Hb. unfold NewShakeDRBG.
  assert (Hinit : forall s0 : ShakePRNG Sponge.state,
             aligned s0 -> Z.quot (seedLen s0) 2 <= len seed <= 2 ^ 32 ->
             exists s,
               ('(drbg, e) <- PRNG_Reset (E:=Empty_set) s0 seed ;;
                match e with
                | Some e1 =>
                    Val (None, Some (WrapTraceableErrorf (Some e1)
                                       "failed to initialize the SHAKE%d DRBG" [bits]))
                | None => Val (Some drbg, None)
                end) = Val (Some s, None) /\ aligned s /\ counter s = 0).
  { intros s0 Hs0 Hrange.
    destruct (PRNG_Reset_aligned s0 seed Hs0 Hrange) as (s & -> & Hs & Hcnt & _).
    cbn [bind]. eauto. }
  destruct Hb as [(-> & Hlen) | (-> & Hlen)]; cbn [Z.eqb Pos.eqb].
  - apply Hinit.
    + split; [reflexivity |]. eexists. split; [reflexivity |].
      split; [| reflexivity]. apply newState_atBoundary. unfold rate128. lia.
    + cbn. exact Hlen.
  - apply Hinit.
    + split; [reflexivity |]. eexists. split; [reflexivity |].
      split; [| reflexivity]. apply newState_atBoundary. unfold rate256. lia.
    + cbn. exact Hlen.
Qed.

(** X18. On the sponge a created engine cannot be made to panic, and it is
    never destroyed. From an engine whose context is at a block boundary,
    as [NewShakeDRBG] returns it, every sequence of [Generate], [Reseed]
    and [Reset] calls, with whatever buffers and seeds, runs to its end;
    the engine keeps its rate and seed length and its context is again at
    a block boundary; and every error returned on the way is one of the
    checks made before the hash is touched. *)
Theorem runCalls_never_panics (s : ShakePRNG Sponge.state) (calls : list call)
  (Hs : aligned s) :
  exists s' errs,
    runCalls (E:=Empty_set) s calls = Val (s', errs) /\
    aligned s' /\ rate s' = rate s /\ seedLen s' = seedLen s /\
    length errs = length calls /\
    Forall (fun e => forall err, e = Some err -> IsEarlyError err = true) errs.
Proof.
  revert s Hs. induction calls as [| cl calls IH]; intros s Hs.
  - exists s, []. cbn [runCalls].
    split; [reflexivity |]. split; [exact Hs |]. auto.
  - cbn [runCalls].
    destruct (doCall_aligned s cl Hs) as (s1 & e & -> & Hs1 & Hr1 & Hsl1 & He).
    cbn [bind].
    destruct (IH s1 Hs1) as (s2 & errs & -> & Hs2 & Hr2 & Hsl2 & Hlen & Herrs).
    cbn [bind]. exists s2, (e :: errs).
    split; [reflexivity |]. split; [exact Hs2 |].
    split; [congruence |]. split; [congruence |].
    split; [cbn [length]; congruence |].
    constructor; assumption.
Qed.

Lemma runCalls_never_panics_witness :
  exists s' errs,
    runCalls (E:=Empty_set) (engine256 0 1)
      [CallGenerate [] []; CallReseed (zeros 32); CallGenerate main_buf []]
    = Val (s', errs) /\
    aligned s'.
Proof.
  assert (Hs : aligned (engine256 0 1)).
  { split; [reflexivity |].
    exists Sponge.NewShake256. split; [reflexivity |].
    split; [| reflexivity].
    apply newState_atBoundary. unfold rate256. lia. }
  destruct (runCalls_never_panics (engine256 0 1)
              [CallGenerate [] []; CallReseed (zeros 32); CallGenerate main_buf []] Hs)
    as (s' & errs & Hrun & Hs' & _).
  exists s', errs. auto.
Defined.

(** X19. [NewShakeDRBG] on the sponge never panics, and it returns an
    engine exactly for a strength of 128 with a seed of 16 to [2^32] bytes
    and a strength of 256 with a seed of 32 to [2^32] bytes. The engine has
    the rate and seed length of its strength, a zero request counter, one
    absorb counted, and its context at a block boundary. *)
Theorem NewShakeDRBG_sponge_total (bits : Z) (seed : list byte) :
  ((bits = 128 /\ 16 <= len seed <= 2 ^ 32) \/
   (bits = 256 /\ 32 <= len seed <= 2 ^ 32) ->
   exists s,
     NewShakeDRBG (E:=Empty_set) bits seed = Val (Some s, None) /\
     aligned s /\ counter s = 0 /\ nw s = 1 /\
     ((bits = 128 /\ rate s = rate128 /\ seedLen s = 32) \/
      (bits = 256 /\ rate s = rate256 /\ seedLen s = 64))) /\
  (~ ((bits = 128 /\ 16 <= len seed <= 2 ^ 32) \/
      (bits = 256 /\ 32 <= len seed <= 2 ^ 32)) ->
   exists e,
     NewShakeDRBG (H:=Sponge.state) (E:=Empty_set) bits seed = Val (None, Some e)).
Proof.
  split.
  - intros Hb.
    destruct (NewShakeDRBG_aligned bits seed Hb) as (s & Hnew & Hs & Hcnt).
    exists s. split; [exact Hnew |]. split; [exact Hs |].
    apply NewShakeDRBG_success in Hnew. tauto.
  - intros Hnot.
    destruct (Z.eq_dec bits 128) as [H128 | H128];
      [| destruct (Z.eq_dec bits 256) as [H256 | H256]].
    + destruct (NewShakeDRBG_bad_seed (H:=Sponge.state) (E:=Empty_set) bits seed)
        as (msg & e & Hnew & _); [left; split; [exact H128 | lia] |].
      eauto.
    + destruct (NewShakeDRBG_bad_seed (H:=Sponge.state) (E:=Empty_set) bits seed)
        as (msg & e & Hnew & _); [right; split; [exact H256 | lia] |].
      eauto.
    + destruct (NewShakeDRBG_bad_bits (H:=Sponge.state) (E:=Empty_set) bits seed H128 H256)
        as (e & Hnew & _).
      eauto.
Qed.

Lemma NewShakeDRBG_sponge_total_witness :
  exists s,
    NewShakeDRBG (E:=Empty_set) 256 main_seed = Val (Some s, None) /\ aligned s.
Proof.
  destruct (NewShakeDRBG_sponge_total 256 main_seed) as (Hok & _).
  destruct Hok as (s & Hnew & Hs & _).
  - right. split; [reflexivity |]. vm_compute. split; discriminate.
  - exists s. auto.
Defined.

Section CounterIrrelevant.

Context {H E : Type} `{HashOps : ShakeHash H E}.

Lemma writeWithPad_set_counter (s : ShakePRNG H) (k : Z) (h : option H)
  (p : list byte) (start : byte) :
  writeWithPad (E:=E) (set_counter s k) h p start =
    ('(s', h', e) <- writeWithPad s h p start ;; Val (set_counter s' k, h', e)).
Proof.
  unfold writeWithPad. cbn [rate nw set_counter].
  destruct (len p =? 0); [reflexivity |].
  cbv zeta. destruct h as [h0 |]; [| reflexivity].
  destruct (Write h0 _) as [| [h1 [e1 |]]]; cbn [bind]; [reflexivity | reflexivity |].
  destruct (rate s =? 0); [reflexivity |].
  destruct (_ <? 0); [reflexivity |].
  destruct (Write h1 _) as [| [h2 [e2 |]]]; reflexivity.
Qed.

(** A [Reseed] that succeeds does not depend on the request counter. *)
Lemma Reseed_set_counter (s s' : ShakePRNG H) (k : Z) (seed : list byte) :
  Reseed (E:=E) (set_counter s k) seed = Val (s', None) <->
  Reseed (E:=E) s seed = Val (s', None).
Proof.
  unfold Reseed. cbn [seedLen c set_counter]. cbv zeta.
  destruct (len seed <? Z.quot (seedLen s) 2); [split; intros [= ] |].
  destruct (len seed >? MaxInputLength); [split; intros [= ] |].
  change (mkShakePRNG (c s) (rate s) (seedLen s) k (nw s)) with (set_counter s k).
  change (getStartFrom (set_counter s k) seed) with (getStartFrom s seed).
  rewrite writeWithPad_set_counter.
  destruct (writeWithPad s (c s) seed (getStartFrom s seed)) as [| [[s0 h0] [e |]]];
    cbn [bind].
  - split; intros [= ].
  - cbn [c set_c set_counter].
    destruct h0; cbn [Destroy c set_c bind]; split; intros [= ].
  - cbn [set_counter set_c c rate seedLen nw counter]. reflexivity.
Qed.

End CounterIrrelevant.

(** X20. [Reset] forgets the past of the engine. On the sponge, whatever an
    engine of strength 128 or 256 has been through, a [Reset] with a seed
    succeeds exactly when [NewShakeDRBG] of that strength does with that
    seed, and the engine it leaves is the one [NewShakeDRBG] returns:
    context, counters and all. *)
Theorem PRNG_Reset_as_new (bits : Z) (s s' : ShakePRNG Sponge.state) (seed : list byte)
  (Hs : aligned s)
  (Hb : (bits = 128 /\ rate s = rate128 /\ seedLen s = 32) \/
        (bits = 256 /\ rate s = rate256 /\ seedLen s = 64)) :
  PRNG_Reset (E:=Empty_set) s seed = Val (s', None) <->
  NewShakeDRBG (E:=Empty_set) bits seed = Val (Some s', None).
Proof.
  destruct Hs as (_ & d & Hc & (_ & _ & Hds) & Hrd).
  assert (Hinit : forall s0 : ShakePRNG Sponge.state,
             ('(drbg, e) <- PRNG_Reset (E:=Empty_set) s0 seed ;;
              match e with
              | Some e1 =>
                  Val (None, Some (WrapTraceableErrorf (Some e1)
                                     "failed to initialize the SHAKE%d DRBG" [bits]))
              | None => Val (Some drbg, None)
              end) = Val (Some s', None) <->
             PRNG_Reset (E:=Empty_set) s0 seed = Val (s', None)).
  { intros s0. destruct (PRNG_Reset s0 seed) as [| [s1 [e1 |]]]; cbn [bind].
    - split; intros [= ].
    - split; intros [= ].
    - split; intros [= ->]; reflexivity. }
  assert (Hreset : forall r sl,
             rate s = r -> seedLen s = sl ->
             PRNG_Reset (E:=Empty_set) s seed = Val (s', None) <->
             PRNG_Reset (E:=Empty_set)
               (mkShakePRNG (Some (Sponge.newState r dsbyteShake)) r sl 0 0) seed
             = Val (s', None)).
  { intros r sl Hr Hsl. unfold PRNG_Reset. rewrite Hc.
    unfold set_nw, set_c.
    cbn [c rate seedLen counter nw Reset state_ShakeHash].
    unfold Sponge.state_Reset. rewrite Hrd, Hds, Hr, Hsl.
    cbn [Sponge.rate Sponge.dsbyte Sponge.newState].
    change (mkShakePRNG (Some (Sponge.mkState (repeat 0 25) [] r dsbyteShake
                                 Sponge.spongeAbsorbing)) r sl (counter s) 0)
      with (set_counter
              (mkShakePRNG (Some (Sponge.mkState (repeat 0 25) [] r dsbyteShake
                                    Sponge.spongeAbsorbing)) r sl 0 0)
              (counter s)).
    apply Reseed_set_counter. }
  destruct Hb as [(-> & Hr & Hsl) | (-> & Hr & Hsl)];
    unfold NewShakeDRBG; cbn [Z.eqb Pos.eqb counter nw NewShake128 NewShake256
                                state_ShakeNew];
    rewrite Hinit; apply Hreset; assumption.
Qed.

Lemma PRNG_Reset_as_new_witness :
  exists s s' : ShakePRNG Sponge.state,
    aligned s /\
    PRNG_Reset (E:=Empty_set) s main_seed = Val (s', None) /\
    NewShakeDRBG (E:=Empty_set) 256 main_seed = Val (Some s', None).
Proof.
  assert (Hlen : 32 <= len main_seed <= 2 ^ 32) by (vm_compute; split; discriminate).
  destruct (NewShakeDRBG_aligned 256 main_seed (or_intror (conj eq_refl Hlen)))
    as (s & Hnew & Hs & _).
  pose proof (NewShakeDRBG_success _ _ _ Hnew) as (Hb & _).
  assert (Hb' : (256 = 128 /\ rate s = rate128 /\ seedLen s = 32) \/
                (256 = 256 /\ rate s = rate256 /\ seedLen s = 64)) by exact Hb.
  assert (Hrange : Z.quot (seedLen s) 2 <= len main_seed <= 2 ^ 32).
  { destruct Hb as [(Habs & _) | (_ & _ & ->)]; [discriminate Habs |].
    change (Z.quot 64 2) with 32. exact Hlen. }
  destruct (PRNG_Reset_aligned s main_seed Hs Hrange) as (s' & Hreset & _).
  exists s, s'. split; [exact Hs |]. split; [exact Hreset |].
  apply (PRNG_Reset_as_new 256 s s' main_seed Hs Hb'). exact Hreset.
Defined.

(** ** The bytes that are mixed back *)

Lemma window_of_prefix (buf : list byte) (start lo : nat) :
  (start + 25 <= lo)%nat ->
  firstn 25 (skipn start (firstn lo buf)) = firstn 25 (skipn start buf).
Proof.
  intros Hle. rewrite skipn_firstn_comm, firstn_firstn.
  replace (Nat.min 25 (lo - start)) with 25%nat by lia. reflexivity.
Qed.

Section MaskFromOutput.

Context {H E : Type} `{HashOps : ShakeHash H E}.

(** X21. The 25 bytes [Generate] turns into the mask are bytes of its
    output. The replay loop counts [nq] down to zero, so the window starts
    at [start] in the first block of the bytes read, not in the last one;
    with a buffer of at least [rate - 2] bytes the whole window lies in the
    part copied to the caller: the mask is computed from 25 consecutive
    bytes the caller receives. *)
Theorem Generate_mask_from_output (s s1 s' : ShakePRNG H)
  (out additionalIn buf out1 out' b : list byte) (dup dup2 : H)
  (nq start offset : Z)
  (Hr : 26 < rate s)
  (Hlo : rate s - 2 <= len out)
  (Hv : Generate_validate (E:=E) s out additionalIn = Val (Next tt))
  (Hsq : Generate_squeeze s out additionalIn = Val (Next (s1, dup, buf, out1)))
  (Hrp : Generate_replay s1 dup buf out1 = Val (Next (dup2, nq)))
  (Hwin : Generate_window s1 buf nq = Val (start, offset, b))
  (Hg : Generate s out additionalIn = Val (s', out', None)) :
  nq = 0 /\ offset = start /\
  0 <= start /\ start + nClear <= len out' /\
  b = firstn 25 (skipn (Z.to_nat start) out').
Proof.
  pose proof (Generate_out_after_squeeze _ _ _ _ _ _ _ _ _ _ Hv Hsq Hg) as ->.
  pose proof (Generate_squeeze_next _ _ _ _ _ _ _ Hsq)
    as (Hr1 & _ & _ & _ & _ & Hn & Hbuf & Hout1 & _).
  apply Generate_replay_next in Hrp as (_ & ->).
  destruct (scratchLen_covers (len out) (rate s)) as (Hcov & Hcov1);
    [apply len_nonneg | lia |].
  destruct (Generate_window_ok s1 buf)
    as (start0 & b0 & Hwin0 & _ & Hstart & _ & Hend & Hb0 & _); [lia | lia |].
  rewrite Hwin0 in Hwin. injection Hwin as <- <- <-.
  assert (Hcopy : out1 = firstn (length out) buf).
  { rewrite Hout1. apply copy_covered. unfold len in *. lia. }
  assert (Hlen1 : len out1 = len out).
  { rewrite Hout1. apply len_copy. }
  unfold nClear in *.
  split; [reflexivity |]. split; [reflexivity |].
  split; [lia |]. split; [lia |].
  rewrite Hb0, Hcopy. symmetry. apply window_of_prefix.
  unfold len in *. lia.
Qed.

End MaskFromOutput.

Lemma Generate_mask_from_output_witness :
  exists (s' : ShakePRNG Sponge.state) out' start b,
    Generate (E:=Empty_set) (engine256 0 1) main_buf main_additionalIn
    = Val (s', out', None) /\
    0 <= start /\ start + nClear <= len out' /\
    b = firstn 25 (skipn (Z.to_nat start) out').
Proof.
  assert (Hs : aligned (engine256 0 1)).
  { split; [reflexivity |].
    exists Sponge.NewShake256. split; [reflexivity |].
    split; [| reflexivity].
    apply newState_atBoundary. unfold rate256. lia. }
  assert (Hr : 26 < rate (engine256 0 1)) by reflexivity.
  assert (Hlo : rate (engine256 0 1) - 2 <= len main_buf) by (vm_compute; discriminate).
  assert (Hlen : 1 <= len main_buf <= 2 ^ 32) by (vm_compute; split; discriminate).
  assert (Hli : len main_additionalIn <= 2 ^ 32) by (vm_compute; discriminate).
  assert (Hcnt : counter (engine256 0 1) <= 2 ^ 48) by (vm_compute; discriminate).
  pose proof (main_validate (E:=Empty_set) (engine256 0 1) eq_refl) as Hv.
  destruct (Generate_read_and_replay (engine256 0 1) main_buf main_additionalIn Hs)
    as (s1 & dup & buf & dup2 & h1 & Hsq & Hrp & Hr1 & _ & _ & _ & Hbuf & _).
  destruct (scratchLen_covers (len main_buf) (rate (engine256 0 1))) as (_ & Hcov1);
    [lia | lia |].
  destruct (Generate_window_ok s1 buf) as (start & b & Hwin & _); [lia | lia |].
  destruct (Generate_aligned (engine256 0 1) main_buf main_additionalIn Hs Hcnt Hlen Hli)
    as (s' & out' & Hg & _).
  destruct (Generate_mask_from_output (engine256 0 1) s1 s' main_buf main_additionalIn
              buf (copy main_buf buf) out' b dup dup2 0 start start
              Hr Hlo Hv Hsq Hrp Hwin Hg)
    as (_ & _ & H0 & Hend & Hb).
  exists s', out', start, b. auto.
Defined.

(** ** The program of main.go *)

Lemma list_eqb_neq (a b : list byte) : list_eqb Z.eqb a b = false -> a <> b.
Proof.
  intros Hne ->. rewrite list_eqb_refl in Hne; [discriminate Hne |].
  apply Z.eqb_refl.
Qed.

Lemma main_check :
  match main with
  | Val [PRNG 0 b0; PRNG 1 b1; PRNG 2 b2] =>
      (len b0 =? 150) && (len b1 =? 150) && (len b2 =? 150) &&
      negb (list_eqb Z.eqb b0 b1) && negb (list_eqb Z.eqb b1 b2) &&
      negb (list_eqb Z.eqb b0 b2)
  | _ => false
  end = true.
Proof. vm_compute. reflexivity. Qed.

(** X22. [main] runs to its end without an error: the engine is created
    from the seed of the program, each of the three [Generate] calls
    succeeds, and the three lines printed carry the call numbers 0, 1, 2
    and three buffers of 150 bytes, no two of them equal although every
    call gets the same additional input: the engine moves on with each
    call. *)
Theorem main_prints_three_outputs :
  exists b0 b1 b2,
    main = Val [PRNG 0 b0; PRNG 1 b1; PRNG 2 b2] /\
    len b0 = 150 /\ len b1 = 150 /\ len b2 = 150 /\
    b0 <> b1 /\ b1 <> b2 /\ b0 <> b2.
Proof.
  pose proof main_check as Hck.
  destruct main as [| l]; [discriminate Hck |].
  destruct l as [| [e0 | e0 | i0 b0] l]; try discriminate Hck.
  destruct i0 as [| p0 | p0]; try discriminate Hck.
  destruct l as [| [e1 | e1 | i1 b1] l]; try discriminate Hck.
  destruct i1 as [| [p1 | p1 |] | p1]; try discriminate Hck.
  destruct l as [| [e2 | e2 | i2 b2] l]; try discriminate Hck.
  destruct i2 as [| [p2 | [p2 | p2 |] |] | p2]; try discriminate Hck.
  destruct l as [| x l]; [| discriminate Hck].
  apply andb_prop in Hck as (Hck & H02).
  apply andb_prop in Hck as (Hck & H12).
  apply andb_prop in Hck as (Hck & H01).
  apply andb_prop in Hck as (Hck & L2).
  apply andb_prop in Hck as (L0 & L1).
  apply Z.eqb_eq in L0, L1, L2.
  apply negb_true_iff in H01, H12, H02.
  exists b0, b1, b2.
  split; [reflexivity |].
  repeat (split; [assumption |]).
  split; [apply list_eqb_neq, H01 |].
  split; [apply list_eqb_neq, H12 | apply list_eqb_neq, H02].
Qed.

(** ** From the seed to the first output *)

Section FirstOutput.

Context {H E : Type} `{HashOps : ShakeHash H E} `{HashNew : ShakeNew H}.

(** The writes of a [writeWithPad] that succeeds. *)
Lemma writeWithPad_writes (s s' : ShakePRNG H) (h h' : option H) (p : list byte)
  (start : byte) :
  0 <= start -> 0 < rate s ->
  writeWithPad (E:=E) s h p start = Val (s', h', None) ->
  (p = [] /\ h' = h /\ s' = s) \/
  (p <> [] /\ s' = set_nw s (wrap_int (nw s + 1)) /\
   exists h0 h2,
     h = Some h0 /\ h' = Some h2 /\
     WriteAll h0 [zeros start ++ p;
                  zeros (rate s - len (zeros start ++ p) mod rate s)]
     = Val (h2, None)).
Proof.
  intros Hst Hr Hw.
  destruct p as [| x p].
  { rewrite writeWithPad_empty in Hw. injection Hw as <- <-. auto. }
  right. split; [discriminate |].
  destruct h as [h0 |].
  2:{ unfold writeWithPad in Hw.
      replace (len (x :: p) =? 0) with false in Hw; [discriminate Hw |].
      symmetry. apply Z.eqb_neq. unfold len. cbn [length]. lia. }
  rewrite (writeWithPad_unfold s h0 (x :: p) start) in Hw by (auto; discriminate).
  cbv zeta in Hw.
  destruct (Write h0 _) as [| [h1 [e1 |]]] eqn:Hw1; cbn [bind] in Hw;
    [discriminate Hw | discriminate Hw |].
  destruct (Write h1 _) as [| [h2 [e2 |]]] eqn:Hw2; cbn [bind] in Hw;
    [discriminate Hw | discriminate Hw |].
  injection Hw as <- <-. split; [reflexivity |].
  exists h0, h2. cbn [WriteAll]. rewrite Hw1. cbn [bind]. rewrite Hw2. auto.
Qed.

(** The write and the read of a [Generate] that gets past the read. *)
Lemma Generate_squeeze_writes (s s1 : ShakePRNG H) (out additionalIn : list byte)
  (dup : H) (buf out1 : list byte) :
  0 < rate s ->
  Generate_squeeze (E:=E) s out additionalIn = Val (Next (s1, dup, buf, out1)) ->
  let r := rate s in
  let d := zeros (getStartFrom s additionalIn) ++ additionalIn in
  exists h h0 h1 data,
    c s = Some h /\
    WriteAll h (match additionalIn with
                | [] => []
                | _ :: _ => [d; zeros (r - len d mod r)]
                end) = Val (h0, None) /\
    Read h0 (scratchLen (len out) r) = Val (h1, data, None) /\
    out1 = copy out (copy (zeros (scratchLen (len out) r)) data).
Proof.
  intros Hr. unfold Generate_squeeze.
  pose proof (getStartFrom_byte s additionalIn) as Hst. unfold is_byte in Hst.
  destruct (writeWithPad s (c s) additionalIn (getStartFrom s additionalIn))
    as [| [[s0 h] [e |]]] eqn:Hw; cbn [bind]; [intros [= ] | |].
  { intros Hd. apply destroyAndReturn_inv in Hd as [_ [= ]]. }
  apply writeWithPad_writes in Hw; [| lia | exact Hr].
  cbn [c set_c rate].
  destruct h as [h0 |]; [| intros [= ]].
  assert (Hr0 : rate s0 = rate s).
  { destruct Hw as [(_ & _ & ->) | (_ & -> & _)]; reflexivity. }
  rewrite Hr0.
  destruct (rate s =? 0); [intros [= ] |].
  fold (scratchLen (len out) (rate s)).
  destruct (scratchLen (len out) (rate s) <? 0); [intros [= ] |].
  destruct (Read h0 _) as [| [[h1 data] [e |]]] eqn:Hread; cbn [bind];
    [intros [= ] | |].
  { intros Hd. apply destroyAndReturn_inv in Hd as [_ [= ]]. }
  intros [= <- <- <- <-]. cbv zeta.
  destruct Hw as [(-> & Hh & _) | (Hne & _ & ha & hb & Hh & [= <-] & Hwr)].
  - exists h0, h0, h1, data. cbn [WriteAll]. auto.
  - exists ha, h0, h1, data.
    destruct additionalIn as [| x rest]; [contradiction |]. auto.
Qed.

(** X23. The first output of a new engine is a plain read of the hash.
    When [NewShakeDRBG] returns an engine and the first [Generate] on it
    succeeds, the bytes put into the caller's buffer are the first
    [len(out)] bytes read from the hash context into which, starting from
    the reset context of that strength, there were written: the seed behind
    its pre-pad of zeros, zeros up to a multiple of the rate, and, when
    there is additional input, the same for the additional input. Nothing
    else enters the first output. *)
Theorem first_output_is_hash_read (bits : Z) (seed : list byte)
  (s s' : ShakePRNG H) (out additionalIn out' : list byte)
  (Hnew : NewShakeDRBG (E:=E) bits seed = Val (Some s, None))
  (Hg : Generate s out additionalIn = Val (s', out', None)) :
  let r := rate s in
  let h0 := Reset (if bits =? 128 then NewShake128 else NewShake256) in
  let d1 := zeros (getStartFrom (set_nw s 0) seed) ++ seed in
  let d2 := zeros (getStartFrom s additionalIn) ++ additionalIn in
  let n := (len out / r + 1) * r - 1 in
  exists h1 h2 h3 data,
    WriteAll h0 [d1; zeros (r - len d1 mod r)] = Val (h1, None) /\
    c s = Some h1 /\
    WriteAll h1 (match additionalIn with
                 | [] => []
                 | _ :: _ => [d2; zeros (r - len d2 mod r)]
                 end) = Val (h2, None) /\
    Read h2 n = Val (h3, data, None) /\
    out' = firstn (length out) (copy (zeros n) data).
Proof.
  intros r h0 d1 d2 n.
  pose proof (NewShakeDRBG_success _ _ _ Hnew) as (Hbits & _ & _ & _ & Hrange).
  pose proof (Generate_success _ _ _ _ _ Hg) as (Hr & _).
  (* the engine as [Reseed] finds it *)
  assert (Hreseed :
            Reseed (E:=E) (mkShakePRNG (Some h0) (rate s) (seedLen s) 0 0) seed
            = Val (s, None)).
  { unfold NewShakeDRBG in Hnew. unfold h0.
    destruct Hbits as [(-> & Hrs & Hsl) | (-> & Hrs & Hsl)];
      cbn [Z.eqb Pos.eqb counter nw] in Hnew |- *;
      unfold PRNG_Reset in Hnew; cbn [c] in Hnew;
      unfold set_nw, set_c in Hnew; cbn [c rate seedLen counter nw] in Hnew;
      rewrite Hrs, Hsl;
      match type of Hnew with
      | context [Reseed ?e0 seed] =>
          destruct (Reseed e0 seed) as [| [s2 [e2 |]]] eqn:Hrs2;
            cbn [bind] in Hnew; try discriminate Hnew;
            injection Hnew as ->; exact Hrs2
      end. }
  assert (Hseed : seed <> []).
  { intros ->. change (len (@nil byte)) with 0 in Hrange.
    destruct Hbits as [(_ & _ & Hsl) | (_ & _ & Hsl)]; rewrite Hsl in Hrange;
      cbn in Hrange; lia. }
  destruct (Reseed_cases (E:=E) (mkShakePRNG (Some h0) (rate s) (seedLen s) 0 0) seed)
    as [(_ & msg & args & Hbad) | (_ & Hun)]; [congruence |].
  rewrite Hun in Hreseed. clear Hun. cbn [c] in Hreseed.
  change (getStartFrom (mkShakePRNG (Some h0) (rate s) (seedLen s) 0 0) seed)
    with (getStartFrom (set_nw s 0) seed) in Hreseed.
  pose proof (getStartFrom_byte (set_nw s 0) seed) as Hst. unfold is_byte in Hst.
  destruct (writeWithPad _ _ seed _) as [| [[sa ha] [ea |]]] eqn:Hw;
    cbn [bind] in Hreseed; [discriminate Hreseed | |].
  { destruct (Destroy _) in Hreseed; discriminate Hreseed. }
  apply writeWithPad_writes in Hw; [| lia | cbn [rate]; exact Hr].
  destruct Hw as [(Hnil & _) | (_ & _ & hx & h1 & [= <-] & -> & Hwr)];
    [contradiction |].
  cbn [rate] in Hwr.
  assert (Hcs : c s = Some h1) by (injection Hreseed as <-; reflexivity).
  (* the first [Generate] *)
  pose proof Hg as Hinv.
  apply Generate_inv in Hinv
    as [Hret | (Hv & [Hret | (s1 & dup & buf & out1 & Hsq & _)])].
  - destruct (Generate_validate_cases (E:=E) s out additionalIn)
      as [(_ & msg & Hv) | [(_ & _ & msg & args & Hv) | (_ & _ & _ & Hv)]];
      congruence.
  - apply Generate_squeeze_return in Hret as (msg & e0 & [= ] & _).
  - pose proof (Generate_out_after_squeeze _ _ _ _ _ _ _ _ _ _ Hv Hsq Hg) as ->.
    pose proof (Generate_squeeze_writes _ _ _ _ _ _ _ Hr Hsq) as Hsqw.
    cbv zeta in Hsqw.
    destruct Hsqw as (h & h2 & h3 & data & Hc & Hwr2 & Hread & ->).
    assert (Hh : h = h1) by congruence. subst h.
    pose proof (len_nonneg out) as Hlo.
    assert (Hn : scratchLen (len out) (rate s) = n).
    { unfold scratchLen, n, r. rewrite Z.quot_div_nonneg by lia. reflexivity. }
    rewrite Hn in Hread |- *.
    exists h1, h2, h3, data.
    split; [exact Hwr |]. split; [exact Hcs |].
    split; [exact Hwr2 |]. split; [exact Hread |].
    apply copy_covered.
    destruct (scratchLen_covers (len out) (rate s)) as (Hcov & _); [lia | lia |].
    rewrite copy_length. unfold zeros. rewrite repeat_length.
    rewrite Hn in Hcov. unfold len in Hcov. lia.
Qed.

End FirstOutput.

Lemma first_output_is_hash_read_witness :
  exists (s s' : ShakePRNG Sponge.state) out' h1,
    NewShakeDRBG (E:=Empty_set) 256 main_seed = Val (Some s, None) /\
    Generate (E:=Empty_set) s main_buf main_additionalIn = Val (s', out', None) /\
    c s = Some h1.
Proof.
  destruct main_generate as (s & s' & out' & Hnew & _ & _ & Hg).
  destruct (first_output_is_hash_read 256 main_seed s s' main_buf main_additionalIn
              out' Hnew Hg)
    as (h1 & h2 & h3 & data & _ & Hc & _).
  exists s, s', out', h1. auto.
Defined.

(** ** Wrapped errors *)

(** X24. [errors.Is] sees the reseed sentinel through any number of layers
    of [WrapTraceableErrorf]: an error wrapped again and again is a reseed
    request exactly when the innermost error was one, and an error made
    from [nil] never is. Only an error made from [nil] and not wrapped
    again is a plain message. *)
Theorem WrapTraceableErrorf_keeps_sentinel {E : Type} (err : option (error E))
  (format : string) (args : list Z) (layers : list (string * list Z)) :
  let wrapped :=
    fold_left (fun e l => WrapTraceableErrorf (Some e) (fst l) (snd l)) layers
      (WrapTraceableErrorf err format args) in
  IsErrDRBGReseed wrapped
  = match err with
    | Some e => IsErrDRBGReseed e
    | None => false
    end /\
  (IsValidationError wrapped = true <-> err = None /\ layers = []).
Proof.
  cbv zeta.
  assert (Hfold : forall e0 : error E,
             IsErrDRBGReseed
               (fold_left (fun e l => WrapTraceableErrorf (Some e) (fst l) (snd l))
                  layers e0)
             = IsErrDRBGReseed e0 /\
             (layers <> [] ->
              IsValidationError
                (fold_left (fun e l => WrapTraceableErrorf (Some e) (fst l) (snd l))
                   layers e0)
              = false)).
  { induction layers as [| l layers IH]; intros e0.
    - split; [reflexivity | intros Hne; contradiction].
    - cbn [fold_left]. destruct (IH (WrapTraceableErrorf (Some e0) (fst l) (snd l)))
        as (Hs & Hv).
      split; [rewrite Hs; reflexivity |].
      intros _. destruct layers as [| l' layers']; [reflexivity |].
      apply Hv. discriminate. }
  destruct (Hfold (WrapTraceableErrorf err format args)) as (Hs & Hv).
  split.
  - rewrite Hs. destruct err; reflexivity.
  - split.
    + intros Hval. destruct layers as [| l layers'].
      * cbn [fold_left] in Hval. destruct err; [discriminate Hval | auto].
      * rewrite Hv in Hval by discriminate. discriminate Hval.
    + intros (-> & ->). reflexivity.
Qed.

(** ** The lanes after a call *)

Lemma absorb_short (fuel : nat) (r : Z) (lanes : list Z) (p : list byte) :
  len p < r -> Sponge.absorb fuel r lanes p = Val (lanes, p).
Proof.
  intros Hp. destruct fuel as [| fuel]; [reflexivity |].
  cbn [Sponge.absorb].
  replace (r <=? len p) with false by (symmetry; apply Z.leb_gt; exact Hp).
  reflexivity.
Qed.

(** A [writeWithPad] that fits in one block, on a sponge at a block
    boundary: the pre-pad, the data and the post-pad make one block, which
    is xored into the lanes and followed by one permutation. *)
Lemma writeWithPad_one_block (s : ShakePRNG Sponge.state) (d : Sponge.state)
  (p : list byte) (start : byte) :
  atBoundary d -> Sponge.rate d = rate s ->
  p <> [] -> 0 <= start -> start + len p < rate s ->
  exists lanes',
    Sponge.xorIn (Sponge.a d) (zeros start ++ p ++ zeros (rate s - start - len p))
    = Val lanes' /\
    writeWithPad (E:=Empty_set) s (Some d) p start
    = Val (set_nw s (wrap_int (nw s + 1)),
           Some (Sponge.mkState (Sponge.permute lanes') [] (rate s) dsbyteShake
                   Sponge.spongeAbsorbing),
           None).
Proof.
  intros ((Hdir & Hrr & Hl & _) & Hbuf & Hds) Hrd Hp Hst Hfit.
  pose proof (len_nonneg p) as Hlp.
  set (data := zeros start ++ p).
  assert (Hdata : len data = start + len p).
  { unfold data. rewrite len_app, len_zeros by lia. reflexivity. }
  set (block := zeros start ++ p ++ zeros (rate s - start - len p)).
  assert (Hblock : len block = rate s).
  { unfold block. rewrite !len_app, !len_zeros by lia. lia. }
  destruct (xorIn_ok (Sponge.a d) block ltac:(lia)) as (lanes' & Hx & _).
  exists lanes'. split; [exact Hx |].
  rewrite (writeWithPad_unfold (E:=Empty_set) s d p start) by (auto; lia).
  cbv zeta. fold data. cbn [Write state_ShakeHash].
  rewrite Hdata, Z.mod_small by lia.
  (* the first write stays within the block *)
  assert (Hw1 : Sponge.state_Write d data
                = Val (Sponge.mkState (Sponge.a d) data (Sponge.rate d) (Sponge.dsbyte d)
                         Sponge.spongeAbsorbing, None)).
  { unfold Sponge.state_Write. rewrite Hdir, Hbuf.
    replace (Sponge.rate d <=? 0) with false by (symmetry; apply Z.leb_gt; lia).
    cbn [app]. rewrite absorb_short by lia. reflexivity. }
  rewrite Hw1. cbn [bind].
  (* the second write completes it *)
  unfold Sponge.state_Write.
  cbn [Sponge.direction Sponge.rate Sponge.buf Sponge.a Sponge.dsbyte].
  replace (Sponge.rate d <=? 0) with false by (symmetry; apply Z.leb_gt; lia).
  replace (data ++ zeros (rate s - (start + len p))) with block
    by (unfold block, data; rewrite <- app_assoc; do 3 f_equal; lia).
  rewrite Hrd, (absorb_one_block (rate s) (Sponge.a d) lanes' block) by (auto; lia).
  cbn [bind]. rewrite Hds. reflexivity.
Qed.

(** X25. The lanes after a call, in closed form. On the sponge, a
    [Generate] that passes the checks leaves as the engine's context a
    sponge at a block boundary whose lanes are one permutation of: the
    lanes of the context that was read, xored with one block that is zero
    except for the 25 mask bytes at offset [start]. The next state is thus
    a function of the lanes read from and of the mask alone. *)
Theorem Generate_state_update (s : ShakePRNG Sponge.state) (out additionalIn : list byte)
  (Hs : aligned s) (Hcnt : counter s <= 2 ^ 48)
  (Hlo : 1 <= len out <= 2 ^ 32) (Hli : len additionalIn <= 2 ^ 32) :
  exists s1 dup buf out1 dup2 h1 start b lanes' s',
    Generate_squeeze (E:=Empty_set) s out additionalIn
    = Val (Next (s1, dup, buf, out1)) /\
    Generate_replay (E:=Empty_set) s1 dup buf out1 = Val (Next (dup2, 0)) /\
    Generate_window s1 buf 0 = Val (start, start, b) /\
    c s1 = Some h1 /\
    Sponge.xorIn (Sponge.a h1)
      (zeros start ++ createMask b ++ zeros (rate s - start - nClear))
    = Val lanes' /\
    Generate (E:=Empty_set) s out additionalIn = Val (s', out1, None) /\
    c s' = Some (Sponge.mkState (Sponge.permute lanes') [] (rate s) dsbyteShake
                   Sponge.spongeAbsorbing).
Proof.
  pose proof Hs as (Hr & _).
  destruct (Generate_read_and_replay s out additionalIn Hs)
    as (s1 & dup & buf & dup2 & h1 & Hsq & Hrp & Hr1 & Hsl1 & Hc1 & Hch1 & Hbuf & _ & _
        & _ & _ & Hd2 & Hrd2 & Ha).
  destruct (scratchLen_covers (len out) (rate s)) as (_ & Hcov1); [lia | lia |].
  destruct (Generate_window_ok s1 buf)
    as (start & b & Hwin & _ & Hstart & H255 & Hend & _ & Hb); [lia | lia |].
  assert (Hmask : len (createMask b) = nClear).
  { unfold len in *. rewrite createMask_length. exact Hb. }
  assert (Hne : createMask b <> []).
  { intros Hnil. rewrite Hnil in Hmask. discriminate Hmask. }
  assert (Hsb : to_byte start = start).
  { apply to_byte_id. unfold is_byte. lia. }
  destruct (writeWithPad_one_block s1 dup2 (createMask b) start Hd2)
    as (lanes' & Hx & Hw); [congruence | exact Hne | lia | rewrite Hmask; lia |].
  rewrite Hmask, Hr1, Ha in Hx.
  exists s1, dup, buf, (copy out buf), dup2, h1, start, b, lanes'.
  eexists.
  split; [exact Hsq |]. split; [exact Hrp |]. split; [exact Hwin |].
  split; [exact Hch1 |]. split; [exact Hx |].
  unfold Generate.
  destruct (Generate_validate_cases (E:=Empty_set) s out additionalIn)
    as [(Hgt & _) | [(_ & Hbad & _) | (_ & _ & _ & ->)]]; [lia | lia |].
  cbn [andThen]. rewrite Hsq. cbn [andThen]. rewrite Hrp. cbn [andThen].
  rewrite Hwin. cbn [bind]. unfold Generate_remix. rewrite Hsb, Hw.
  cbn [bind c set_nw]. rewrite Hch1. cbn [finish].
  split; [reflexivity |]. cbn [c set_counter set_c]. rewrite Hr1. reflexivity.
Qed.

Lemma Generate_state_update_witness :
  exists (s' : ShakePRNG Sponge.state) out' lanes',
    Generate (E:=Empty_set) (engine256 0 1) main_buf main_additionalIn
    = Val (s', out', None) /\
    c s' = Some (Sponge.mkState (Sponge.permute lanes') [] rate256 dsbyteShake
                   Sponge.spongeAbsorbing).
Proof.
  assert (Hs : aligned (engine256 0 1)).
  { split; [reflexivity |].
    exists Sponge.NewShake256. split; [reflexivity |].
    split; [| reflexivity].
    apply newState_atBoundary. unfold rate256. lia. }
  assert (Hlen : 1 <= len main_buf <= 2 ^ 32) by (vm_compute; split; discriminate).
  assert (Hli : len main_additionalIn <= 2 ^ 32) by (vm_compute; discriminate).
  assert (Hcnt : counter (engine256 0 1) <= 2 ^ 48) by (vm_compute; discriminate).
  destruct (Generate_state_update (engine256 0 1) main_buf main_additionalIn
              Hs Hcnt Hlen Hli)
    as (s1 & dup & buf & out1 & dup2 & h1 & start & b & lanes' & s' & _ & _ & _ & _
        & _ & Hg & Hc).
  exists s', out1, lanes'. auto.
Defined.

(** ** A hash that returns no errors *)

Section NoHashErrors.

Context {H : Type} `{HashOps : ShakeHash H Empty_set}.

Lemma writeWithPad_no_error (s s' : ShakePRNG H) (h h' : option H) (p : list byte)
  (start : byte) (e : error Empty_set) :
  writeWithPad s h p start = Val (s', h', Some e) -> False.
Proof.
  intros Hw. apply writeWithPad_error in Hw as (_ & msg & args & e0 & _).
  destruct e0.
Qed.

Lemma Generate_squeeze_no_return (s : ShakePRNG H) (out additionalIn : list byte)
  (r : GenerateResult) :
  Generate_squeeze s out additionalIn = Val (Return r) -> False.
Proof.
  unfold Generate_squeeze.
  destruct (writeWithPad s (c s) additionalIn (getStartFrom s additionalIn))
    as [| [[s0 h] [e |]]] eqn:Hw; cbn [bind]; [intros [= ] | |].
  { intros _. exact (writeWithPad_no_error _ _ _ _ _ _ _ Hw). }
  destruct (c (set_c s0 h)); [| intros [= ]].
  destruct (rate (set_c s0 h) =? 0); [intros [= ] |].
  destruct (_ <? 0); [intros [= ] |].
  destruct (Read _ _) as [| [[h1 data] [[] |]]]; cbn [bind]; intros [= ].
Qed.

Lemma Generate_replay_loop_no_error (fuel : nat) (dup dup' : H) (cBuf : list byte)
  (nq nq' : Z) (e : Empty_set) :
  Generate_replay_loop fuel dup cBuf nq = Val (dup', nq', Some e) -> False.
Proof. destruct e. Qed.

Lemma Generate_replay_no_return (s : ShakePRNG H) (dup : H) (buf out : list byte)
  (r : GenerateResult) :
  Generate_replay s dup buf out = Val (Return r) -> False.
Proof.
  unfold Generate_replay.
  destruct (Write dup _) as [| [dup1 [[] |]]]; cbn [bind]; [intros [= ] |].
  destruct (rate s =? 0); [intros [= ] |].
  destruct (rate s <? 0); [intros [= ] |].
  destruct (Generate_replay_loop _ _ _ _) as [| [[dup2 nq] [[] |]]]; cbn [bind];
    intros [= ].
Qed.

(** X26. With a hash that returns no errors the engine is never destroyed
    by a call that returns. Every error of [Generate] is then one of the
    checks made up front, and engine and buffer are the ones passed in;
    every error of [Reseed] is a validation error and the engine is the one
    passed in; every error of [Reset] is a validation error and the engine
    left holds the reset context. The calls to [Destroy] in the three
    methods are reached only through an error of [Write] or [Read]. *)
Theorem no_hash_error_no_destroy (s : ShakePRNG H) :
  (forall out additionalIn s' out' e,
      Generate s out additionalIn = Val (s', out', Some e) ->
      s' = s /\ out' = out /\ IsEarlyError e = true) /\
  (forall seed s' e,
      Reseed s seed = Val (s', Some e) ->
      s' = s /\ IsValidationError e = true) /\
  (forall seed s' e,
      PRNG_Reset s seed = Val (s', Some e) ->
      IsValidationError e = true /\
      exists h, c s = Some h /\
                s' = mkShakePRNG (Some (Reset h)) (rate s) (seedLen s) (counter s) 0).
Proof.
  assert (Hreseed : forall (s0 : ShakePRNG H) seed s' e,
             Reseed s0 seed = Val (s', Some e) ->
             s' = s0 /\ IsValidationError e = true).
  { intros s0 seed s' e Hr.
    destruct (Reseed_cases (E:=Empty_set) s0 seed)
      as [(_ & msg & args & Hbad) | (_ & Hun)].
    - rewrite Hbad in Hr. injection Hr as <- <-. auto.
    - rewrite Hun in Hr.
      destruct (writeWithPad _ _ _ _) as [| [[sa ha] [ea |]]] eqn:Hw;
        cbn [bind] in Hr; [discriminate Hr | | discriminate Hr].
      exfalso. exact (writeWithPad_no_error _ _ _ _ _ _ _ Hw). }
  split; [| split].
  - intros out additionalIn s' out' e Hg.
    apply Generate_inv in Hg
      as [Hret | (Hv & [Hret | (s1 & dup & buf & out1 & Hsq &
             [Hret | (dup2 & nq & start & offset & b & Hrp & Hwin & Hrm)])])].
    + destruct (Generate_validate_cases (E:=Empty_set) s out additionalIn)
        as [(_ & msg & Hv) | [(_ & _ & msg & args & Hv) | (_ & _ & _ & Hv)]];
        rewrite Hv in Hret; [| | discriminate Hret];
        injection Hret as <- <- <-; auto.
    + exfalso. exact (Generate_squeeze_no_return _ _ _ _ Hret).
    + exfalso. exact (Generate_replay_no_return _ _ _ _ _ Hret).
    + exfalso.
      apply Generate_window_inv in Hwin as (_ & _ & _ & Hb).
      destruct Hrm as [Hrm | Hrm];
        apply (Generate_remix_inv _ _ _ _ _ _ Hb) in Hrm
          as [(msg & msg' & args & e0 & Heq) | (d & Heq)];
        try destruct e0; discriminate Heq.
  - intros seed s' e. apply Hreseed.
  - intros seed s' e. unfold PRNG_Reset.
    destruct (c s) as [h |]; [| intros [= ]].
    intros Hr. apply Hreseed in Hr as (-> & He).
    split; [exact He |]. exists h. split; reflexivity.
Qed.

End NoHashErrors.
